(** * The agent response interpretation pipeline

    A shallow embedding of [ReActOutputParser.parse] (agent_core.py) and of
    [_try_extract_json_from_text] with the string branch of [run_query]
    (main.py), together with the parts of the Python standard library they
    call: [str] methods, the three regular expressions, [json.loads],
    [json.dumps] and [ast.literal_eval]. *)

From Stdlib Require Import NArith ZArith List Bool Ascii String Lia.
From Stdlib Require Decimal DecimalFacts DecimalN.
Import ListNotations.

Set Warnings "-register-all".
Local Open Scope N_scope.
Local Abbreviation length := Datatypes.length.

(** ** Python strings

    A Python [str] is a sequence of Unicode code points. *)

Abbreviation char := N (only parsing).
Abbreviation str := (list N) (only parsing).

Definition lit (s : string) : str := map N_of_ascii (list_ascii_of_string s).

(** [str.isspace] on one character, which is also the class [\s] of [re] on
    [str] patterns: the code points CPython lists as whitespace. *)
Definition isspace (c : char) : bool :=
  ((0x09 <=? c) && (c <=? 0x0D)) || ((0x1C <=? c) && (c <=? 0x20))
  || (c =? 0x85) || (c =? 0xA0) || (c =? 0x1680)
  || ((0x2000 <=? c) && (c <=? 0x200A))
  || (c =? 0x2028) || (c =? 0x2029) || (c =? 0x202F) || (c =? 0x205F)
  || (c =? 0x3000).

Fixpoint lstrip_by (p : char -> bool) (s : str) : str :=
  match s with
  | [] => []
  | c :: s' => if p c then lstrip_by p s' else s
  end.

Definition rstrip_by (p : char -> bool) (s : str) : str :=
  rev (lstrip_by p (rev s)).

Definition strip_by (p : char -> bool) (s : str) : str :=
  rstrip_by p (lstrip_by p s).

(** [s.strip()] *)
Definition strip : str -> str := strip_by isspace.

(** [s.strip(chars)] *)
Definition strip_chars (chars : str) : str -> str :=
  strip_by (fun c => existsb (N.eqb c) chars).

(** [s.startswith(p)] *)
Fixpoint startswith (s p : str) : bool :=
  match p, s with
  | [], _ => true
  | _ :: _, [] => false
  | a :: p', b :: s' => (a =? b) && startswith s' p'
  end.

(** [sep in s] *)
Fixpoint contains (sep s : str) : bool :=
  startswith s sep ||
  match s with
  | [] => false
  | _ :: s' => contains sep s'
  end.

(** [s.split(sep)] for a non-empty [sep]: a left to right scan that cuts at
    every occurrence of [sep] not overlapping the previous cut.  [skip]
    counts the characters of the separator still to pass, [cur] is the
    current piece, reversed. *)
Fixpoint split_go (sep : str) (skip : nat) (cur : str) (s : str) : list str :=
  match s with
  | [] => [rev cur]
  | c :: s' =>
      match skip with
      | S k => split_go sep k cur s'
      | O =>
          if startswith s sep
          then rev cur :: split_go sep (pred (length sep)) [] s'
          else split_go sep 0 (c :: cur) s'
      end
  end.

Definition split (sep s : str) : list str := split_go sep 0 [] s.

(** ** Exceptions and results *)

Inductive exn : Type :=
| JSONDecodeError | ValueError | SyntaxError | TypeError | AttributeError.

Definition exn_eqb (a b : exn) : bool :=
  match a, b with
  | JSONDecodeError, JSONDecodeError | ValueError, ValueError
  | SyntaxError, SyntaxError | TypeError, TypeError
  | AttributeError, AttributeError => true
  | _, _ => false
  end.

(** [isinstance(e, cls)]: [json.JSONDecodeError] is a subclass of
    [ValueError]; the other classes are unrelated. *)
Definition exn_isinstance (e cls : exn) : bool :=
  exn_eqb e cls ||
  match e, cls with
  | JSONDecodeError, ValueError => true
  | _, _ => false
  end.

Inductive result (A : Type) : Type :=
| Return (a : A)
| Raise (e : exn).
Arguments Return {A} a.
Arguments Raise {A} e.

Definition bind {A B : Type} (r : result A) (k : A -> result B) : result B :=
  match r with
  | Return a => k a
  | Raise e => Raise e
  end.

Notation "x <- r ;; k" := (bind r (fun x => k))
  (at level 61, r at next level, right associativity).

(** [except classes:] catches [e] *)
Definition caught (e : exn) (classes : list exn) : bool :=
  existsb (exn_isinstance e) classes.

(** [try: body] followed by [except] clauses, each a tuple of classes and
    a handler; the first clause that catches the exception handles it. *)
Fixpoint handle {A : Type} (e : exn) (clauses : list (list exn * result A))
    : result A :=
  match clauses with
  | [] => Raise e
  | (classes, handler) :: rest =>
      if caught e classes then handler else handle e rest
  end.

Definition try_except {A : Type} (body : result A)
    (clauses : list (list exn * result A)) : result A :=
  match body with
  | Return a => Return a
  | Raise e => handle e clauses
  end.

(** ** The regular expressions *)

(** Consume the literal [p] at the head of [s]. *)
Fixpoint eat (p s : str) : option str :=
  match p with
  | [] => Some s
  | a :: p' =>
      match s with
      | [] => None
      | b :: s' => if a =? b then eat p' s' else None
      end
  end.

(** [(.*?)sep] under [re.DOTALL]: the shortest text up to a following
    [sep]; the text and what follows [sep]. *)
Fixpoint until (sep s : str) : option (str * str) :=
  match eat sep s with
  | Some rest => Some ([], rest)
  | None =>
      match s with
      | [] => None
      | c :: s' =>
          match until sep s' with
          | Some (body, rest) => Some (c :: body, rest)
          | None => None
          end
      end
  end.

Definition ACTION : str := lit "Action".
Definition COLON : char := 58.
Definition FENCE : str := lit "```".
Definition FENCE_JSON : str := lit "```json".

(** [Action\s*:\s*```json(.*?)```] anchored at the head of [s]; the result
    is [group(1)].  [\s*] is greedy, and since neither [:] nor a backquote is
    a space, giving characters back never helps. *)
Definition match_action (s : str) : option str :=
  match eat ACTION s with
  | None => None
  | Some s1 =>
      match eat [COLON] (lstrip_by isspace s1) with
      | None => None
      | Some s2 =>
          match eat FENCE_JSON (lstrip_by isspace s2) with
          | None => None
          | Some s3 =>
              match until FENCE s3 with
              | None => None
              | Some (body, _) => Some body
              end
          end
      end
  end.

Fixpoint takewhile (p : char -> bool) (s : str) : str :=
  match s with
  | [] => []
  | c :: s' => if p c then c :: takewhile p s' else []
  end.

(** [(\[\s*[\s\S]*?\])] and [(\{\s*[\s\S]*?\})] anchored at the head of
    [s], for the opening character [o] and the closing character [c]; the
    result is [group(1)], the whole match. *)
Definition match_span (o c : char) (s : str) : option str :=
  match eat [o] s with
  | None => None
  | Some s1 =>
      match until [c] (lstrip_by isspace s1) with
      | None => None
      | Some (body, _) => Some (o :: takewhile isspace s1 ++ body ++ [c])
      end
  end.

Module re.

(** [re.search(pat, s, re.DOTALL)] for a pattern given by its anchored
    matcher: the match at the leftmost position that has one. *)
Fixpoint search {A : Type} (pat : str -> option A) (s : str) : option A :=
  match pat s with
  | Some m => Some m
  | None =>
      match s with
      | [] => None
      | _ :: s' => search pat s'
      end
  end.

End re.

(** ** Python values *)

(** A [float]: not a number, an infinity, or a finite number carried as
    the parts of the decimal text it was read from: sign, integer part,
    fraction with its point, exponent with its letter. *)
Inductive pyfloat : Type :=
| FNan
| FInf (negative : bool)
| FDec (negative : bool) (integer fraction exponent : str).

Inductive value : Type :=
| PyNone
| PyBool (b : bool)
| PyInt (z : Z)
| PyFloat (f : pyfloat)
| PyStr (s : str)
| PyList (items : list value)
| PyDict (items : list (value * value))
| PySet (elts : list value).


Definition is_none (v : value) : bool :=
  match v with PyNone => true | _ => false end.

Fixpoint str_eqb (a b : str) : bool :=
  match a, b with
  | [], [] => true
  | x :: a', y :: b' => (x =? y) && str_eqb a' b'
  | _, _ => false
  end.

(** [a == b] between the hashable scalars that occur as keys here: a
    [bool] equals the [int] of the same value, a [str] only another [str].
    A [float] does not occur as a key here. *)
Definition key_eqb (a b : value) : bool :=
  match a, b with
  | PyNone, PyNone => true
  | PyBool x, PyBool y => Bool.eqb x y
  | PyInt x, PyInt y => Z.eqb x y
  | PyBool x, PyInt y | PyInt y, PyBool x => Z.eqb (Z.b2z x) y
  | PyStr x, PyStr y => str_eqb x y
  | _, _ => false
  end.

(** [d.get(k)], with [None] for a key that is not there *)
Fixpoint dict_get (d : list (value * value)) (k : value) : value :=
  match d with
  | [] => PyNone
  | (k', v) :: d' => if key_eqb k' k then v else dict_get d' k
  end.

(** [d[k] = v]: an existing key keeps its place and takes the new value *)
Fixpoint dict_set (d : list (value * value)) (k v : value)
    : list (value * value) :=
  match d with
  | [] => [(k, v)]
  | (k', v') :: d' =>
      if key_eqb k' k then (k', v) :: d' else (k', v') :: dict_set d' k v
  end.

(** [dict(pairs)] *)
Definition dict_of_pairs (pairs : list (value * value))
    : list (value * value) :=
  fold_left (fun d kv => dict_set d (fst kv) (snd kv)) pairs [].

(** The outcome of scanning a prefix of the input: a value and the rest of
    the input, no match, or recursion budget used up. *)
Inductive scan (A : Type) : Type :=
| Scanned (a : A) (rest : str)
| NoScan
| OutOfFuel.
Arguments Scanned {A} a rest.
Arguments NoScan {A}.
Arguments OutOfFuel {A}.

Definition DQUOTE : char := 34.
Definition BACKSLASH : char := 92.
Definition COMMA : char := 44.
Definition MINUS : char := 45.
Definition LBRACKET : char := 91.
Definition RBRACKET : char := 93.
Definition LBRACE : char := 123.
Definition RBRACE : char := 125.

Definition is_digit (c : char) : bool := (48 <=? c) && (c <=? 57).

(** [\d*] over ASCII digits: the digits and what follows them *)
Fixpoint span_digits (s : str) : str * str :=
  match s with
  | [] => ([], [])
  | c :: s' =>
      if is_digit c
      then let (ds, r) := span_digits s' in (c :: ds, r)
      else ([], s)
  end.

Definition digit_of_char (c : char) (u : Decimal.uint) : Decimal.uint :=
  match c - 48 with
  | 0 => Decimal.D0 u | 1 => Decimal.D1 u | 2 => Decimal.D2 u
  | 3 => Decimal.D3 u | 4 => Decimal.D4 u | 5 => Decimal.D5 u
  | 6 => Decimal.D6 u | 7 => Decimal.D7 u | 8 => Decimal.D8 u
  | _ => Decimal.D9 u
  end.

Definition uint_of_digits (ds : str) : Decimal.uint :=
  fold_right digit_of_char Decimal.Nil ds.

(** [int(ds)] for a string of ASCII digits *)
Definition nat_of_digits (ds : str) : N := N.of_uint (uint_of_digits ds).

(** ** [json.loads]

    The decoder of the [json] module with its default options: the scanner
    [scan_once] with [JSONObject], [JSONArray], [scanstring] in strict mode
    and the number pattern, then [JSONDecoder.decode].  The interpreter's
    limits on recursion depth and on the digits of an [int] are not
    modelled. *)
Module json.

Definition is_ws (c : char) : bool :=
  (c =? 32) || (c =? 9) || (c =? 10) || (c =? 13).

(** [WHITESPACE.match(s, end).end()] *)
Definition skip_ws : str -> str := lstrip_by is_ws.

(** [0|[1-9]\d*] *)
Definition scan_int_part (s : str) : option (str * str) :=
  match s with
  | [] => None
  | c :: s' =>
      if c =? 48 then Some ([c], s')
      else if is_digit c
      then let (ds, r) := span_digits s' in Some (c :: ds, r)
      else None
  end.

(** [(\.\d+)?] *)
Definition scan_frac (s : str) : str * str :=
  match s with
  | dot :: d :: s' =>
      if (dot =? 46) && is_digit d
      then let (ds, r) := span_digits s' in (dot :: d :: ds, r)
      else ([], s)
  | _ => ([], s)
  end.

(** [([eE][-+]?\d+)?] *)
Definition scan_exp (s : str) : str * str :=
  match s with
  | e :: c :: s2 =>
      if (e =? 101) || (e =? 69) then
        if is_digit c
        then let (ds, r) := span_digits s2 in (e :: c :: ds, r)
        else if (c =? 43) || (c =? 45) then
          match s2 with
          | d :: s3 =>
              if is_digit d
              then let (ds, r) := span_digits s3 in (e :: c :: d :: ds, r)
              else ([], s)
          | [] => ([], s)
          end
        else ([], s)
      else ([], s)
  | _ => ([], s)
  end.

Record number_match : Type := {
  num_neg : bool;
  num_int : str;
  num_frac : str;
  num_exp : str;
  num_rest : str
}.

(** [NUMBER_RE.match]: an optional minus sign and the integer part, then
    the optional fraction and the optional exponent *)
Definition match_number (s : str) : option number_match :=
  let (neg, s0) :=
    match s with
    | c :: s' => if c =? MINUS then (true, s') else (false, s)
    | [] => (false, s)
    end in
  match scan_int_part s0 with
  | None => None
  | Some (i, s1) =>
      let (f, s2) := scan_frac s1 in
      let (e, s3) := scan_exp s2 in
      Some {| num_neg := neg; num_int := i; num_frac := f; num_exp := e;
              num_rest := s3 |}
  end.

Definition sign_text (neg : bool) : str := if neg then [MINUS] else [].

(** [int(integer)], or [float(integer + frac + exp)] *)
Definition number_value (m : number_match) : value :=
  match num_frac m, num_exp m with
  | [], [] =>
      let n := Z.of_N (nat_of_digits (num_int m)) in
      PyInt (if num_neg m then (- n)%Z else n)
  | _, _ => PyFloat (FDec (num_neg m) (num_int m) (num_frac m) (num_exp m))
  end.

Definition hex_value (c : char) : option N :=
  if is_digit c then Some (c - 48)
  else if (97 <=? c) && (c <=? 102) then Some (c - 87)
  else if (65 <=? c) && (c <=? 70) then Some (c - 55)
  else None.

(** [_decode_uXXXX]: four hexadecimal digits *)
Definition hex4 (a b c d : char) : option N :=
  match hex_value a, hex_value b, hex_value c, hex_value d with
  | Some x, Some y, Some z, Some w => Some (((x * 16 + y) * 16 + z) * 16 + w)
  | _, _, _, _ => None
  end.

(** The table [BACKSLASH] of one-letter escapes *)
Definition unescape (e : char) : option char :=
  if e =? 34 then Some 34
  else if e =? 92 then Some 92
  else if e =? 47 then Some 47
  else if e =? 98 then Some 8
  else if e =? 102 then Some 12
  else if e =? 110 then Some 10
  else if e =? 114 then Some 13
  else if e =? 116 then Some 9
  else None.

Definition is_high_surrogate (u : N) : bool := (0xD800 <=? u) && (u <=? 0xDBFF).
Definition is_low_surrogate (u : N) : bool := (0xDC00 <=? u) && (u <=? 0xDFFF).

Definition join_surrogates (hi lo : N) : N :=
  0x10000 + N.lor (N.shiftl (hi - 0xD800) 10) (lo - 0xDC00).

Definition cons_fst {A B : Type} (a : A) (r : option (list A * B))
    : option (list A * B) :=
  match r with
  | Some (l, b) => Some (a :: l, b)
  | None => None
  end.

(** [scanstring(s, end, strict=True)], [s] starting after the opening
    quote: the decoded text and what follows the closing quote. *)
Fixpoint scanstring (s : str) : option (str * str) :=
  match s with
  | [] => None
  | c :: s1 =>
      if c =? DQUOTE then Some ([], s1)
      else if c =? BACKSLASH then
        match s1 with
        | [] => None
        | e :: s2 =>
            if e =? 117 then
              match s2 with
              | h1 :: h2 :: h3 :: h4 :: s6 =>
                  match hex4 h1 h2 h3 h4 with
                  | None => None
                  | Some uni =>
                      if is_high_surrogate uni then
                        match s6 with
                        | b :: u :: g1 :: g2 :: g3 :: g4 :: s12 =>
                            if (b =? BACKSLASH) && (u =? 117) then
                              match hex4 g1 g2 g3 g4 with
                              | None => None
                              | Some uni2 =>
                                  if is_low_surrogate uni2
                                  then cons_fst (join_surrogates uni uni2)
                                         (scanstring s12)
                                  else cons_fst uni (scanstring s6)
                              end
                            else cons_fst uni (scanstring s6)
                        | _ => cons_fst uni (scanstring s6)
                        end
                      else cons_fst uni (scanstring s6)
                  end
              | _ => None
              end
            else
              match unescape e with
              | Some ch => cons_fst ch (scanstring s2)
              | None => None
              end
        end
      else if c <? 0x20 then None
      else cons_fst c (scanstring s1)
  end.

Definition try_keyword (kw : str) (v : value) (s : str) (otherwise : scan value)
    : scan value :=
  match eat kw s with
  | Some rest => Scanned v rest
  | None => otherwise
  end.

(** The scalars of [_scan_once] that do not start with a quote, a bracket
    or a brace *)
Definition scan_scalar (s : str) : scan value :=
  try_keyword (lit "null") PyNone s (
  try_keyword (lit "true") (PyBool true) s (
  try_keyword (lit "false") (PyBool false) s (
  match match_number s with
  | Some m => Scanned (number_value m) (num_rest m)
  | None =>
      try_keyword (lit "NaN") (PyFloat FNan) s (
      try_keyword (lit "Infinity") (PyFloat (FInf false)) s (
      try_keyword (lit "-Infinity") (PyFloat (FInf true)) s NoScan))
  end))).

(** [_scan_once], [JSONArray] after the first element is known to exist and
    [JSONObject] after the first key is known to exist.  Each call spends
    one unit of [fuel]. *)
Fixpoint scan_once (fuel : nat) (s : str) {struct fuel} : scan value :=
  match fuel with
  | O => OutOfFuel
  | S fuel' =>
      match s with
      | [] => NoScan
      | c :: s' =>
          if c =? DQUOTE then
            match scanstring s' with
            | Some (text, rest) => Scanned (PyStr text) rest
            | None => NoScan
            end
          else if c =? LBRACE then
            match skip_ws s' with
            | [] => NoScan
            | c1 :: r1 =>
                if c1 =? RBRACE then Scanned (PyDict []) r1
                else
                  match scan_members fuel' (c1 :: r1) with
                  | Scanned pairs rest => Scanned (PyDict (dict_of_pairs pairs)) rest
                  | NoScan => NoScan
                  | OutOfFuel => OutOfFuel
                  end
            end
          else if c =? LBRACKET then
            match skip_ws s' with
            | [] => NoScan
            | c1 :: r1 =>
                if c1 =? RBRACKET then Scanned (PyList []) r1
                else
                  match scan_elements fuel' (c1 :: r1) with
                  | Scanned values rest => Scanned (PyList values) rest
                  | NoScan => NoScan
                  | OutOfFuel => OutOfFuel
                  end
            end
          else scan_scalar s
      end
  end

with scan_elements (fuel : nat) (s : str) {struct fuel} : scan (list value) :=
  match fuel with
  | O => OutOfFuel
  | S fuel' =>
      match scan_once fuel' s with
      | Scanned v r =>
          match skip_ws r with
          | [] => NoScan
          | c :: r1 =>
              if c =? RBRACKET then Scanned [v] r1
              else if c =? COMMA then
                match scan_elements fuel' (skip_ws r1) with
                | Scanned vs r2 => Scanned (v :: vs) r2
                | NoScan => NoScan
                | OutOfFuel => OutOfFuel
                end
              else NoScan
          end
      | NoScan => NoScan
      | OutOfFuel => OutOfFuel
      end
  end

with scan_members (fuel : nat) (s : str) {struct fuel}
    : scan (list (value * value)) :=
  match fuel with
  | O => OutOfFuel
  | S fuel' =>
      match s with
      | [] => NoScan
      | q :: s1 =>
          if q =? DQUOTE then
            match scanstring s1 with
            | None => NoScan
            | Some (key, r1) =>
                match skip_ws r1 with
                | [] => NoScan
                | col :: r2 =>
                    if col =? COLON then
                      match scan_once fuel' (skip_ws r2) with
                      | Scanned v r3 =>
                          match skip_ws r3 with
                          | [] => NoScan
                          | c :: r4 =>
                              if c =? RBRACE then Scanned [(PyStr key, v)] r4
                              else if c =? COMMA then
                                match scan_members fuel' (skip_ws r4) with
                                | Scanned ps r5 => Scanned ((PyStr key, v) :: ps) r5
                                | NoScan => NoScan
                                | OutOfFuel => OutOfFuel
                                end
                              else NoScan
                          end
                      | NoScan => NoScan
                      | OutOfFuel => OutOfFuel
                      end
                    else NoScan
                end
            end
          else NoScan
      end
  end.

(** Two units of fuel for every character are enough for every input
    ([scan_once_fuel] below). *)
Definition fuel_for (s : str) : nat := S (2 * length s).

(** [json.loads(s)] for a [str]: no byte order mark, one value between
    optional whitespace, nothing after it. *)
Definition loads (s : str) : result value :=
  if startswith s [0xFEFF] then Raise JSONDecodeError
  else
    match scan_once (fuel_for s) (skip_ws s) with
    | Scanned v rest =>
        match skip_ws rest with
        | [] => Return v
        | _ :: _ => Raise JSONDecodeError
        end
    | NoScan | OutOfFuel => Raise JSONDecodeError
    end.

(** ** [json.dumps]

    The encoder with its default options: [ensure_ascii], [allow_nan], the
    separators [", "] and [": "], keys in the order of the dictionary. *)

Fixpoint digits_of_uint (u : Decimal.uint) : str :=
  match u with
  | Decimal.Nil => []
  | Decimal.D0 u' => 48 :: digits_of_uint u'
  | Decimal.D1 u' => 49 :: digits_of_uint u'
  | Decimal.D2 u' => 50 :: digits_of_uint u'
  | Decimal.D3 u' => 51 :: digits_of_uint u'
  | Decimal.D4 u' => 52 :: digits_of_uint u'
  | Decimal.D5 u' => 53 :: digits_of_uint u'
  | Decimal.D6 u' => 54 :: digits_of_uint u'
  | Decimal.D7 u' => 55 :: digits_of_uint u'
  | Decimal.D8 u' => 56 :: digits_of_uint u'
  | Decimal.D9 u' => 57 :: digits_of_uint u'
  end.

(** [int.__repr__] *)
Definition int_text (z : Z) : str :=
  sign_text (z <? 0)%Z ++ digits_of_uint (N.to_uint (Z.abs_N z)).

(** [float.__repr__], with the names the encoder gives to the values that
    are not finite *)
Definition float_text (f : pyfloat) : str :=
  match f with
  | FNan => lit "NaN"
  | FInf false => lit "Infinity"
  | FInf true => lit "-Infinity"
  | FDec neg i fr e => sign_text neg ++ i ++ fr ++ e
  end.

Definition hex_digit (n : N) : char := if n <? 10 then 48 + n else 87 + n.

(** The escape of a code unit, backslash, [u] and four hexadecimal digits *)
Definition u_escape (n : N) : str :=
  [BACKSLASH; 117; hex_digit (n / 4096 mod 16); hex_digit (n / 256 mod 16);
   hex_digit (n / 16 mod 16); hex_digit (n mod 16)].

(** The replacement of one character by [py_encode_basestring_ascii] *)
Definition escape_char (c : char) : str :=
  if c =? 92 then [92; 92]
  else if c =? 34 then [92; 34]
  else if c =? 8 then [92; 98]
  else if c =? 12 then [92; 102]
  else if c =? 10 then [92; 110]
  else if c =? 13 then [92; 114]
  else if c =? 9 then [92; 116]
  else if (0x20 <=? c) && (c <=? 0x7E) then [c]
  else if c <? 0x10000 then u_escape c
  else
    let n := c - 0x10000 in
    u_escape (N.lor 0xD800 (N.land (N.shiftr n 10) 0x3FF))
    ++ u_escape (N.lor 0xDC00 (N.land n 0x3FF)).

Definition encode_basestring_ascii (s : str) : str :=
  DQUOTE :: flat_map escape_char s ++ [DQUOTE].

(** The text of a dictionary key: a [str] as it is, the other scalars as
    the encoder spells them *)
Definition key_text (k : value) : result str :=
  match k with
  | PyStr s => Return s
  | PyNone => Return (lit "null")
  | PyBool true => Return (lit "true")
  | PyBool false => Return (lit "false")
  | PyInt z => Return (int_text z)
  | PyFloat f => Return (float_text f)
  | PyList _ | PyDict _ | PySet _ => Raise TypeError
  end.

Fixpoint encode (v : value) : result str :=
  match v with
  | PyNone => Return (lit "null")
  | PyBool true => Return (lit "true")
  | PyBool false => Return (lit "false")
  | PyInt z => Return (int_text z)
  | PyFloat f => Return (float_text f)
  | PyStr s => Return (encode_basestring_ascii s)
  | PyList [] => Return (lit "[]")
  | PyList (x :: xs) =>
      first <- encode x ;;
      more <- (fix items (l : list value) : result str :=
                 match l with
                 | [] => Return [RBRACKET]
                 | y :: l' =>
                     t <- encode y ;;
                     r <- items l' ;;
                     Return (lit ", " ++ t ++ r)
                 end) xs ;;
      Return (LBRACKET :: first ++ more)
  | PyDict [] => Return (lit "{}")
  | PyDict ((k, x) :: ps) =>
      key <- key_text k ;;
      first <- encode x ;;
      more <- (fix members (l : list (value * value)) : result str :=
                 match l with
                 | [] => Return [RBRACE]
                 | (k', y) :: l' =>
                     key' <- key_text k' ;;
                     t <- encode y ;;
                     r <- members l' ;;
                     Return (lit ", " ++ encode_basestring_ascii key'
                                 ++ lit ": " ++ t ++ r)
                 end) ps ;;
      Return (LBRACE :: encode_basestring_ascii key ++ lit ": " ++ first
                     ++ more)
  | PySet _ => Raise TypeError
  end.

(** [json.dumps(v)] *)
Definition dumps (v : value) : result str := encode v.

End json.

(** ** [ast.literal_eval]

    A fragment of Python's literal syntax: [None], [True], [False], decimal
    integers with an optional minus sign directly in front, strings in
    single or double quotes without backslash or line break, and lists,
    sets and dictionaries of these, with blanks between tokens and an
    optional trailing comma.  The text is first parsed into a tree
    ([ast.parse], any failure a [SyntaxError]) and the tree is then
    converted ([_convert]); building a set or a dictionary hashes the
    elements or keys, which raises [TypeError] for a list, a set or a
    dictionary.  Text outside the fragment is answered with [SyntaxError]
    here, which is Python's answer for prose but not for every text (tuples,
    floats, escapes, adjacent strings, a sign apart from its digits, text
    that starts with a line break): the general results below take
    [literal_eval] as a parameter and do not depend on this model, and the
    closed evaluations use texts on which it agrees with Python.  The
    interpreter's limits on recursion depth and memory are not modelled. *)
Module ast.

Inductive node : Type :=
| Constant (v : value)
| List (elts : list node)
| Set_ (elts : list node)
| Dict (items : list (node * node)).

Definition is_blank (c : char) : bool :=
  (c =? 32) || (c =? 9) || (c =? 10) || (c =? 13) || (c =? 12).

Definition skip_blank : str -> str := lstrip_by is_blank.

Definition SQUOTE : char := 39.

(** The body of a string literal opened by the quote [q] *)
Fixpoint scan_quoted (q : char) (s : str) : option (str * str) :=
  match s with
  | [] => None
  | c :: s' =>
      if c =? q then Some ([], s')
      else if (c =? BACKSLASH) || (c =? 10) || (c =? 13) then None
      else json.cons_fst c (scan_quoted q s')
  end.

Definition parse_scalar (s : str) : scan node :=
  match s with
  | [] => NoScan
  | c :: s' =>
      if (c =? SQUOTE) || (c =? DQUOTE) then
        match scan_quoted c s' with
        | Some (text, rest) => Scanned (Constant (PyStr text)) rest
        | None => NoScan
        end
      else
        match eat (lit "None") s, eat (lit "True") s, eat (lit "False") s with
        | Some rest, _, _ => Scanned (Constant PyNone) rest
        | _, Some rest, _ => Scanned (Constant (PyBool true)) rest
        | _, _, Some rest => Scanned (Constant (PyBool false)) rest
        | None, None, None =>
            match json.match_number s with
            | Some m =>
                let n := Z.of_N (nat_of_digits (json.num_int m)) in
                Scanned (Constant (PyInt (if json.num_neg m then (- n)%Z else n)))
                        (json.num_frac m ++ json.num_exp m ++ json.num_rest m)
            | None => NoScan
            end
        end
  end.

Fixpoint parse_expr (fuel : nat) (s : str) {struct fuel} : scan node :=
  match fuel with
  | O => OutOfFuel
  | S fuel' =>
      match s with
      | [] => NoScan
      | c :: s' =>
          if c =? LBRACKET then
            match parse_seq fuel' RBRACKET (skip_blank s') with
            | Scanned es rest => Scanned (List es) rest
            | NoScan => NoScan
            | OutOfFuel => OutOfFuel
            end
          else if c =? LBRACE then
            match skip_blank s' with
            | [] => NoScan
            | c1 :: r1 =>
                if c1 =? RBRACE then Scanned (Dict []) r1
                else
                  match parse_expr fuel' (c1 :: r1) with
                  | Scanned e1 r2 =>
                      match skip_blank r2 with
                      | [] => NoScan
                      | d :: r3 =>
                          if d =? COLON then
                            match parse_expr fuel' (skip_blank r3) with
                            | Scanned v1 r4 =>
                                match skip_blank r4 with
                                | [] => NoScan
                                | d' :: r5 =>
                                    if d' =? RBRACE
                                    then Scanned (Dict [(e1, v1)]) r5
                                    else if d' =? COMMA then
                                      match parse_pairs fuel' (skip_blank r5) with
                                      | Scanned ps r6 => Scanned (Dict ((e1, v1) :: ps)) r6
                                      | NoScan => NoScan
                                      | OutOfFuel => OutOfFuel
                                      end
                                    else NoScan
                                end
                            | NoScan => NoScan
                            | OutOfFuel => OutOfFuel
                            end
                          else if d =? RBRACE then Scanned (Set_ [e1]) r3
                          else if d =? COMMA then
                            match parse_seq fuel' RBRACE (skip_blank r3) with
                            | Scanned es r4 => Scanned (Set_ (e1 :: es)) r4
                            | NoScan => NoScan
                            | OutOfFuel => OutOfFuel
                            end
                          else NoScan
                      end
                  | NoScan => NoScan
                  | OutOfFuel => OutOfFuel
                  end
            end
          else parse_scalar s
      end
  end

(** Expressions separated by commas up to [close], from the start of an
    expression or from [close] itself *)
with parse_seq (fuel : nat) (close : char) (s : str) {struct fuel}
    : scan (list node) :=
  match fuel with
  | O => OutOfFuel
  | S fuel' =>
      match s with
      | [] => NoScan
      | c :: r =>
          if c =? close then Scanned [] r
          else
            match parse_expr fuel' s with
            | Scanned e r1 =>
                match skip_blank r1 with
                | [] => NoScan
                | d :: r2 =>
                    if d =? close then Scanned [e] r2
                    else if d =? COMMA then
                      match parse_seq fuel' close (skip_blank r2) with
                      | Scanned es r3 => Scanned (e :: es) r3
                      | NoScan => NoScan
                      | OutOfFuel => OutOfFuel
                      end
                    else NoScan
                end
            | NoScan => NoScan
            | OutOfFuel => OutOfFuel
            end
      end
  end

(** [key: value] pairs separated by commas up to the closing brace *)
with parse_pairs (fuel : nat) (s : str) {struct fuel}
    : scan (list (node * node)) :=
  match fuel with
  | O => OutOfFuel
  | S fuel' =>
      match s with
      | [] => NoScan
      | c :: r =>
          if c =? RBRACE then Scanned [] r
          else
            match parse_expr fuel' s with
            | Scanned k r1 =>
                match skip_blank r1 with
                | [] => NoScan
                | d :: r2 =>
                    if d =? COLON then
                      match parse_expr fuel' (skip_blank r2) with
                      | Scanned v r3 =>
                          match skip_blank r3 with
                          | [] => NoScan
                          | d' :: r4 =>
                              if d' =? RBRACE then Scanned [(k, v)] r4
                              else if d' =? COMMA then
                                match parse_pairs fuel' (skip_blank r4) with
                                | Scanned ps r5 => Scanned ((k, v) :: ps) r5
                                | NoScan => NoScan
                                | OutOfFuel => OutOfFuel
                                end
                              else NoScan
                          end
                      | NoScan => NoScan
                      | OutOfFuel => OutOfFuel
                      end
                    else NoScan
                end
            | NoScan => NoScan
            | OutOfFuel => OutOfFuel
            end
      end
  end.

(** [hash(v)] succeeds *)
Definition hashable (v : value) : bool :=
  match v with
  | PyList _ | PyDict _ | PySet _ => false
  | _ => true
  end.

(** [s.add(v)] *)
Definition set_add (elts : list value) (v : value) : list value :=
  if existsb (fun e => key_eqb e v) elts then elts else elts ++ [v].

(** [_convert] *)
Fixpoint convert (n : node) : result value :=
  match n with
  | Constant v => Return v
  | List elts =>
      vs <- (fix items (l : list node) : result (list value) :=
               match l with
               | [] => Return []
               | e :: l' => v <- convert e ;; vs <- items l' ;; Return (v :: vs)
               end) elts ;;
      Return (PyList vs)
  | Set_ elts =>
      (fix add (l : list node) (acc : list value) : result value :=
         match l with
         | [] => Return (PySet acc)
         | e :: l' =>
             v <- convert e ;;
             if hashable v then add l' (set_add acc v) else Raise TypeError
         end) elts []
  | Dict pairs =>
      (fix put (l : list (node * node)) (acc : list (value * value))
           : result value :=
         match l with
         | [] => Return (PyDict acc)
         | (k, v) :: l' =>
             key <- convert k ;;
             val <- convert v ;;
             if hashable key then put l' (dict_set acc key val)
             else Raise TypeError
         end) pairs []
  end.

(** Two units of fuel for every character are enough for every input
    ([parse_expr_fuel] below). *)
Definition fuel_for (s : str) : nat := S (2 * length s).

(** Source text can be compiled: it holds no surrogate code point, which
    cannot be encoded ([UnicodeEncodeError], a [ValueError]), and no null
    character. *)
Definition compilable (c : char) : bool :=
  negb (c =? 0) && ((c <? 0xD800) || ((0xE000 <=? c) && (c <=? 0x10FFFF))).

(** [ast.literal_eval(s)] for a [str] *)
Definition literal_eval (s : str) : result value :=
  let src := lstrip_by (fun c => (c =? 32) || (c =? 9)) s in
  if negb (forallb compilable src) then Raise ValueError
  else
    match parse_expr (fuel_for src) src with
    | Scanned n rest =>
        match skip_blank rest with
        | [] => convert n
        | _ :: _ => Raise SyntaxError
        end
    | NoScan | OutOfFuel => Raise SyntaxError
    end.

End ast.

(** ** Truth values *)

Definition exponent_value (e : str) : Z :=
  match e with
  | _ :: c :: ds =>
      if c =? 45 then (- Z.of_N (nat_of_digits ds))%Z
      else if c =? 43 then Z.of_N (nat_of_digits ds)
      else Z.of_N (nat_of_digits (c :: ds))
  | _ => 0%Z
  end.

(** [float(text) == 0.0]: the decimal is zero, or so small that it
    rounds to zero, which is at most [2^-1075] in magnitude. *)
Definition float_is_zero (integer fraction exponent : str) : bool :=
  let frac_digits := tl fraction in
  let mant := Z.of_N (nat_of_digits (integer ++ frac_digits)) in
  let e10 := (exponent_value exponent - Z.of_nat (length frac_digits))%Z in
  (mant =? 0)%Z || ((e10 <? 0)%Z && (mant * 2 ^ 1075 <=? 10 ^ (- e10))%Z).

(** [bool(v)] *)
Definition truthy (v : value) : bool :=
  match v with
  | PyNone => false
  | PyBool b => b
  | PyInt z => negb (z =? 0)%Z
  | PyFloat FNan | PyFloat (FInf _) => true
  | PyFloat (FDec _ i f e) => negb (float_is_zero i f e)
  | PyStr s => match s with [] => false | _ :: _ => true end
  | PyList l | PySet l => match l with [] => false | _ :: _ => true end
  | PyDict d => match d with [] => false | _ :: _ => true end
  end.

(** [obj.get(key)]: only a [dict] has the method *)
Definition py_get (obj : value) (key : str) : result value :=
  match obj with
  | PyDict d => Return (dict_get d (PyStr key))
  | _ => Raise AttributeError
  end.

(** [isinstance(v, (dict, list))] *)
Definition is_dict_or_list (v : value) : bool :=
  match v with
  | PyDict _ | PyList _ => true
  | _ => false
  end.

(** ** agent_core.py: [ReActOutputParser.parse] *)

(** [AgentAction(tool, tool_input, log)] and
    [AgentFinish(return_values={"output": output}, log)], as records of
    the values they are given: the classes are the framework's, and what
    it checks about the types of the fields is not modelled. *)
Inductive decision : Type :=
| AgentAction (tool tool_input : value) (log : str)
| AgentFinish (output : str) (log : str).

Definition FINAL_ANSWER : str := lit "Final Answer:".

Section Parser.

Variable json_loads : str -> result value.

(** The [print] calls only trace; they are left out. *)
Definition parse (text : str) : result decision :=
  if contains FINAL_ANSWER text then
    let final_answer := strip (last (split FINAL_ANSWER text) []) in
    Return (AgentFinish final_answer text)
  else
    match re.search match_action text with
    | Some group1 =>
        let json_str := strip group1 in
        try_except
          (action_dict <- json_loads json_str ;;
           action <- py_get action_dict (lit "action") ;;
           action_input <- py_get action_dict (lit "action_input") ;;
           if truthy action && negb (is_none action_input)
           then Return (AgentAction action action_input text)
           else Raise ValueError)
          [ ([JSONDecodeError], Return (AgentFinish (strip text) text));
            ([ValueError], Return (AgentFinish (strip text) text)) ]
    | None => Return (AgentFinish (strip text) text)
    end.

End Parser.

(** ** main.py: [_try_extract_json_from_text] and [run_query] *)

Definition BACKQUOTE : char := 96.

Definition patterns : list (str -> option str) :=
  [ match_span LBRACKET RBRACKET;  (* array *)
    match_span LBRACE RBRACE ].    (* object *)

Section Recoverer.

Variable json_loads : str -> result value.
Variable literal_eval : str -> result value.

(** The [for pat in patterns] loop and the final [return None] *)
Fixpoint extract_by_patterns (pats : list (str -> option str)) (s : str)
    : result value :=
  match pats with
  | [] => Return PyNone
  | pat :: pats' =>
      match re.search pat s with
      | Some group1 =>
          let candidate := strip_chars [BACKQUOTE] (strip group1) in
          match json_loads candidate with
          | Return v => Return v
          | Raise _ =>
              match literal_eval candidate with
              | Return v => Return v
              | Raise _ => extract_by_patterns pats' s
              end
          end
      | None => extract_by_patterns pats' s
      end
  end.

(** The second [try] statement and what follows it *)
Definition extract_relaxed (s s_strip : str) : result value :=
  match literal_eval s_strip with
  | Return candidate =>
      if is_dict_or_list candidate then Return candidate
      else extract_by_patterns patterns s
  | Raise e =>
      if caught e [ValueError; SyntaxError]
      then extract_by_patterns patterns s
      else Raise e
  end.

Definition _try_extract_json_from_text (s : value) : result value :=
  match s with
  | PyStr s =>
      let s_strip := strip s in
      match json_loads s_strip with
      | Return v => Return v
      | Raise e =>
          if caught e [JSONDecodeError; TypeError]
          then extract_relaxed s s_strip
          else Raise e
      end
  | _ => Return PyNone
  end.

(** [run_query] from [if isinstance(output_raw, str):] on: the content
    handed to [JSONResponse]. *)
Definition run_query_content (output_raw : str) : result value :=
  parsed <- _try_extract_json_from_text (PyStr output_raw) ;;
  if negb (is_none parsed) then Return parsed
  else Return (PyDict [(PyStr (lit "output"), PyStr output_raw)]).

End Recoverer.

(** ** Vocabulary of the statements *)

(** The last occurrence of [sep] in [s]: [sep] does not occur again from
    any position to the right of the one after [before]. *)
Definition last_occurrence (sep s before after : str) : Prop :=
  s = before ++ sep ++ after /\ contains sep (tl (sep ++ after)) = false.

(** A separator that cannot overlap a shifted copy of itself *)
Definition unbordered (sep : str) : Prop :=
  forall rest, contains sep rest = false ->
               contains sep (tl (sep ++ rest)) = false.





(** The span that a search of [s] for the bracket pattern finds: from
    the first opening character to the first closing character after it. *)
Definition first_span (o c : char) (s span : str) : Prop :=
  exists before mid after,
    s = before ++ o :: mid ++ c :: after /\ span = o :: mid ++ [c] /\
    ~ In o before /\ ~ In c mid.


(** *** JSON values

    The Python values that stand for JSON values: [None], [bool], [int],
    finite [float], [str] made of Unicode scalar values, lists of such
    values and dictionaries from distinct [str] keys to such values. *)






(** A code point that is not a surrogate *)
Definition is_scalar_value (c : char) : bool :=
  (c <? 0xD800) || ((0xE000 <=? c) && (c <=? 0x10FFFF)).

Definition is_text (s : str) : bool := forallb is_scalar_value s.



(** The first character of [s], if there is one, satisfies [p] *)
Definition head_ok (p : char -> bool) (s : str) : bool :=
  match s with
  | [] => true
  | c :: _ => p c
  end.







(** A scan of [s] that did not run out of fuel and, when it found
    something, consumed at least one character *)
Definition fueled {A : Type} (r : scan A) (s : str) : Prop :=
  r <> OutOfFuel /\
  forall a rest, r = Scanned a rest -> (length rest < length s)%nat.

(** [k in d] for a [str] key *)
Definition has_key (d : list (value * value)) (k : str) : bool :=
  existsb (fun kv => key_eqb (fst kv) (PyStr k)) d.

(** ** Sample utterances and answers *)

Definition quoted (s : string) : str := DQUOTE :: lit s ++ [DQUOTE].
Definition NL : str := [10].

(** [Action:], a line break, the [json] fence around [content], each on a
    line of its own *)
Definition action_text (content : str) : str :=
  lit "Action:" ++ NL ++ lit "```json" ++ NL ++ content ++ NL ++ lit "```" ++ NL.

Definition EXAMPLE_ACTION : str :=
  action_text (lit "{" ++ quoted "action" ++ lit ": " ++ quoted "PythonREPL"
               ++ lit ", " ++ quoted "action_input" ++ lit ": "
               ++ quoted "print(1)" ++ lit "}").




Definition EXAMPLE_EMPTY_INPUT : str :=
  action_text (lit "{" ++ quoted "action" ++ lit ": " ++ quoted "X"
               ++ lit ", " ++ quoted "action_input" ++ lit ": "
               ++ [DQUOTE; DQUOTE] ++ lit "}").


Definition EXAMPLE_NON_OBJECT : str := action_text (lit "[1]").

Definition EXAMPLE_ACTION_THEN_FINAL : str :=
  EXAMPLE_ACTION ++ lit "Final Answer: one Final Answer:  42 ".

Definition ARRAY_PATTERN : str -> option str := match_span LBRACKET RBRACKET.
Definition OBJECT_PATTERN : str -> option str := match_span LBRACE RBRACE.

Definition ANSWER_PLAIN : str := lit "The result is 42".
Definition ANSWER_SET : str := lit "{1, 2}".
Definition ANSWER_UNHASHABLE : str := lit "{[]}".
Definition ANSWER_PROSE_LITERAL : str :=
  lit "Here is your answer: {'a': 1, 'b': [1,2,3]}".
Definition ANSWER_BAD_ARRAY_THEN_OBJECT : str :=
  lit "[x] {" ++ quoted "a" ++ lit ": 1}".


(** * The service around the two interpreters

    The reply of the model endpoint ([ChatAIProxy._call], chat_proxy.py),
    the upload form ([_extract_question_and_files], main.py) and the run of
    the agent ([handle_query], agent_core.py), with the library functions
    they call. *)

(** ** More of [str] *)

(** [s.endswith(p)] *)
Definition endswith (s p : str) : bool := startswith (rev s) (rev p).

(** [s.replace(old, new)]: a left to right scan that replaces every
    occurrence of [old] not overlapping the previous one; an empty [old]
    occurs before every character and at the end.  [skip] counts the
    characters of the occurrence still to pass. *)
Fixpoint replace_go (old new : str) (skip : nat) (s : str) : str :=
  match s with
  | [] => []
  | c :: s' =>
      match skip with
      | S k => replace_go old new k s'
      | O =>
          if startswith s old
          then new ++ replace_go old new (pred (length old)) s'
          else c :: replace_go old new 0 s'
      end
  end.

Definition replace (old new s : str) : str :=
  match old with
  | [] => new ++ flat_map (fun c => c :: new) s
  | _ :: _ => replace_go old new 0 s
  end.

(** [s in names] for a set of strings *)
Definition str_in (s : str) (names : list str) : bool :=
  existsb (str_eqb s) names.

(** [d[k] = v] for a dictionary with [str] keys *)
Fixpoint assoc_set {V : Type} (d : list (str * V)) (k : str) (v : V)
    : list (str * V) :=
  match d with
  | [] => [(k, v)]
  | (k', v') :: d' =>
      if str_eqb k' k then (k', v) :: d' else (k', v') :: assoc_set d' k v
  end.

(** [bool(x)] for an optional string: neither [None] nor empty *)
Definition nonempty (x : option str) : bool :=
  match x with
  | Some (_ :: _) => true
  | _ => false
  end.

(** ** [bytes.decode("utf-8")]

    The strict decoder: the shortest form of every code point, no
    surrogate, nothing above [0x10FFFF].  [None] stands for
    [UnicodeDecodeError]. *)
Module utf8.

Definition between (lo hi b : N) : bool := (lo <=? b) && (b <=? hi).

Definition continuation (b : N) : bool := between 0x80 0xBF b.

Fixpoint decode_units (bs : list N) : option str :=
  match bs with
  | [] => Some []
  | b0 :: r0 =>
      if b0 <? 0x80 then option_map (cons b0) (decode_units r0)
      else if between 0xC2 0xDF b0 then
        match r0 with
        | b1 :: r1 =>
            if continuation b1
            then option_map (cons ((b0 - 0xC0) * 64 + (b1 - 0x80)))
                            (decode_units r1)
            else None
        | [] => None
        end
      else if between 0xE0 0xEF b0 then
        match r0 with
        | b1 :: b2 :: r2 =>
            if between (if b0 =? 0xE0 then 0xA0 else 0x80)
                       (if b0 =? 0xED then 0x9F else 0xBF) b1
               && continuation b2
            then option_map
                   (cons ((b0 - 0xE0) * 4096 + (b1 - 0x80) * 64 + (b2 - 0x80)))
                   (decode_units r2)
            else None
        | _ => None
        end
      else if between 0xF0 0xF4 b0 then
        match r0 with
        | b1 :: b2 :: b3 :: r3 =>
            if between (if b0 =? 0xF0 then 0x90 else 0x80)
                       (if b0 =? 0xF4 then 0x8F else 0xBF) b1
               && continuation b2 && continuation b3
            then option_map
                   (cons ((b0 - 0xF0) * 262144 + (b1 - 0x80) * 4096
                          + (b2 - 0x80) * 64 + (b3 - 0x80)))
                   (decode_units r3)
            else None
        | _ => None
        end
      else None
  end.

Definition decode (raw : list Byte.byte) : option str :=
  decode_units (map Byte.to_N raw).

End utf8.

(** ** Outcomes

    What a call comes to: the value it returns or the exception it
    raises, for the exceptions [E] of the code at hand. *)
Inductive outcome (E A : Type) : Type :=
| Returned (a : A)
| Raised (e : E).
Arguments Returned {E A} a.
Arguments Raised {E A} e.

Definition and_then {E A B : Type} (r : outcome E A) (k : A -> outcome E B)
    : outcome E B :=
  match r with
  | Returned a => k a
  | Raised e => Raised e
  end.

Notation "x <~ r ;; k" := (and_then r (fun x => k))
  (at level 61, r at next level, right associativity).

(** ** chat_proxy.py: [ChatAIProxy] *)

Module chat_proxy.

(** The exceptions of [_call]: [RuntimeError], which it raises itself,
    [KeyError] and [IndexError] of a subscript, and the classes of the
    first part.  The messages, which format the reply, are not modelled. *)
Inductive error : Type :=
| RuntimeError
| KeyError
| IndexError
| Builtin (e : exn).

(** [_convert_role(message)], from [message.type] *)
Definition _convert_role (message_type : str) : str :=
  if str_eqb message_type (lit "human") then lit "user"
  else if str_eqb message_type (lit "ai") then lit "assistant"
  else message_type.

(** The [messages] of the request: one object for each message, given by
    its [type] and its [content] *)
Definition request_messages (messages : list (str * value)) : value :=
  PyList (map (fun m => PyDict [(PyStr (lit "role"),
                                 PyStr (_convert_role (fst m)));
                                (PyStr (lit "content"), snd m)])
              messages).

(** [key in obj] for a [str] key: a key of a dictionary, an element of a
    list or a set, a part of a string; the other values are not
    containers. *)
Definition py_in (key : str) (obj : value) : outcome error bool :=
  match obj with
  | PyDict d => Returned (has_key d key)
  | PyList l | PySet l =>
      Returned (existsb (fun x => key_eqb x (PyStr key)) l)
  | PyStr s => Returned (contains key s)
  | PyNone | PyBool _ | PyInt _ | PyFloat _ => Raised (Builtin TypeError)
  end.

(** [obj[key]] for a [str] key, which only a dictionary accepts *)
Definition getitem (obj : value) (key : str) : outcome error value :=
  match obj with
  | PyDict d =>
      if has_key d key then Returned (dict_get d (PyStr key))
      else Raised KeyError
  | _ => Raised (Builtin TypeError)
  end.

(** [k == 0] for a key of a dictionary *)
Definition is_zero (k : value) : bool :=
  match k with
  | PyInt z => (z =? 0)%Z
  | PyBool b => negb b
  | PyFloat (FDec _ i f e) => float_is_zero i f e
  | _ => false
  end.

Fixpoint lookup_zero (d : list (value * value)) : option value :=
  match d with
  | [] => None
  | (k, v) :: d' => if is_zero k then Some v else lookup_zero d'
  end.

(** [obj[0]]: the first element of a list, the first character of a
    string, the value at a key equal to [0] of a dictionary *)
Definition first (obj : value) : outcome error value :=
  match obj with
  | PyList (x :: _) => Returned x
  | PyStr (c :: _) => Returned (PyStr [c])
  | PyList [] | PyStr [] => Raised IndexError
  | PyDict d =>
      match lookup_zero d with
      | Some v => Returned v
      | None => Raised KeyError
      end
  | PyNone | PyBool _ | PyInt _ | PyFloat _ | PySet _ =>
      Raised (Builtin TypeError)
  end.

(** [obj.get(key, default)] *)
Definition get (obj : value) (key : str) (default : value) : outcome error value :=
  match obj with
  | PyDict d =>
      Returned (if has_key d key then dict_get d (PyStr key) else default)
  | _ => Raised (Builtin AttributeError)
  end.

Definition TOOL_CALLS : str := lit "tool_calls".

(** [a == b] for a value and a string *)
Definition equals_str (a : value) (b : str) : bool :=
  match a with
  | PyStr s => str_eqb s b
  | _ => false
  end.

(** [_call] from the reply of the endpoint on: [status_code] is
    [response.status_code] and [data] is [response.json()].  The message of
    the first [RuntimeError] reads [data.get('error', data)] before the
    exception is raised. *)
Definition _call (status_code : Z) (data : value) : outcome error value :=
  if negb (status_code =? 200)%Z then
    _ <~ get data (lit "error") data ;;
    Raised RuntimeError
  else
    present <~ py_in (lit "choices") data ;;
    missing <~ (if negb present then Returned true
                else choices <~ getitem data (lit "choices") ;;
                     Returned (negb (truthy choices))) ;;
    if missing then Raised RuntimeError
    else
      choices <~ getitem data (lit "choices") ;;
      choice <~ first choices ;;
      message <~ get choice (lit "message") (PyDict []) ;;
      finish_reason <~ get choice (lit "finish_reason") PyNone ;;
      if equals_str finish_reason TOOL_CALLS then Raised RuntimeError
      else
        content <~ get message (lit "content") PyNone ;;
        if negb (truthy content) then Raised RuntimeError
        else Returned content.

End chat_proxy.

(** ** main.py: [_extract_question_and_files] *)

(** A file of the form, [starlette.datastructures.UploadFile]: the two
    attributes the code reads and the bytes that [read()] returns *)
Record UploadFile : Type := {
  filename : option str;
  content_type : option str;
  read : list Byte.byte
}.

(** A value of the form: a file or a plain field *)
Inductive form_value : Type :=
| File (value : UploadFile)
| Field (value : str).

(** An entry of [files]: the dictionary with the keys [filename],
    [content_type] and [bytes]; a key that is missing is [None] *)
Record file_info : Type := {
  info_filename : option str;
  info_content_type : option str;
  info_bytes : option (list Byte.byte)
}.

Definition preferred_field_names : list str :=
  [lit "questions.txt"; lit "question"; lit "questions"; lit "question.txt"].

Section Form.

(** [str.lower], which follows the Unicode character database *)
Variable lower : str -> str.

(** [field_name.strip().lower() in preferred_field_names] *)
Definition is_preferred (field_name : str) : bool :=
  str_in (lower (strip field_name)) preferred_field_names.

(** [raw.decode("utf-8").strip()] under a [try] whose handler keeps
    [question_text] as it was *)
Definition decoded_or (question_text : option str) (raw : list Byte.byte)
    : option str :=
  match utf8.decode raw with
  | Some text => Some (strip text)
  | None => question_text
  end.

(** The loop over [form.items()], which are the fields of the form with
    the last value given for each, with [question_text] and [files] as
    they stand; the [break] ends it.  Every exception raised here is a
    [ValueError]; its message is not modelled. *)
Fixpoint read_form (items : list (str * form_value))
    (question_text : option str) (files : list (str * file_info))
    : result (option str * list (str * file_info)) :=
  match items with
  | [] => Return (question_text, files)
  | (field_name, Field _) :: rest => read_form rest question_text files
  | (field_name, File value) :: rest =>
      let raw := read value in
      let files :=
        assoc_set files field_name
          {| info_filename := filename value;
             info_content_type := content_type value;
             info_bytes := Some raw |} in
      match raw with
      | [] => Raise ValueError
      | _ :: _ =>
          if is_preferred field_name then
            match utf8.decode raw with
            | Some text => Return (Some (strip text), files)
            | None => Raise ValueError
            end
          else if match question_text with None => true | Some _ => false end
                  && nonempty (filename value)
                  && match filename value with
                     | Some name => endswith (lower name) (lit ".txt")
                     | None => false
                     end
          then read_form rest (decoded_or question_text raw) files
          else if match question_text with None => true | Some _ => false end
                  && nonempty (content_type value)
                  && match content_type value with
                     | Some type => startswith type (lit "text")
                     | None => false
                     end
          then read_form rest (decoded_or question_text raw) files
          else read_form rest question_text files
      end
  end.

Definition _extract_question_and_files (form : list (str * form_value))
    : result (str * list (str * file_info)) :=
  r <- read_form form None [] ;;
  match fst r with
  | Some (c :: question_text) => Return (c :: question_text, snd r)
  | Some [] | None => Raise ValueError
  end.

End Form.

(** ** agent_core.py: [handle_query] *)

(** [os.path.join(a, b)] of [posixpath] *)
Module posixpath.

Definition join (a b : str) : str :=
  if startswith b (lit "/") then b
  else if match a with [] => true | _ :: _ => endswith a (lit "/") end
       then a ++ b
       else a ++ lit "/" ++ b.

End posixpath.

(** [://[^\s]+] anchored at the head of [s] *)
Definition match_url_rest (s : str) : option str :=
  match eat (lit "://") s with
  | Some r =>
      match takewhile (fun c => negb (isspace c)) r with
      | [] => None
      | c :: t => Some (lit "://" ++ c :: t)
      end
  | None => None
  end.

(** [(https?://[^\s]+)] anchored at the head of [s]; the result is
    [group(1)].  The optional [s] is tried first. *)
Definition match_url (s : str) : option str :=
  match eat (lit "http") s with
  | None => None
  | Some r =>
      match match eat (lit "s") r with
            | Some r' => match_url_rest r'
            | None => None
            end with
      | Some t => Some (lit "https" ++ t)
      | None => option_map (app (lit "http")) (match_url_rest r)
      end
  end.

(** Lines 65 to 70: [url_context] and [question] after them *)
Definition locate_url (question : str) : str * str :=
  match re.search match_url question with
  | Some extracted_url =>
      (lit "The relevant dataset is located at the following URL: "
         ++ extracted_url ++ NL,
       replace extracted_url extracted_url question)
  | None => ([], question)
  end.

Module agent.

(** An exception raised by the environment, by what the code observes of
    it: whether it is an instance of [Exception], and [str(e)] *)
Record thrown : Type := {
  class_name : str;
  is_Exception : bool;
  message : str
}.

(** The exceptions of [handle_query]: those of the environment, and the
    ones the code and [float] raise, with their messages *)
Inductive exception : Type :=
| Thrown (e : thrown)
| ValueError (message : str)
| Exception (message : str)
| UnboundLocalError.

(** The calls to the environment, in the order they are made *)
Inductive event : Type :=
| Write (path : str) (data : list Byte.byte)
| Invoke (input : str)
| Sleep (seconds : pyfloat)
| PathExists (path : str)
| Remove (path : str).

(** The environment answers each call knowing the calls made before it:
    [open(path, 'wb')] with [write], [agent_executor.invoke], [time.sleep],
    [os.path.exists] and [os.remove]. *)
Record environment : Type := {
  write_file : list event -> str -> list Byte.byte -> option thrown;
  invoke : list event -> str -> thrown + value;
  sleep : list event -> pyfloat -> option thrown;
  path_exists : list event -> str -> bool;
  remove : list event -> str -> option thrown
}.

(** A computation: from the calls made so far to the calls made after it
    and its outcome *)
Definition io (A : Type) : Type :=
  list event -> list event * outcome exception A.

Definition ret {A : Type} (a : A) : io A := fun h => (h, Returned a).

Definition raise {A : Type} (e : exception) : io A := fun h => (h, Raised e).

Definition seq {A B : Type} (m : io A) (k : A -> io B) : io B :=
  fun h =>
    match m h with
    | (h', Returned a) => k a h'
    | (h', Raised e) => (h', Raised e)
    end.

Notation "x <<- m ;; k" := (seq m (fun x => k))
  (at level 61, m at next level, right associativity).

Definition answered (r : option thrown) : outcome exception unit :=
  match r with
  | Some e => Raised (Thrown e)
  | None => Returned tt
  end.

Definition RATE_LIMIT : str := lit "rate_limit_exceeded".
Definition RETRY_AFTER : str := lit "Please try again in ".
Definition max_retries : nat := 3.

(** [1.0] *)
Definition ONE : pyfloat := FDec false (lit "1") (lit ".0") [].

(** [X+c] anchored at the head of [s], for a class [X] of characters: the
    longest run of [X], at least one, that [c] follows; the result is the
    run. *)
Fixpoint greedy_then (X : char -> bool) (c : char) (s : str) : option str :=
  match s with
  | [] => None
  | x :: s' =>
      if X x then
        match greedy_then X c s' with
        | Some run => Some (x :: run)
        | None =>
            match s' with
            | y :: _ => if y =? c then Some [x] else None
            | [] => None
            end
        end
      else None
  end.

Section Run.

(** [str.lower] *)
Variable lower : str -> str.

(** The value of a decimal digit, [None] for another character: the class
    [\d] of [re] on [str] patterns and the digits that [float] reads, both
    of which follow the Unicode character database *)
Variable decimal : char -> option N.

Variable env : environment.

Definition isdecimal (c : char) : bool :=
  match decimal c with
  | Some _ => true
  | None => false
  end.

(** [Please try again in ([\d.]+)s] anchored at the head of [s]; the
    result is [group(1)] *)
Definition match_wait (s : str) : option str :=
  match eat RETRY_AFTER s with
  | Some r => greedy_then (fun c => isdecimal c || (c =? 46)) 115 r
  | None => None
  end.

Definition ascii_digits (s : str) : str :=
  map (fun c => match decimal c with Some d => 48 + d | None => c end) s.

(** [float(text)] for a text of decimal digits and points, as the group of
    the pattern is: digits with at most one point among them.  [None]
    stands for [ValueError]. *)
Definition float_of (text : str) : option pyfloat :=
  let integer := takewhile isdecimal text in
  match lstrip_by isdecimal text with
  | [] =>
      match integer with
      | [] => None
      | _ :: _ => Some (FDec false (ascii_digits integer) [] [])
      end
  | point :: fraction =>
      if (point =? 46) && forallb isdecimal fraction
         && negb (match integer, fraction with [], [] => true | _, _ => false end)
      then Some (FDec false (ascii_digits integer)
                      (46 :: ascii_digits fraction) [])
      else None
  end.

(** [float(match.group(1)) if match else 1.0] *)
Definition wait_time (text : str) : outcome exception pyfloat :=
  match re.search match_wait text with
  | Some group1 =>
      match float_of group1 with
      | Some seconds => Returned seconds
      | None =>
          Raised (ValueError (lit "could not convert string to float: '"
                                ++ group1 ++ lit "'"))
      end
  | None => Returned ONE
  end.

(** The first loop: the files of the attachments that are not the
    question are written under their names; [file_paths] as it stands. *)
Fixpoint save_attachments (items : list (str * file_info))
    (file_paths : list (str * str)) : io (list (str * str)) :=
  match items with
  | [] => ret file_paths
  | (field, info) :: rest =>
      if is_preferred lower field then save_attachments rest file_paths
      else
        match info_filename info, info_bytes info with
        | Some (c :: name), Some data =>
            let filename := c :: name in
            let path := posixpath.join (lit ".") filename in
            _ <<- (fun h => (h ++ [Write path data],
                             answered (write_file env h path data))) ;;
            save_attachments rest (assoc_set file_paths filename path)
        | _, _ => save_attachments rest file_paths
        end
  end.

(** The [for attempt in range(max_retries)] loop, with [remaining] turns
    to go from [attempt] on; [None] when the loop runs out. *)
Fixpoint attempts (remaining attempt : nat) (question : str)
    : io (option value) :=
  match remaining with
  | O => ret None
  | S remaining' =>
      r <<- (fun h => (h ++ [Invoke question],
                       Returned (invoke env h question))) ;;
      match r with
      | inr result => ret (Some result)
      | inl e =>
          if is_Exception e then
            if contains RATE_LIMIT (message e) then
              seconds <<- (fun h => (h, wait_time (message e))) ;;
              _ <<- (fun h => (h ++ [Sleep seconds],
                               answered (sleep env h seconds))) ;;
              if Nat.eqb attempt (max_retries - 1)
              then raise (Exception
                            (lit "Rate limit exceeded after max retries"))
              else attempts remaining' (S attempt) question
            else raise (Thrown e)
          else raise (Thrown e)
      end
  end.

(** The last loop: every saved file still there is removed. *)
Fixpoint remove_files (paths : list str) : io unit :=
  match paths with
  | [] => ret tt
  | path :: rest =>
      there <<- (fun h => (h ++ [PathExists path],
                           Returned (path_exists env h path))) ;;
      _ <<- (if there : bool
             then fun h => (h ++ [Remove path], answered (remove env h path))
             else ret tt) ;;
      remove_files rest
  end.

(** [handle_query(question, attachments)], with no attachments for
    [None].  The model, the tool, the planner and the executor are built
    by the framework and reached through [invoke]; the prompts are built
    and not used. *)
Definition handle_query (question : str)
    (attachments : list (str * file_info)) : io value :=
  file_paths <<- save_attachments attachments [] ;;
  let question := snd (locate_url question) in
  result <<- attempts max_retries 0 question ;;
  _ <<- remove_files (map snd file_paths) ;;
  match result with
  | Some result => ret result
  | None => raise UnboundLocalError
  end.

End Run.

End agent.

(** ** Vocabulary of the statements about the service *)

(** The log of a decision *)
Definition decision_log (d : decision) : str :=
  match d with
  | AgentAction _ _ log | AgentFinish _ log => log
  end.

(** [piece] is a part of [s] *)
Definition infix (piece s : str) : Prop :=
  exists pre post, s = pre ++ piece ++ post.

(** The first choice of a reply and its message: [choices] is a list or,
    as a subscript by [0] allows, a dictionary with a key equal to [0];
    the message of a choice without the key is the empty dictionary. *)
Definition first_choice (choices : value) (choice : list (value * value))
    : Prop :=
  (exists rest, choices = PyList (PyDict choice :: rest)) \/
  (exists d, choices = PyDict d /\
             chat_proxy.lookup_zero d = Some (PyDict choice)).

Definition message_of (choice : list (value * value)) : value :=
  if has_key choice (lit "message")
  then dict_get choice (PyStr (lit "message"))
  else PyDict [].

(** A reply of the shape the endpoint documents: an object whose
    [choices], when there, is a list whose first element, when there, is an
    object whose [message], when there, is an object. *)
Definition api_shaped (data : value) : Prop :=
  exists d, data = PyDict d /\
    (has_key d (lit "choices") = true ->
     exists items, dict_get d (PyStr (lit "choices")) = PyList items /\
       forall x rest, items = x :: rest ->
         exists choice, x = PyDict choice /\
           exists m, message_of choice = PyDict m).

(** Sample replies of the endpoint *)
Definition REPLY_OK : value :=
  PyDict [(PyStr (lit "choices"),
           PyList [PyDict [(PyStr (lit "message"),
                            PyDict [(PyStr (lit "role"), PyStr (lit "assistant"));
                                    (PyStr (lit "content"), PyStr (lit "Hi"))]);
                           (PyStr (lit "finish_reason"), PyStr (lit "stop"))]])].

Definition REPLY_ERROR : value :=
  PyDict [(PyStr (lit "error"),
           PyDict [(PyStr (lit "message"), PyStr (lit "Invalid API Key"))])].

Definition REPLY_NULL_MESSAGE : value :=
  PyDict [(PyStr (lit "choices"),
           PyList [PyDict [(PyStr (lit "message"), PyNone);
                           (PyStr (lit "finish_reason"), PyStr (lit "stop"))]])].

(** The entry that [files] gets for a file of the form *)
Definition info_of (value : UploadFile) : file_info :=
  {| info_filename := filename value;
     info_content_type := content_type value;
     info_bytes := Some (read value) |}.

(** [files] after the loop has passed all of [items] *)
Definition recorded (items : list (str * form_value))
    (files : list (str * file_info)) : list (str * file_info) :=
  fold_left (fun files item =>
               match snd item with
               | File value => assoc_set files (fst item) (info_of value)
               | Field _ => files
               end) items files.

Section FormVocabulary.

Variable lower : str -> str.

(** What makes the loop read the question from a file: the name of its
    field, the ending of its file name, or the start of its content type *)
Definition question_source (field_name : str) (value : UploadFile) : Prop :=
  is_preferred lower field_name = true \/
  (exists name, filename value = Some name /\ name <> [] /\
                endswith (lower name) (lit ".txt") = true) \/
  (exists type, content_type value = Some type /\ type <> [] /\
                startswith type (lit "text") = true).

(** A field that does not end the loop: a plain field, or a file whose
    field is not one of the preferred names *)
Definition passed (item : str * form_value) : Prop :=
  match snd item with
  | File _ => is_preferred lower (fst item) = false
  | Field _ => True
  end.

(** A field that the loop passes without raising: besides, its file is
    not empty *)
Definition harmless (item : str * form_value) : Prop :=
  match snd item with
  | File value => is_preferred lower (fst item) = false /\ read value <> []
  | Field _ => True
  end.

End FormVocabulary.

(** Samples: [str.lower] on ASCII text, bytes from their text, and a form
    with a data file, the question and a file after it *)
Definition ascii_lower (s : str) : str :=
  map (fun c => if (65 <=? c) && (c <=? 90) then c + 32 else c) s.

Definition DATA_FILE : UploadFile :=
  {| filename := Some (lit "sales.csv");
     content_type := Some (lit "text/csv");
     read := list_byte_of_string "a,b" ++ [Byte.x0a]
             ++ list_byte_of_string "1,2" ++ [Byte.x0a] |}.

Definition QUESTION_FILE : UploadFile :=
  {| filename := Some (lit "q.txt");
     content_type := Some (lit "text/plain");
     read := list_byte_of_string "  How many rows?" ++ [Byte.x0a] |}.

Definition LATE_FILE : UploadFile :=
  {| filename := Some (lit "late.csv");
     content_type := None;
     read := list_byte_of_string "x" |}.

Definition EMPTY_FILE : UploadFile :=
  {| filename := Some (lit "empty.csv"); content_type := None; read := [] |}.

Definition BLANK_FILE : UploadFile :=
  {| filename := Some (lit "notes.TXT");
     content_type := None;
     read := list_byte_of_string "   " |}.

Definition SAMPLE_FORM : list (str * form_value) :=
  [ (lit "note", Field (lit "hello"));
    (lit "data", File DATA_FILE);
    (lit " Questions.TXT ", File QUESTION_FILE);
    (lit "late", File LATE_FILE) ].

(** The inputs of the invocations among the calls, the sleeps among
    them, and the calls of the last loop *)
Definition invocations (calls : list agent.event) : list str :=
  flat_map (fun ev => match ev with agent.Invoke q => [q] | _ => [] end) calls.

Definition sleeps (calls : list agent.event) : list pyfloat :=
  flat_map (fun ev => match ev with agent.Sleep t => [t] | _ => [] end) calls.

Definition cleanup_call (ev : agent.event) : bool :=
  match ev with
  | agent.PathExists _ | agent.Remove _ => true
  | _ => false
  end.

(** A write of the first loop: under the name of a file of the
    attachments whose field is not one of the preferred names *)
Definition saves (lower : str -> str) (attachments : list (str * file_info))
    (ev : agent.event) : Prop :=
  exists field info name data,
    In (field, info) attachments /\ is_preferred lower field = false /\
    info_filename info = Some name /\ name <> [] /\
    info_bytes info = Some data /\
    ev = agent.Write (posixpath.join (lit ".") name) data.

(** A computation whose calls all satisfy [P] *)
Definition calls_only {A : Type} (P : agent.event -> Prop) (m : agent.io A)
    : Prop :=
  forall h h' out, m h = (h', out) -> exists new, h' = h ++ new /\ Forall P new.

(** A computation that raises only exceptions that satisfy [Q] *)
Definition raises_only {A : Type} (Q : agent.exception -> Prop)
    (m : agent.io A) : Prop :=
  forall h h' e, m h = (h', Raised e) -> Q e.

(** A call of the loop over the attempts *)
Definition attempt_call (question : str) (ev : agent.event) : Prop :=
  ev = agent.Invoke question \/ exists t, ev = agent.Sleep t.

(** An exception other than the one for a variable that is not set *)
Definition bound (e : agent.exception) : Prop := e <> agent.UnboundLocalError.

(** Samples: the decimal digits of ASCII, an environment whose agent
    answers, one whose agent is always told to wait, one whose agent fails
    otherwise, and attachments *)
Definition ascii_decimal (c : char) : option N :=
  if is_digit c then Some (c - 48) else None.

Definition AGENT_RESULT : value :=
  PyDict [(PyStr (lit "input"), PyStr (lit "How many rows?"));
          (PyStr (lit "output"), PyStr (lit "2"))].

Definition quiet (answer : agent.thrown + value) : agent.environment :=
  {| agent.write_file := fun _ _ _ => None;
     agent.invoke := fun _ _ => answer;
     agent.sleep := fun _ _ => None;
     agent.path_exists := fun _ _ => true;
     agent.remove := fun _ _ => None |}.

Definition RATE_LIMITED : agent.thrown :=
  {| agent.class_name := lit "RuntimeError";
     agent.is_Exception := true;
     agent.message :=
       lit "LLM Error 429: rate_limit_exceeded. Please try again in 2.5s." |}.

Definition RATE_LIMITED_MALFORMED : agent.thrown :=
  {| agent.class_name := lit "RuntimeError";
     agent.is_Exception := true;
     agent.message :=
       lit "rate_limit_exceeded. Please try again in 1.2.3s" |}.

Definition BROKEN : agent.thrown :=
  {| agent.class_name := lit "KeyError";
     agent.is_Exception := true;
     agent.message := lit "'output'" |}.

Definition SAMPLE_ATTACHMENTS : list (str * file_info) :=
  [ (lit "data", info_of DATA_FILE);
    (lit " Questions.TXT ", info_of QUESTION_FILE) ].

(** An environment whose agent is told to wait twice and answers then *)
Definition PATIENT : agent.environment :=
  {| agent.write_file := fun _ _ _ => None;
     agent.invoke := fun h _ =>
       if (length (invocations h) <? 2)%nat then inl RATE_LIMITED
       else inr AGENT_RESULT;
     agent.sleep := fun _ _ => None;
     agent.path_exists := fun _ _ => false;
     agent.remove := fun _ _ => None |}.
(** * Properties *)

(** ** Strings *)

Lemma eat_app (p r : str) : eat p (p ++ r) = Some r.
Proof.
  induction p as [|a p IH]; simpl; [reflexivity|].
  now rewrite N.eqb_refl.
Qed.

Lemma eat_Some (p s r : str) : eat p s = Some r -> s = p ++ r.
Proof.
  revert s; induction p as [|a p IH]; intros s H; simpl in *.
  - now injection H.
  - destruct s as [|b s]; [discriminate|].
    destruct (a =? b) eqn:E; [|discriminate].
    apply N.eqb_eq in E; subst b. now rewrite (IH _ H).
Qed.

Lemma startswith_eat (p s : str) :
  startswith s p = true <-> exists r, eat p s = Some r.
Proof.
  revert s; induction p as [|a p IH]; intros s; simpl.
  - split; [intros _; now exists s | intros _; now destruct s].
  - destruct s as [|b s]; simpl.
    + split; [discriminate | intros [r Hr]; discriminate].
    + destruct (a =? b); simpl; [apply IH|].
      split; [discriminate | intros [r Hr]; discriminate].
Qed.

Lemma startswith_app (p r : str) : startswith (p ++ r) p = true.
Proof. apply startswith_eat. exists r. apply eat_app. Qed.

Lemma startswith_split (p s : str) :
  startswith s p = true -> exists r, s = p ++ r.
Proof.
  intros H. apply startswith_eat in H as [r Hr].
  exists r. now apply eat_Some.
Qed.

Lemma contains_cons (sep : str) (c : char) (s : str) :
  contains sep (c :: s) = startswith (c :: s) sep || contains sep s.
Proof. reflexivity. Qed.

Lemma contains_nil (sep : str) : contains sep [] = startswith [] sep.
Proof. unfold contains. apply orb_false_r. Qed.

Lemma contains_startswith (sep s : str) :
  startswith s sep = true -> contains sep s = true.
Proof. intros H. destruct s; cbn [contains]; now rewrite H. Qed.

Lemma contains_app_r (sep pre s : str) :
  contains sep s = true -> contains sep (pre ++ s) = true.
Proof.
  intros H. induction pre as [|c pre IH]; [exact H|].
  simpl app. rewrite contains_cons, IH. apply orb_true_r.
Qed.

Lemma contains_split (sep s : str) :
  contains sep s = true -> exists before after, s = before ++ sep ++ after.
Proof.
  induction s as [|c s IH]; intros H.
  - rewrite contains_nil in H.
    apply startswith_split in H as [r Hr]. now exists [], r.
  - rewrite contains_cons in H. apply orb_true_iff in H as [H|H].
    + apply startswith_split in H as [r Hr]. now exists [], r.
    + destruct (IH H) as (b & a & ->). now exists (c :: b), a.
Qed.

Lemma contains_false_app (sep before after : str) :
  contains sep (before ++ sep ++ after) = false -> False.
Proof.
  intros H.
  assert (contains sep (sep ++ after) = true) as E.
  { apply contains_startswith, startswith_app. }
  apply (contains_app_r sep before) in E. congruence.
Qed.

Lemma lstrip_by_takewhile (p : char -> bool) (s : str) :
  s = takewhile p s ++ lstrip_by p s.
Proof.
  induction s as [|c s IH]; simpl; [reflexivity|].
  destruct (p c); simpl; [now rewrite <- IH | reflexivity].
Qed.

Lemma takewhile_Forall (p : char -> bool) (s : str) :
  Forall (fun c => p c = true) (takewhile p s).
Proof.
  induction s as [|c s IH]; simpl; [constructor|].
  destruct (p c) eqn:E; [now constructor | constructor].
Qed.


Lemma lstrip_by_head (p : char -> bool) (c : char) (s : str) :
  p c = false -> lstrip_by p (c :: s) = c :: s.
Proof. intros H. simpl. now rewrite H. Qed.

(** ** [split] *)

Lemma split_go_skip (sep xs cur rest : str) :
  split_go sep (length xs) cur (xs ++ rest) = split_go sep 0 cur rest.
Proof. induction xs as [|x xs IH]; simpl; [reflexivity | exact IH]. Qed.

Lemma split_go_cut (sep cur rest : str) :
  sep <> [] ->
  split_go sep 0 cur (sep ++ rest) = rev cur :: split_go sep 0 [] rest.
Proof.
  intros Hne. destruct sep as [|a sep']; [contradiction|].
  change ((a :: sep') ++ rest) with (a :: (sep' ++ rest)).
  cbn [split_go].
  change (a :: sep' ++ rest) with ((a :: sep') ++ rest).
  rewrite startswith_app. f_equal.
  cbn [length pred]. apply split_go_skip.
Qed.

Lemma split_go_nocut (sep s cur : str) :
  contains sep s = false -> split_go sep 0 cur s = [rev cur ++ s].
Proof.
  revert cur; induction s as [|c s IH]; intros cur H.
  - simpl. now rewrite app_nil_r.
  - rewrite contains_cons in H. apply orb_false_iff in H as [H1 H2].
    cbn [split_go]. rewrite H1, (IH _ H2). simpl.
    now rewrite <- app_assoc.
Qed.

Lemma split_go_nonempty (sep s cur : str) (k : nat) :
  split_go sep k cur s <> [].
Proof.
  revert k cur; induction s as [|c s IH]; intros k cur; cbn [split_go].
  - discriminate.
  - destruct k; [|apply IH].
    destruct (startswith (c :: s) sep); [discriminate | apply IH].
Qed.

Lemma last_cons_nonempty {A : Type} (x : A) (l : list A) (d : A) :
  l <> [] -> last (x :: l) d = last l d.
Proof. destruct l; [contradiction | reflexivity]. Qed.

Lemma last_split_go (sep : str) :
  sep <> [] -> unbordered sep ->
  forall (n : nat) (s cur : str), length s = n ->
    contains sep s = true ->
    exists before after,
      last_occurrence sep s before after /\
      last (split_go sep 0 cur s) [] = after.
Proof.
  intros Hne Hub n. induction n as [n IH] using lt_wf_ind.
  intros s cur Hlen Hc.
  destruct s as [|c s].
  - rewrite contains_nil in Hc.
    apply startswith_split in Hc as [r Hr].
    destruct sep; [contradiction | discriminate].
  - destruct (startswith (c :: s) sep) eqn:Hsw.
    + apply startswith_split in Hsw as [rest Hrest].
      rewrite Hrest, split_go_cut by assumption.
      rewrite last_cons_nonempty by apply split_go_nonempty.
      destruct (contains sep rest) eqn:Hcr.
      * assert (length rest < n)%nat as Hlt.
        { rewrite <- Hlen, Hrest, length_app.
          destruct sep; [contradiction | simpl; lia]. }
        destruct (IH _ Hlt rest [] eq_refl Hcr) as (b & a & [Hs Hl] & Hlast).
        exists (sep ++ b), a. split; [split|]; [|exact Hl|exact Hlast].
        rewrite Hs at 1. now rewrite <- app_assoc.
      * exists [], rest. split; [split|].
        -- reflexivity.
        -- now apply Hub.
        -- now rewrite split_go_nocut.
    + rewrite contains_cons, Hsw in Hc. simpl in Hc.
      cbn [split_go]. rewrite Hsw.
      assert (length s < n)%nat as Hlt by (rewrite <- Hlen; simpl; lia).
      destruct (IH _ Hlt s (c :: cur) eq_refl Hc) as (b & a & [Hs Hl] & Hlast).
      exists (c :: b), a. split; [split|]; [|exact Hl|exact Hlast].
      now rewrite Hs.
Qed.

Lemma FINAL_ANSWER_unbordered : unbordered FINAL_ANSWER.
Proof.
  intros rest H.
  change (tl (FINAL_ANSWER ++ rest))
    with (lit "inal Answer:" ++ rest).
  cbn -[contains]. 
  repeat (rewrite contains_cons;
          match goal with
          | |- startswith ?s FINAL_ANSWER || _ = false =>
              change (startswith s FINAL_ANSWER) with false
          end; cbn [orb]).
  exact H.
Qed.

Lemma last_split_FINAL_ANSWER (text : str) :
  contains FINAL_ANSWER text = true ->
  exists before after,
    last_occurrence FINAL_ANSWER text before after /\
    last (split FINAL_ANSWER text) [] = after.
Proof.
  intros H. unfold split.
  apply (last_split_go FINAL_ANSWER) with (n := length text);
    [discriminate | apply FINAL_ANSWER_unbordered | reflexivity | exact H].
Qed.

(** ** The patterns *)

Lemma until_Some (sep s body rest : str) :
  until sep s = Some (body, rest) -> s = body ++ sep ++ rest.
Proof.
  revert body; induction s as [|c s IH]; intros body H.
  - cbn [until] in H. destruct (eat sep []) eqn:E; [|discriminate].
    injection H as <- <-. now apply eat_Some in E.
  - cbn [until] in H. destruct (eat sep (c :: s)) eqn:E.
    + injection H as <- <-. now apply eat_Some in E.
    + destruct (until sep s) as [[b r]|] eqn:U; [|discriminate].
      injection H as <- <-. now rewrite (IH _ eq_refl).
Qed.

Lemma until_app (sep body rest : str) :
  exists body' rest', until sep (body ++ sep ++ rest) = Some (body', rest').
Proof.
  induction body as [|c body (b & r & IH)].
  - exists [], rest. simpl app.
    destruct (sep ++ rest) eqn:E; cbn [until]; rewrite <- E;
      now rewrite eat_app.
  - simpl app. cbn [until].
    destruct (eat sep (c :: body ++ sep ++ rest)) as [r0|].
    + now exists [], r0.
    + rewrite IH. now exists (c :: b), r.
Qed.

(** [(.*?)] is lazy: no occurrence of [sep] ends earlier. *)
Lemma until_shortest (sep s body rest : str) :
  until sep s = Some (body, rest) ->
  forall body1 rest1, s = body1 ++ sep ++ rest1 ->
    (length body <= length body1)%nat.
Proof.
  revert body; induction s as [|c s IH]; intros body H body1 rest1 Hs.
  - cbn [until] in H. destruct (eat sep []); [|discriminate].
    injection H as <- <-. simpl. lia.
  - cbn [until] in H. destruct (eat sep (c :: s)) eqn:E.
    + injection H as <- <-. simpl. lia.
    + destruct (until sep s) as [[b r]|] eqn:U; [|discriminate].
      injection H as <- <-.
      destruct body1 as [|c1 body1].
      * simpl in Hs. rewrite Hs, eat_app in E. discriminate.
      * injection Hs as _ Hs. simpl. apply le_n_S. now apply (IH b eq_refl body1 rest1).
Qed.

Lemma eat_None (p s : str) : startswith s p = false -> eat p s = None.
Proof.
  intros H. destruct (eat p s) as [r|] eqn:E; [|reflexivity].
  assert (startswith s p = true) by (apply startswith_eat; now exists r).
  congruence.
Qed.

Lemma startswith_app_long (p x r : str) :
  (length p <= length x)%nat -> startswith (x ++ r) p = startswith x p.
Proof.
  revert x; induction p as [|a p IH]; intros x H.
  - now destruct x; destruct r.
  - destruct x as [|b x]; [simpl in H; lia|].
    simpl. f_equal. apply IH. simpl in H. lia.
Qed.

Lemma until_unfold (sep s : str) :
  until sep s =
  match eat sep s with
  | Some rest => Some ([], rest)
  | None =>
      match s with
      | [] => None
      | c :: s' =>
          match until sep s' with
          | Some (body, rest) => Some (c :: body, rest)
          | None => None
          end
      end
  end.
Proof. destruct s; reflexivity. Qed.

Lemma startswith_before (p x rest : str) (c : char) :
  p <> [] ->
  startswith ((c :: x) ++ removelast p) p = false ->
  startswith ((c :: x) ++ p ++ rest) p = false.
Proof.
  intros Hne H.
  replace ((c :: x) ++ p ++ rest)
    with (((c :: x) ++ removelast p) ++ [last p 0] ++ rest).
  - rewrite startswith_app_long; [exact H|].
    rewrite (app_removelast_last 0 Hne) at 1.
    rewrite !length_app. simpl. lia.
  - rewrite <- !app_assoc. f_equal.
    rewrite (app_removelast_last 0 Hne) at 3.
    now rewrite <- app_assoc.
Qed.

(** The text up to the first occurrence of [sep] *)
Lemma until_first (sep body rest : str) :
  sep <> [] ->
  contains sep (body ++ removelast sep) = false ->
  until sep (body ++ sep ++ rest) = Some (body, rest).
Proof.
  intros Hne. induction body as [|c body IH]; intros H.
  - simpl app. now rewrite until_unfold, eat_app.
  - rewrite <- app_comm_cons, contains_cons in H.
    apply orb_false_iff in H as [Hs Hc].
    rewrite until_unfold, (eat_None sep)
      by now apply startswith_before.
    rewrite <- app_comm_cons. now rewrite (IH Hc).
Qed.

Lemma search_head {A : Type} (pat : str -> option A) (s : str) (m : A) :
  pat s = Some m -> re.search pat s = Some m.
Proof. intros H. destruct s; cbn [re.search]; now rewrite H. Qed.

Lemma search_skip {A : Type} (pat : str -> option A) (c : char) (s : str) :
  pat (c :: s) = None -> re.search pat ((c :: s)) = re.search pat s.
Proof. intros H. cbn [re.search]. now rewrite H. Qed.

Lemma search_Some {A : Type} (pat : str -> option A) (s : str) (m : A) :
  re.search pat s = Some m ->
  exists before rest,
    s = before ++ rest /\ pat rest = Some m /\
    (forall b r, s = b ++ r -> (length b < length before)%nat -> pat r = None).
Proof.
  induction s as [|c s IH]; intros H; cbn [re.search] in H.
  - destruct (pat []) eqn:E; [|discriminate]. injection H as ->.
    exists [], []. repeat split; [exact E|]. simpl; lia.
  - destruct (pat (c :: s)) eqn:E.
    + injection H as ->. exists [], (c :: s). repeat split; [exact E|].
      simpl; lia.
    + destruct (IH H) as (b0 & r0 & -> & Hp & Hmin).
      exists (c :: b0), r0. repeat split; [exact Hp|].
      intros b r Hs Hlt. destruct b as [|c' b].
      * simpl in Hs. now subst r.
      * injection Hs as _ Hs. apply (Hmin b r Hs). simpl in Hlt; lia.
Qed.






Lemma startswith_app_true (x y p : str) :
  startswith x p = true -> startswith (x ++ y) p = true.
Proof.
  intros H. apply startswith_split in H as [r ->].
  rewrite <- app_assoc. apply startswith_app.
Qed.

Lemma contains_short (sep s : str) :
  (length s < length sep)%nat -> contains sep s = false.
Proof.
  intros H. destruct (contains sep s) eqn:E; [|reflexivity].
  apply contains_split in E as (b & a & ->).
  rewrite !length_app in H. lia.
Qed.

Lemma length_removelast_S (sep : str) :
  sep <> [] -> length sep = S (length (removelast sep)).
Proof.
  intros Hne. rewrite (app_removelast_last 0 Hne) at 1.
  rewrite length_app. simpl. lia.
Qed.

(** The text that [until] returns holds no earlier occurrence of [sep]. *)
Lemma until_no_earlier (sep s body rest : str) :
  sep <> [] -> until sep s = Some (body, rest) ->
  contains sep (body ++ removelast sep) = false.
Proof.
  intros Hne. revert body; induction s as [|c s IH]; intros body H;
    rewrite until_unfold in H.
  - destruct (eat sep []); [|discriminate]. injection H as <- <-.
    apply contains_short. rewrite (length_removelast_S sep Hne). simpl. lia.
  - destruct (eat sep (c :: s)) as [r0|] eqn:E.
    + injection H as <- <-.
      apply contains_short. rewrite (length_removelast_S sep Hne). simpl. lia.
    + destruct (until sep s) as [[b r]|] eqn:U; [|discriminate].
      injection H as <- <-. rewrite <- app_comm_cons, contains_cons.
      rewrite (IH b eq_refl), orb_false_r.
      destruct (startswith (c :: b ++ removelast sep) sep) eqn:Es;
        [|reflexivity].
      apply until_Some in U. subst s.
      assert (startswith (c :: b ++ sep ++ r) sep = true) as Ht.
      { rewrite (app_removelast_last 0 Hne) at 1.
        rewrite <- !app_assoc, app_comm_cons, app_assoc.
        rewrite app_comm_cons in Es. now apply startswith_app_true. }
      apply startswith_eat in Ht as [r1 Hr1]. congruence.
Qed.

Lemma search_first {A : Type} (pat : str -> option A) (before s : str) (m : A) :
  (forall b r, before ++ s = b ++ r -> (length b < length before)%nat ->
               pat r = None) ->
  pat s = Some m -> re.search pat (before ++ s) = Some m.
Proof.
  intros Hmin Hs. induction before as [|c before IH].
  - now apply search_head.
  - rewrite <- app_comm_cons, search_skip.
    + apply IH. intros b r E Hl. apply (Hmin (c :: b) r).
      * now rewrite <- !app_comm_cons, E.
      * simpl. lia.
    + apply (Hmin [] (c :: before ++ s)); [reflexivity | simpl; lia].
Qed.



Lemma contains_single (c : char) (s : str) :
  contains [c] s = false <-> ~ In c s.
Proof.
  induction s as [|x s IH].
  - split; [intros _ [] | reflexivity].
  - rewrite contains_cons. cbn [startswith In].
    destruct (N.eqb_spec c x) as [->|Hne].
    + split; [destruct s; discriminate | intros H; exfalso; apply H; now left].
    + cbn [andb orb]. rewrite IH. split.
      * intros H [E|E]; [now apply Hne | now apply H].
      * intros H E. apply H. now right.
Qed.

Lemma until_single (c : char) (s : str) :
  In c s -> exists body rest, until [c] s = Some (body, rest).
Proof.
  intros H. apply in_split in H as (l1 & l2 & ->).
  apply (until_app [c] l1 l2).
Qed.

Lemma in_lstrip_by (p : char -> bool) (c : char) (s : str) :
  p c = false -> In c s -> In c (lstrip_by p s).
Proof.
  intros Hc. induction s as [|x s IH]; intros H; [contradiction|].
  cbn [lstrip_by]. destruct (p x) eqn:Ex; [|exact H].
  destruct H as [->|H]; [congruence | now apply IH].
Qed.

Lemma takewhile_not_in (p : char -> bool) (c : char) (s : str) :
  p c = false -> ~ In c (takewhile p s).
Proof.
  intros Hc H. pose proof (takewhile_Forall p s) as HF.
  rewrite Forall_forall in HF. specialize (HF c H). congruence.
Qed.

Lemma match_span_first (o c : char) (mid after : str) :
  isspace c = false -> ~ In c mid ->
  match_span o c (o :: mid ++ c :: after) = Some (o :: mid ++ [c]).
Proof.
  intros Hc Hmid. unfold match_span.
  change (eat [o] (o :: ?x)) with (if o =? o then Some x else None).
  rewrite N.eqb_refl.
  assert (exists body, mid = takewhile isspace (mid ++ c :: after) ++ body /\
                       lstrip_by isspace (mid ++ c :: after)
                       = body ++ [c] ++ after) as (body & Hb & Hl).
  { clear Hmid. induction mid as [|x mid IH].
    - exists []. cbn. now rewrite Hc.
    - cbn [app takewhile lstrip_by]. destruct (isspace x).
      + destruct IH as (body & Hb & Hl). exists body.
        split; [cbn [app]; now f_equal | exact Hl].
      + now exists (x :: mid). }
  rewrite Hl, until_first; [now rewrite app_assoc, <- Hb | discriminate |].
  cbn [removelast]. rewrite app_nil_r. apply contains_single.
  intros Hin. apply Hmid. rewrite Hb. apply in_or_app. now right.
Qed.

(** The search for a bracket pattern finds exactly the first span. *)
Lemma search_span (o c : char) (s span : str) :
  isspace c = false ->
  re.search (match_span o c) s = Some span <-> first_span o c s span.
Proof.
  intros Hc. split.
  - intros H. apply search_Some in H as (before & rest & -> & Hm & Hmin).
    unfold match_span in Hm.
    destruct (eat [o] rest) as [s1|] eqn:E1; [|discriminate].
    destruct (until [c] (lstrip_by isspace s1)) as [[body r]|] eqn:U;
      [|discriminate].
    injection Hm as <-. apply eat_Some in E1. subst rest.
    pose proof (until_Some _ _ _ _ U) as Hl.
    exists before, (takewhile isspace s1 ++ body), r. repeat split.
    + cbn [app]. do 2 f_equal. rewrite <- app_assoc.
      rewrite (lstrip_by_takewhile isspace s1) at 1. now rewrite Hl.
    + now rewrite <- app_assoc.
    + intros Hin. apply in_split in Hin as (b1 & b2 & ->).
      assert (match_span o c (o :: b2 ++ [o] ++ s1) = None) as Hn.
      { apply (Hmin b1); [now rewrite <- app_assoc|].
        rewrite length_app. simpl. lia. }
      unfold match_span in Hn.
      change (eat [o] (o :: ?x)) with (if o =? o then Some x else None) in Hn.
      rewrite N.eqb_refl in Hn.
      destruct (until_single c (lstrip_by isspace (b2 ++ [o] ++ s1)))
        as (b' & r' & Hu).
      * apply in_lstrip_by; [exact Hc|].
        rewrite (lstrip_by_takewhile isspace s1), Hl.
        rewrite !in_app_iff. right. right. right. right. left. now left.
      * rewrite Hu in Hn. discriminate.
    + intros Hin. apply in_app_or in Hin as [Hin|Hin].
      * now apply (takewhile_not_in isspace c s1).
      * apply until_no_earlier in U; [|discriminate].
        cbn [removelast] in U. rewrite app_nil_r in U.
        now apply contains_single in U.
  - intros (before & mid & after & -> & -> & Ho & Hmid).
    apply search_first; [|now apply match_span_first].
    intros b r E Hl. unfold match_span.
    destruct (eat [o] r) as [s1|] eqn:E1; [|reflexivity].
    exfalso. apply Ho. apply eat_Some in E1. subst r.
    assert (exists b2, before = b ++ o :: b2) as [b2 ->].
    { clear -E Hl. revert b E Hl.
      induction before as [|x before IH]; intros b E Hl;
        [simpl in Hl; lia|].
      destruct b as [|y b].
      - cbn [app] in E. injection E as -> E. now exists before.
      - cbn [app] in E. injection E as -> E.
        destruct (IH b E) as [b2 ->]; [simpl in Hl; lia|]. now exists b2. }
    apply in_or_app. right. now left.
Qed.

(** ** The parser *)

Section ParserFacts.

Variable json_loads : str -> result value.

Lemma parse_final (text : str) :
  contains FINAL_ANSWER text = true ->
  parse json_loads text =
  Return (AgentFinish (strip (last (split FINAL_ANSWER text) [])) text).
Proof. intros H. unfold parse. now rewrite H. Qed.

Lemma parse_no_block (text : str) :
  contains FINAL_ANSWER text = false ->
  re.search match_action text = None ->
  parse json_loads text = Return (AgentFinish (strip text) text).
Proof. intros H1 H2. unfold parse. now rewrite H1, H2. Qed.

(** The decision taken on the fenced content once it is decoded *)
Lemma parse_decoded (text body : str) (v : value) :
  contains FINAL_ANSWER text = false ->
  re.search match_action text = Some body ->
  json_loads (strip body) = Return v ->
  parse json_loads text =
  match v with
  | PyDict d =>
      let action := dict_get d (PyStr (lit "action")) in
      let action_input := dict_get d (PyStr (lit "action_input")) in
      if truthy action && negb (is_none action_input)
      then Return (AgentAction action action_input text)
      else Return (AgentFinish (strip text) text)
  | _ => Raise AttributeError
  end.
Proof.
  intros H1 H2 H3. unfold parse. rewrite H1, H2. cbv zeta. rewrite H3.
  destruct v; try reflexivity.
  cbn [bind py_get].
  destruct (truthy _ && negb _); reflexivity.
Qed.

Lemma parse_not_decoded (text body : str) (e : exn) :
  contains FINAL_ANSWER text = false ->
  re.search match_action text = Some body ->
  json_loads (strip body) = Raise e ->
  parse json_loads text =
  if caught e [JSONDecodeError; ValueError]
  then Return (AgentFinish (strip text) text) else Raise e.
Proof.
  intros H1 H2 H3. unfold parse. rewrite H1, H2. cbv zeta. rewrite H3.
  destruct e; reflexivity.
Qed.

End ParserFacts.


Lemma is_none_true (v : value) : is_none v = true -> v = PyNone.
Proof. destruct v; [reflexivity | discriminate ..]. Qed.

Lemma dict_get_has_key (d : list (value * value)) (k : str) :
  dict_get d (PyStr k) <> PyNone -> has_key d k = true.
Proof.
  induction d as [|[k' v] d IH]; intros H; [contradiction|].
  unfold has_key. cbn [dict_get existsb fst] in *.
  destruct (key_eqb k' (PyStr k)); [reflexivity | now apply IH].
Qed.

Lemma dict_get_missing (d : list (value * value)) (k : str) :
  has_key d k = false -> dict_get d (PyStr k) = PyNone.
Proof.
  intros H. destruct (dict_get d (PyStr k)) eqn:E; [reflexivity | ..];
    rewrite dict_get_has_key in H by (rewrite E; discriminate);
    discriminate.
Qed.



(** The marker wins over a well-formed action block in front of it. *)
Example parse_action_then_final :
  parse json.loads EXAMPLE_ACTION_THEN_FINAL
  = Return (AgentFinish (lit "42") EXAMPLE_ACTION_THEN_FINAL).
Proof. vm_compute. reflexivity. Qed.






(** C2 at the failing input: a fenced block whose content decodes to a
    list makes [parse] raise [AttributeError], which neither [except]
    clause catches. *)
Theorem C2_non_object_raises :
  json.loads (lit "[1]") = Return (PyList [PyInt 1]) /\
  parse json.loads EXAMPLE_NON_OBJECT = Raise AttributeError.
Proof. split; vm_compute; reflexivity. Qed.

(** Every decoded value that is not an object takes the same path. *)
Lemma parse_non_object_raises (json_loads : str -> result value)
    (text body : str) (v : value) :
  contains FINAL_ANSWER text = false ->
  re.search match_action text = Some body ->
  json_loads (strip body) = Return v ->
  (forall d, v <> PyDict d) ->
  parse json_loads text = Raise AttributeError.
Proof.
  intros H1 H2 H3 H4. rewrite (parse_decoded _ _ _ _ H1 H2 H3).
  destruct v; try reflexivity. now destruct (H4 items).
Qed.




(** An empty [action_input] is accepted. *)
Example parse_empty_input :
  parse json.loads EXAMPLE_EMPTY_INPUT
  = Return (AgentAction (PyStr (lit "X")) (PyStr []) EXAMPLE_EMPTY_INPUT).
Proof. vm_compute. reflexivity. Qed.

(** ** The recoverer *)

Section RecovererFacts.

Variable json_loads : str -> result value.
Variable literal_eval : str -> result value.

Let recover := _try_extract_json_from_text json_loads literal_eval.

(** First strategy: whatever the strict parse of the trimmed text returns
    is returned, of any type. *)
Lemma recover_strict (s : str) (v : value) :
  json_loads (strip s) = Return v -> recover (PyStr s) = Return v.
Proof. intros H. unfold recover. cbn. now rewrite H. Qed.

Lemma recover_strict_raise (s : str) (e : exn) :
  json_loads (strip s) = Raise e ->
  caught e [JSONDecodeError; TypeError] = false ->
  recover (PyStr s) = Raise e.
Proof. intros H Hc. unfold recover. cbn -[caught]. now rewrite H, Hc. Qed.

Lemma recover_after_strict (s : str) (e : exn) :
  json_loads (strip s) = Raise e ->
  caught e [JSONDecodeError; TypeError] = true ->
  recover (PyStr s) = extract_relaxed json_loads literal_eval s (strip s).
Proof. intros H Hc. unfold recover. cbn -[caught]. now rewrite H, Hc. Qed.

(** Second strategy: a dictionary or a list from the relaxed parse of the
    trimmed text is returned; any other value is passed over. *)
Lemma recover_relaxed (s : str) (e : exn) (c : value) :
  json_loads (strip s) = Raise e ->
  caught e [JSONDecodeError; TypeError] = true ->
  literal_eval (strip s) = Return c ->
  recover (PyStr s) =
  if is_dict_or_list c then Return c
  else extract_by_patterns json_loads literal_eval patterns s.
Proof.
  intros H Hc Hl. rewrite (recover_after_strict _ _ H Hc).
  unfold extract_relaxed. now rewrite Hl.
Qed.

Lemma recover_relaxed_raise (s : str) (e e' : exn) :
  json_loads (strip s) = Raise e ->
  caught e [JSONDecodeError; TypeError] = true ->
  literal_eval (strip s) = Raise e' ->
  recover (PyStr s) =
  if caught e' [ValueError; SyntaxError]
  then extract_by_patterns json_loads literal_eval patterns s
  else Raise e'.
Proof.
  intros H Hc Hl. rewrite (recover_after_strict _ _ H Hc).
  unfold extract_relaxed. now rewrite Hl.
Qed.


End RecovererFacts.

(** C10: a value that is not a [str] is answered with [None], whatever the
    two parsers would do: they are not consulted. *)
Theorem C10_not_a_string :
  forall (json_loads literal_eval : str -> result value) (v : value),
    (forall s, v <> PyStr s) ->
    _try_extract_json_from_text json_loads literal_eval v = Return PyNone.
Proof.
  intros json_loads literal_eval v H.
  destruct v; try reflexivity. now destruct (H s).
Qed.

Lemma C10_not_a_string_witness :
  _try_extract_json_from_text json.loads ast.literal_eval
    (PyDict [(PyStr (lit "output"), PyInt 42)]) = Return PyNone.
Proof.
  apply (C10_not_a_string json.loads ast.literal_eval). discriminate.
Defined.

(** C5 at the failing input: the whole text is a set display.  The strict
    parse fails, the relaxed parse of the whole text is passed over because
    a set is neither a dictionary nor a list, and the extraction by pattern
    then returns that same set. *)
Theorem C5_extraction_returns_set :
  json.loads (strip ANSWER_SET) = Raise JSONDecodeError /\
  ast.literal_eval (strip ANSWER_SET) = Return (PySet [PyInt 1; PyInt 2]) /\
  re.search ARRAY_PATTERN ANSWER_SET = None /\
  re.search OBJECT_PATTERN ANSWER_SET = Some ANSWER_SET /\
  _try_extract_json_from_text json.loads ast.literal_eval (PyStr ANSWER_SET)
  = Return (PySet [PyInt 1; PyInt 2]).
Proof. repeat split; vm_compute; reflexivity. Qed.

(** The parts of C5 that hold: the order of the strategies, a scalar from
    the strict parse returned as it is, and the relaxed parse of the whole
    text returning dictionaries and lists only. *)
Lemma recover_cascade (json_loads literal_eval : str -> result value)
    (s : str) :
  (forall v, json_loads (strip s) = Return v ->
     _try_extract_json_from_text json_loads literal_eval (PyStr s) = Return v)
  /\
  (forall e c, json_loads (strip s) = Raise e ->
     caught e [JSONDecodeError; TypeError] = true ->
     literal_eval (strip s) = Return c ->
     (is_dict_or_list c = true ->
      _try_extract_json_from_text json_loads literal_eval (PyStr s) = Return c)
     /\
     (is_dict_or_list c = false ->
      _try_extract_json_from_text json_loads literal_eval (PyStr s)
      = extract_by_patterns json_loads literal_eval patterns s)).
Proof.
  split.
  - apply recover_strict.
  - intros e c H Hc Hl.
    rewrite (recover_relaxed _ _ _ _ _ H Hc Hl).
    split; intros ->; reflexivity.
Qed.

Example recover_scalars :
  _try_extract_json_from_text json.loads ast.literal_eval (PyStr (lit " 42 "))
  = Return (PyInt 42) /\
  _try_extract_json_from_text json.loads ast.literal_eval (PyStr (quoted "ok"))
  = Return (PyStr (lit "ok")) /\
  _try_extract_json_from_text json.loads ast.literal_eval (PyStr (lit "true"))
  = Return (PyBool true) /\
  _try_extract_json_from_text json.loads ast.literal_eval (PyStr (lit "null"))
  = Return PyNone /\
  _try_extract_json_from_text json.loads ast.literal_eval (PyStr (lit "'ok'"))
  = Return PyNone.
Proof. repeat split; vm_compute; reflexivity. Qed.




(** When the array candidate does not parse, the loop goes on to the
    object pattern. *)
Example recover_bad_array_then_object :
  _try_extract_json_from_text json.loads ast.literal_eval
    (PyStr ANSWER_BAD_ARRAY_THEN_OBJECT)
  = Return (PyDict [(PyStr (lit "a"), PyInt 1)]).
Proof. vm_compute. reflexivity. Qed.

(** C7 at the failing input: a set display holding a list.  The relaxed
    parse raises [TypeError], which its [except] clause does not name, so
    the recoverer raises, and with it the caller. *)
Theorem C7_recoverer_raises :
  json.loads (strip ANSWER_UNHASHABLE) = Raise JSONDecodeError /\
  ast.literal_eval (strip ANSWER_UNHASHABLE) = Raise TypeError /\
  _try_extract_json_from_text json.loads ast.literal_eval
    (PyStr ANSWER_UNHASHABLE) = Raise TypeError /\
  run_query_content json.loads ast.literal_eval ANSWER_UNHASHABLE
  = Raise TypeError.
Proof. repeat split; vm_compute; reflexivity. Qed.

(** A [TypeError] of the relaxed parse of the whole text always escapes. *)
Lemma recover_type_error (json_loads literal_eval : str -> result value)
    (s : str) (e : exn) :
  json_loads (strip s) = Raise e ->
  caught e [JSONDecodeError; TypeError] = true ->
  literal_eval (strip s) = Raise TypeError ->
  _try_extract_json_from_text json_loads literal_eval (PyStr s)
  = Raise TypeError.
Proof.
  intros H Hc Hl. now rewrite (recover_relaxed_raise _ _ _ _ _ H Hc Hl).
Qed.

(** The part of C7 that holds: plain prose is not recoverable, and the
    caller wraps it. *)
Example recover_plain_text :
  _try_extract_json_from_text json.loads ast.literal_eval (PyStr ANSWER_PLAIN)
  = Return PyNone /\
  run_query_content json.loads ast.literal_eval ANSWER_PLAIN
  = Return (PyDict [(PyStr (lit "output"), PyStr ANSWER_PLAIN)]).
Proof. split; vm_compute; reflexivity. Qed.

(** Whenever the recoverer answers [None], the caller wraps the text. *)
Lemma run_query_fallback (json_loads literal_eval : str -> result value)
    (output_raw : str) :
  _try_extract_json_from_text json_loads literal_eval (PyStr output_raw)
  = Return PyNone ->
  run_query_content json_loads literal_eval output_raw
  = Return (PyDict [(PyStr (lit "output"), PyStr output_raw)]).
Proof. intros H. unfold run_query_content. now rewrite H. Qed.

(** ** Round trip through [json.dumps] and [json.loads] *)

(** *** Numbers *)














(** *** Strings *)



(** A simple escape: backslash and a letter other than [u] *)
Lemma scanstring_simple_escape (e ch : char) (s : str) :
  (e =? 117) = false -> json.unescape e = Some ch ->
  json.scanstring (BACKSLASH :: e :: s) = json.cons_fst ch (json.scanstring s).
Proof. intros H1 H2. cbn [json.scanstring]. cbn. now rewrite H1, H2. Qed.










(** *** Scalars *)












(** *** Lists and dictionaries *)















(** *** The whole text *)








(** A [str] that holds the two halves of a surrogate pair as separate
    code points is outside the JSON values: it does not come back. *)
Example lone_surrogates_do_not_round_trip :
  json.dumps (PyList [PyStr [0xD83D; 0xDE00]])
  = Return (lit "[" ++ [DQUOTE; BACKSLASH] ++ lit "ud83d" ++ [BACKSLASH]
                ++ lit "ude00" ++ [DQUOTE] ++ lit "]") /\
  json.loads (lit "[" ++ [DQUOTE; BACKSLASH] ++ lit "ud83d" ++ [BACKSLASH]
                  ++ lit "ude00" ++ [DQUOTE] ++ lit "]")
  = Return (PyList [PyStr [0x1F600]]).
Proof. split; vm_compute; reflexivity. Qed.

(** ** The recursion budget of the decoder is never used up *)

Lemma lstrip_by_length (p : char -> bool) (s : str) :
  (length (lstrip_by p s) <= length s)%nat.
Proof.
  induction s as [|c s IH]; [reflexivity|]. cbn [lstrip_by].
  destruct (p c); cbn [length]; lia.
Qed.

Lemma cons_fst_length (c : char) (r : option (str * str)) (t rest : str) (n : nat) :
  (forall t' rest', r = Some (t', rest') -> (length rest' < n)%nat) ->
  json.cons_fst c r = Some (t, rest) -> (length rest < n)%nat.
Proof.
  intros H E. destruct r as [[t' rest']|]; [|discriminate].
  injection E as _ <-. now apply (H t').
Qed.

Lemma scanstring_length (n : nat) :
  forall s t rest, (length s <= n)%nat ->
    json.scanstring s = Some (t, rest) -> (length rest < length s)%nat.
Proof.
  induction n as [|n IH]; intros s t rest Hn H.
  - destruct s; [discriminate | cbn in Hn; lia].
  - destruct s as [|c s1]; [discriminate|]. cbn [json.scanstring] in H.
    assert (forall s' t' r', (length s' <= n)%nat ->
              json.scanstring s' = Some (t', r') ->
              (length r' < length s')%nat) as IH' by (intros; eauto).
    cbn [length] in *.
    destruct (c =? DQUOTE); [injection H as _ <-; lia|].
    destruct (c =? BACKSLASH).
    + destruct s1 as [|e s2]; [discriminate|]. cbn [length] in *.
      destruct (e =? 117).
      * destruct s2 as [|h1 [|h2 [|h3 [|h4 s6]]]]; try discriminate.
        cbn [length] in *.
        destruct (json.hex4 h1 h2 h3 h4) as [uni|]; [|discriminate].
        assert (forall u, json.cons_fst u (json.scanstring s6) = Some (t, rest) ->
                  (length rest < S (S (S (S (S (S (length s6)))))))%nat) as Hlone.
        { intros u Hu. eapply cons_fst_length; [|exact Hu].
          intros t' r' E. apply IH' in E; lia. }
        destruct (json.is_high_surrogate uni); [|now apply (Hlone uni)].
        destruct s6 as [|b [|u [|g1 [|g2 [|g3 [|g4 s12]]]]]];
          try now apply (Hlone uni).
        destruct ((b =? BACKSLASH) && (u =? 117)); [|now apply (Hlone uni)].
        destruct (json.hex4 g1 g2 g3 g4) as [uni2|]; [|discriminate].
        destruct (json.is_low_surrogate uni2); [|now apply (Hlone uni)].
        eapply cons_fst_length; [|exact H].
        intros t' r' E. apply IH' in E; cbn [length] in *; lia.
      * destruct (json.unescape e); [|discriminate].
        eapply cons_fst_length; [|exact H].
        intros t' r' E. apply IH' in E; lia.
    + destruct (c <? 32); [discriminate|].
      eapply cons_fst_length; [|exact H].
      intros t' r' E. apply IH' in E; lia.
Qed.

Lemma span_digits_length (s ds r : str) :
  span_digits s = (ds, r) -> (length r <= length s)%nat.
Proof.
  revert ds r; induction s as [|c s IH]; intros ds r H; cbn [span_digits] in H.
  - injection H as _ <-. reflexivity.
  - destruct (is_digit c).
    + destruct (span_digits s) as [ds' r'] eqn:E. injection H as _ <-.
      specialize (IH _ _ eq_refl). cbn [length]. lia.
    + injection H as _ <-. reflexivity.
Qed.

Lemma scan_frac_length (s f r : str) :
  json.scan_frac s = (f, r) -> (length r <= length s)%nat.
Proof.
  unfold json.scan_frac. intros H.
  destruct s as [|dot [|d s']]; try (injection H as _ <-; reflexivity).
  destruct ((dot =? 46) && is_digit d); [|injection H as _ <-; reflexivity].
  destruct (span_digits s') as [ds r'] eqn:E. injection H as _ <-.
  apply span_digits_length in E. cbn [length]. lia.
Qed.

Lemma scan_exp_length (s e r : str) :
  json.scan_exp s = (e, r) -> (length r <= length s)%nat.
Proof.
  unfold json.scan_exp. intros H.
  destruct s as [|letter [|c s2]]; try (injection H as _ <-; reflexivity).
  destruct ((letter =? 101) || (letter =? 69));
    [|injection H as _ <-; reflexivity].
  destruct (is_digit c).
  - destruct (span_digits s2) as [ds r'] eqn:E. injection H as _ <-.
    apply span_digits_length in E. cbn [length]. lia.
  - destruct ((c =? 43) || (c =? 45)); [|injection H as _ <-; reflexivity].
    destruct s2 as [|d s3]; [injection H as _ <-; reflexivity|].
    destruct (is_digit d); [|injection H as _ <-; reflexivity].
    destruct (span_digits s3) as [ds r'] eqn:E. injection H as _ <-.
    apply span_digits_length in E. cbn [length]. lia.
Qed.

Lemma match_number_length (s : str) (m : json.number_match) :
  json.match_number s = Some m -> (length (json.num_rest m) < length s)%nat.
Proof.
  unfold json.match_number. intros H.
  assert (forall s0 i s1, json.scan_int_part s0 = Some (i, s1) ->
            (length s1 < length s0)%nat) as Hint.
  { intros s0 i s1 E. unfold json.scan_int_part in E.
    destruct s0 as [|c s']; [discriminate|].
    destruct (c =? 48); [injection E as _ <-; cbn [length]; lia|].
    destruct (is_digit c); [|discriminate].
    destruct (span_digits s') as [ds r] eqn:Es. injection E as _ <-.
    apply span_digits_length in Es. cbn [length]. lia. }
  destruct (match s with
            | [] => (false, s)
            | c :: s' => if c =? MINUS then (true, s') else (false, s)
            end) as [neg s0] eqn:E0.
  assert (length s0 <= length s)%nat as H0.
  { destruct s as [|c s']; [injection E0 as _ <-; reflexivity|].
    destruct (c =? MINUS); injection E0 as _ <-; cbn [length]; lia. }
  destruct (json.scan_int_part s0) as [[i s1]|] eqn:E1; [|discriminate].
  destruct (json.scan_frac s1) as [f s2] eqn:E2.
  destruct (json.scan_exp s2) as [e s3] eqn:E3.
  injection H as <-. cbn [json.num_rest].
  apply Hint in E1. apply scan_frac_length in E2.
  apply scan_exp_length in E3. lia.
Qed.

Lemma scan_scalar_length (s : str) :
  json.scan_scalar s <> OutOfFuel /\
  forall v r, json.scan_scalar s = Scanned v r -> (length r < length s)%nat.
Proof.
  assert (forall kw v other,
            kw <> [] ->
            (other <> OutOfFuel /\
             forall v' r, other = Scanned v' r -> (length r < length s)%nat) ->
            json.try_keyword kw v s other <> OutOfFuel /\
            forall v' r, json.try_keyword kw v s other = Scanned v' r ->
                         (length r < length s)%nat) as Hkw.
  { intros kw v other Hne [H1 H2]. unfold json.try_keyword.
    destruct (eat kw s) as [rest|] eqn:E; [|now split].
    split; [discriminate|]. intros v' r Hs. injection Hs as _ <-.
    apply eat_Some in E. subst s. rewrite length_app.
    destruct kw; [contradiction | cbn [length]; lia]. }
  unfold json.scan_scalar.
  repeat (apply Hkw; [discriminate|]).
  destruct (json.match_number s) as [m|] eqn:E.
  - split; [discriminate|]. intros v r H. injection H as _ <-.
    now apply match_number_length.
  - repeat (apply Hkw; [discriminate|]). split; discriminate.
Qed.

Lemma fueled_NoScan {A : Type} (s : str) : fueled (@NoScan A) s.
Proof. split; discriminate. Qed.

Lemma fueled_Scanned {A : Type} (a : A) (rest s : str) :
  (length rest < length s)%nat -> fueled (Scanned a rest) s.
Proof.
  intros H. split; [discriminate|]. intros a' r E. now injection E as _ <-.
Qed.

Lemma fueled_map {A B : Type} (f : A -> B) (r : scan A) (s s' : str) :
  fueled r s' -> (length s' <= length s)%nat ->
  fueled match r with
         | Scanned a rest => Scanned (f a) rest
         | NoScan => NoScan
         | OutOfFuel => OutOfFuel
         end s.
Proof.
  intros [H1 H2] Hl. destruct r as [a rest| |]; [| apply fueled_NoScan |].
  - apply fueled_Scanned. specialize (H2 a rest eq_refl). lia.
  - contradiction.
Qed.

Lemma skip_ws_length (s : str) : (length (json.skip_ws s) <= length s)%nat.
Proof. apply lstrip_by_length. Qed.

Lemma scan_fuel (fuel : nat) :
  (forall s, (2 * length s < fuel)%nat -> fueled (json.scan_once fuel s) s) /\
  (forall s, (2 * length s + 1 < fuel)%nat ->
             fueled (json.scan_elements fuel s) s) /\
  (forall s, (2 * length s + 1 < fuel)%nat ->
             fueled (json.scan_members fuel s) s).
Proof.
  induction fuel as [|fuel (IH1 & IH2 & IH3)];
    [repeat split; intros; lia|].
  repeat apply conj; intros s Hf.
  - cbn [json.scan_once]. destruct s as [|c s']; [apply fueled_NoScan|].
    cbn [length] in Hf.
    destruct (c =? DQUOTE).
    { destruct (json.scanstring s') as [[t r]|] eqn:E; [|apply fueled_NoScan].
      apply fueled_Scanned.
      apply (scanstring_length (length s')) in E; cbn [length]; lia. }
    pose proof (skip_ws_length s') as Hw.
    destruct (c =? LBRACE).
    { destruct (json.skip_ws s') as [|c1 r1] eqn:E; [apply fueled_NoScan|].
      cbn [length] in Hw.
      destruct (c1 =? RBRACE); [apply fueled_Scanned; cbn [length]; lia|].
      apply (fueled_map (fun pairs => PyDict (dict_of_pairs pairs))
               _ _ (c1 :: r1)); [|cbn [length]; lia].
      apply IH3. cbn [length]. lia. }
    destruct (c =? LBRACKET).
    { destruct (json.skip_ws s') as [|c1 r1] eqn:E; [apply fueled_NoScan|].
      cbn [length] in Hw.
      destruct (c1 =? RBRACKET); [apply fueled_Scanned; cbn [length]; lia|].
      apply (fueled_map PyList _ _ (c1 :: r1)); [|cbn [length]; lia].
      apply IH2. cbn [length]. lia. }
    apply scan_scalar_length.
  - cbn [json.scan_elements].
    destruct (IH1 s) as [Hn Hl]; [lia|].
    destruct (json.scan_once fuel s) as [v r| |];
      [| apply fueled_NoScan | contradiction].
    specialize (Hl v r eq_refl). pose proof (skip_ws_length r) as Hw.
    destruct (json.skip_ws r) as [|c r1]; [apply fueled_NoScan|].
    cbn [length] in Hw.
    destruct (c =? RBRACKET); [apply fueled_Scanned; lia|].
    destruct (c =? COMMA); [|apply fueled_NoScan].
    pose proof (skip_ws_length r1) as Hw1.
    apply (fueled_map (cons v) _ _ (json.skip_ws r1)); [|lia].
    apply IH2. lia.
  - cbn [json.scan_members]. destruct s as [|q s1]; [apply fueled_NoScan|].
    cbn [length] in Hf.
    destruct (q =? DQUOTE); [|apply fueled_NoScan].
    destruct (json.scanstring s1) as [[key r1]|] eqn:E; [|apply fueled_NoScan].
    apply (scanstring_length (length s1)) in E; [|lia].
    pose proof (skip_ws_length r1) as Hw1.
    destruct (json.skip_ws r1) as [|col r2]; [apply fueled_NoScan|].
    cbn [length] in Hw1.
    destruct (col =? COLON); [|apply fueled_NoScan].
    pose proof (skip_ws_length r2) as Hw2.
    destruct (IH1 (json.skip_ws r2)) as [Hn Hl]; [lia|].
    destruct (json.scan_once fuel (json.skip_ws r2)) as [v r3| |];
      [| apply fueled_NoScan | contradiction].
    specialize (Hl v r3 eq_refl). pose proof (skip_ws_length r3) as Hw3.
    destruct (json.skip_ws r3) as [|c r4]; [apply fueled_NoScan|].
    cbn [length] in Hw3.
    destruct (c =? RBRACE); [apply fueled_Scanned; cbn [length]; lia|].
    destruct (c =? COMMA); [|apply fueled_NoScan].
    pose proof (skip_ws_length r4) as Hw4.
    apply (fueled_map (cons (PyStr key, v)) _ _ (json.skip_ws r4));
      [|cbn [length]; lia].
    apply IH3. lia.
Qed.

(** [json.loads] decides every text within its budget. *)
Lemma scan_once_fuel (s : str) :
  json.scan_once (json.fuel_for s) (json.skip_ws s) <> OutOfFuel.
Proof.
  pose proof (skip_ws_length s) as Hw.
  apply (proj1 (scan_fuel (json.fuel_for s))). unfold json.fuel_for. lia.
Qed.

(** The same for the parser of literals. *)

Lemma span_digits_app (s ds r : str) : span_digits s = (ds, r) -> s = ds ++ r.
Proof.
  revert ds r; induction s as [|c s IH]; intros ds r H; cbn [span_digits] in H.
  - now injection H as <- <-.
  - destruct (is_digit c).
    + destruct (span_digits s) as [ds' r'] eqn:E. injection H as <- <-.
      cbn [app]. now rewrite (IH _ _ eq_refl) at 1.
    + now injection H as <- <-.
Qed.

Lemma match_number_app (s : str) (m : json.number_match) :
  json.match_number s = Some m ->
  json.num_int m <> [] /\
  s = json.sign_text (json.num_neg m) ++ json.num_int m ++ json.num_frac m
        ++ json.num_exp m ++ json.num_rest m.
Proof.
  unfold json.match_number. intros H.
  destruct (match s with
            | [] => (false, s)
            | c :: s' => if c =? MINUS then (true, s') else (false, s)
            end) as [neg s0] eqn:E0.
  assert (s = json.sign_text neg ++ s0) as Hs.
  { destruct s as [|c s']; [now injection E0 as <- <-|].
    destruct (c =? MINUS) eqn:Ec; injection E0 as <- <-; [|reflexivity].
    apply N.eqb_eq in Ec. now subst c. }
  destruct (json.scan_int_part s0) as [[i s1]|] eqn:E1; [|discriminate].
  destruct (json.scan_frac s1) as [f s2] eqn:E2.
  destruct (json.scan_exp s2) as [e s3] eqn:E3.
  injection H as <-.
  cbn [json.num_neg json.num_int json.num_frac json.num_exp json.num_rest].
  assert (i <> [] /\ s0 = i ++ s1) as [Hi ->].
  { unfold json.scan_int_part in E1. destruct s0 as [|c s']; [discriminate|].
    destruct (c =? 48); [injection E1 as <- <-; split; [discriminate | reflexivity]|].
    destruct (is_digit c); [|discriminate].
    destruct (span_digits s') as [ds r] eqn:Es. injection E1 as <- <-.
    apply span_digits_app in Es. subst s'. split; [discriminate | reflexivity]. }
  assert (s1 = f ++ s2) as ->.
  { unfold json.scan_frac in E2.
    destruct s1 as [|dot [|d s']]; try now injection E2 as <- <-.
    destruct ((dot =? 46) && is_digit d); [|now injection E2 as <- <-].
    destruct (span_digits s') as [ds r] eqn:Es. injection E2 as <- <-.
    apply span_digits_app in Es. now subst s'. }
  assert (s2 = e ++ s3) as ->.
  { unfold json.scan_exp in E3.
    destruct s2 as [|letter [|c s']]; try now injection E3 as <- <-.
    destruct ((letter =? 101) || (letter =? 69)); [|now injection E3 as <- <-].
    destruct (is_digit c).
    - destruct (span_digits s') as [ds r] eqn:Es. injection E3 as <- <-.
      apply span_digits_app in Es. now subst s'.
    - destruct ((c =? 43) || (c =? 45)); [|now injection E3 as <- <-].
      destruct s' as [|d s3']; [now injection E3 as <- <-|].
      destruct (is_digit d); [|now injection E3 as <- <-].
      destruct (span_digits s3') as [ds r] eqn:Es. injection E3 as <- <-.
      apply span_digits_app in Es. now subst s3'. }
  split; [exact Hi | exact Hs].
Qed.

Lemma scan_quoted_length (q : char) (s t rest : str) :
  ast.scan_quoted q s = Some (t, rest) -> (length rest < length s)%nat.
Proof.
  revert t; induction s as [|c s IH]; intros t H; [discriminate|].
  cbn [ast.scan_quoted] in H. cbn [length].
  destruct (c =? q); [injection H as _ <-; lia|].
  destruct ((c =? BACKSLASH) || (c =? 10) || (c =? 13)); [discriminate|].
  destruct (ast.scan_quoted q s) as [[t' r']|]; [|discriminate].
  injection H as _ <-. specialize (IH t' eq_refl). lia.
Qed.

Lemma parse_scalar_length (s : str) : fueled (ast.parse_scalar s) s.
Proof.
  unfold ast.parse_scalar. destruct s as [|c s']; [apply fueled_NoScan|].
  destruct ((c =? ast.SQUOTE) || (c =? DQUOTE)).
  - destruct (ast.scan_quoted c s') as [[t r]|] eqn:E; [|apply fueled_NoScan].
    apply fueled_Scanned. apply scan_quoted_length in E. cbn [length]. lia.
  - assert (forall kw r, kw <> [] -> eat kw (c :: s') = Some r ->
                         (length r < length (c :: s'))%nat) as Hkw.
    { intros kw r Hne E. apply eat_Some in E. rewrite E, length_app.
      destruct kw; [contradiction | cbn [length]; lia]. }
    destruct (eat (lit "None") (c :: s')) as [r|] eqn:E1;
      [apply fueled_Scanned; now apply (Hkw (lit "None"))|].
    destruct (eat (lit "True") (c :: s')) as [r|] eqn:E2;
      [apply fueled_Scanned; now apply (Hkw (lit "True"))|].
    destruct (eat (lit "False") (c :: s')) as [r|] eqn:E3;
      [apply fueled_Scanned; now apply (Hkw (lit "False"))|].
    destruct (json.match_number (c :: s')) as [m|] eqn:E; [|apply fueled_NoScan].
    apply fueled_Scanned. destruct (match_number_app _ _ E) as [Hi Hs].
    rewrite Hs. rewrite !length_app.
    destruct (json.num_int m); [contradiction | cbn [length]; lia].
Qed.

Lemma skip_blank_length (s : str) : (length (ast.skip_blank s) <= length s)%nat.
Proof. apply lstrip_by_length. Qed.

Lemma parse_fuel (fuel : nat) :
  (forall s, (2 * length s < fuel)%nat -> fueled (ast.parse_expr fuel s) s) /\
  (forall close s, (2 * length s + 1 < fuel)%nat ->
                   fueled (ast.parse_seq fuel close s) s) /\
  (forall s, (2 * length s + 1 < fuel)%nat ->
             fueled (ast.parse_pairs fuel s) s).
Proof.
  induction fuel as [|fuel (IH1 & IH2 & IH3)];
    [repeat split; intros; lia|].
  repeat apply conj.
  - intros s Hf. cbn [ast.parse_expr].
    destruct s as [|c s']; [apply fueled_NoScan|]. cbn [length] in Hf.
    pose proof (skip_blank_length s') as Hw.
    destruct (c =? LBRACKET).
    { apply (fueled_map ast.List _ _ (ast.skip_blank s')); [|cbn [length]; lia].
      apply IH2. lia. }
    destruct (c =? LBRACE); [|apply parse_scalar_length].
    destruct (ast.skip_blank s') as [|c1 r1]; [apply fueled_NoScan|].
    cbn [length] in Hw.
    destruct (c1 =? RBRACE); [apply fueled_Scanned; cbn [length]; lia|].
    destruct (IH1 (c1 :: r1)) as [Hn Hl]; [cbn [length]; lia|].
    destruct (ast.parse_expr fuel (c1 :: r1)) as [e1 r2| |];
      [| apply fueled_NoScan | contradiction].
    specialize (Hl e1 r2 eq_refl). cbn [length] in Hl.
    pose proof (skip_blank_length r2) as Hw2.
    destruct (ast.skip_blank r2) as [|d r3]; [apply fueled_NoScan|].
    cbn [length] in Hw2. pose proof (skip_blank_length r3) as Hw3.
    destruct (d =? COLON).
    { destruct (IH1 (ast.skip_blank r3)) as [Hn' Hl']; [lia|].
      destruct (ast.parse_expr fuel (ast.skip_blank r3)) as [v1 r4| |];
        [| apply fueled_NoScan | contradiction].
      specialize (Hl' v1 r4 eq_refl). pose proof (skip_blank_length r4) as Hw4.
      destruct (ast.skip_blank r4) as [|d' r5]; [apply fueled_NoScan|].
      cbn [length] in Hw4. pose proof (skip_blank_length r5) as Hw5.
      destruct (d' =? RBRACE); [apply fueled_Scanned; cbn [length]; lia|].
      destruct (d' =? COMMA); [|apply fueled_NoScan].
      apply (fueled_map (fun ps => ast.Dict ((e1, v1) :: ps)) _ _
               (ast.skip_blank r5)); [|cbn [length]; lia].
      apply IH3. lia. }
    destruct (d =? RBRACE); [apply fueled_Scanned; cbn [length]; lia|].
    destruct (d =? COMMA); [|apply fueled_NoScan].
    apply (fueled_map (fun es => ast.Set_ (e1 :: es)) _ _ (ast.skip_blank r3));
      [|cbn [length]; lia].
    apply IH2. lia.
  - intros close s Hf. cbn [ast.parse_seq].
    destruct s as [|c r]; [apply fueled_NoScan|].
    destruct (c =? close); [apply fueled_Scanned; cbn [length]; lia|].
    destruct (IH1 (c :: r)) as [Hn Hl]; [lia|].
    destruct (ast.parse_expr fuel (c :: r)) as [e r1| |];
      [| apply fueled_NoScan | contradiction].
    specialize (Hl e r1 eq_refl). pose proof (skip_blank_length r1) as Hw1.
    destruct (ast.skip_blank r1) as [|d r2]; [apply fueled_NoScan|].
    cbn [length] in Hw1. pose proof (skip_blank_length r2) as Hw2.
    destruct (d =? close); [apply fueled_Scanned; lia|].
    destruct (d =? COMMA); [|apply fueled_NoScan].
    apply (fueled_map (cons e) _ _ (ast.skip_blank r2)); [|lia].
    apply IH2. lia.
  - intros s Hf. cbn [ast.parse_pairs].
    destruct s as [|c r]; [apply fueled_NoScan|].
    destruct (c =? RBRACE); [apply fueled_Scanned; cbn [length]; lia|].
    destruct (IH1 (c :: r)) as [Hn Hl]; [lia|].
    destruct (ast.parse_expr fuel (c :: r)) as [k r1| |];
      [| apply fueled_NoScan | contradiction].
    specialize (Hl k r1 eq_refl). pose proof (skip_blank_length r1) as Hw1.
    destruct (ast.skip_blank r1) as [|d r2]; [apply fueled_NoScan|].
    cbn [length] in Hw1. pose proof (skip_blank_length r2) as Hw2.
    destruct (d =? COLON); [|apply fueled_NoScan].
    destruct (IH1 (ast.skip_blank r2)) as [Hn' Hl']; [lia|].
    destruct (ast.parse_expr fuel (ast.skip_blank r2)) as [v r3| |];
      [| apply fueled_NoScan | contradiction].
    specialize (Hl' v r3 eq_refl). pose proof (skip_blank_length r3) as Hw3.
    destruct (ast.skip_blank r3) as [|d' r4]; [apply fueled_NoScan|].
    cbn [length] in Hw3. pose proof (skip_blank_length r4) as Hw4.
    destruct (d' =? RBRACE); [apply fueled_Scanned; lia|].
    destruct (d' =? COMMA); [|apply fueled_NoScan].
    apply (fueled_map (cons (k, v)) _ _ (ast.skip_blank r4)); [|lia].
    apply IH3. lia.
Qed.

Lemma parse_expr_fuel (s : str) :
  ast.parse_expr (ast.fuel_for s) s <> OutOfFuel.
Proof. apply (proj1 (parse_fuel (ast.fuel_for s))). unfold ast.fuel_for. lia. Qed.

(** * Properties of the service *)

(** ** More on strings *)

Lemma lstrip_by_idem (p : char -> bool) (s : str) :
  lstrip_by p (lstrip_by p s) = lstrip_by p s.
Proof.
  induction s as [|c s IH]; simpl; [reflexivity|].
  destruct (p c) eqn:E; [exact IH|]. simpl. now rewrite E.
Qed.

Lemma lstrip_by_suffix (p : char -> bool) (s : str) :
  exists pre, s = pre ++ lstrip_by p s.
Proof. exists (takewhile p s). apply lstrip_by_takewhile. Qed.

Lemma rstrip_by_prefix (p : char -> bool) (s : str) :
  exists post, s = rstrip_by p s ++ post.
Proof.
  unfold rstrip_by. destruct (lstrip_by_suffix p (rev s)) as [pre H].
  exists (rev pre). rewrite <- rev_app_distr, <- H. now rewrite rev_involutive.
Qed.

Lemma rstrip_by_idem (p : char -> bool) (s : str) :
  rstrip_by p (rstrip_by p s) = rstrip_by p s.
Proof. unfold rstrip_by. now rewrite rev_involutive, lstrip_by_idem. Qed.

Lemma head_ok_lstrip (p : char -> bool) (s : str) :
  head_ok (fun c => negb (p c)) (lstrip_by p s) = true.
Proof.
  induction s as [|c s IH]; simpl; [reflexivity|].
  destruct (p c) eqn:E; [exact IH|]. simpl. now rewrite E.
Qed.

Lemma lstrip_by_fixed (p : char -> bool) (s : str) :
  head_ok (fun c => negb (p c)) s = true -> lstrip_by p s = s.
Proof.
  destruct s as [|c s]; simpl; [reflexivity|].
  now destruct (p c).
Qed.

Lemma head_ok_prefix (q : char -> bool) (s t post : str) :
  s = t ++ post -> head_ok q s = true -> head_ok q t = true.
Proof. intros -> H. destruct t; [reflexivity | exact H]. Qed.

(** [strip] takes a piece out of the middle of the text, and trimming a
    trimmed text changes nothing. *)
Lemma strip_by_infix (p : char -> bool) (s : str) :
  exists pre post, s = pre ++ strip_by p s ++ post.
Proof.
  unfold strip_by.
  destruct (lstrip_by_suffix p s) as [pre H].
  destruct (rstrip_by_prefix p (lstrip_by p s)) as [post H'].
  exists pre, post. now rewrite <- H', <- H.
Qed.

Lemma strip_by_idem (p : char -> bool) (s : str) :
  strip_by p (strip_by p s) = strip_by p s.
Proof.
  unfold strip_by.
  destruct (rstrip_by_prefix p (lstrip_by p s)) as [post H].
  rewrite (lstrip_by_fixed p (rstrip_by p (lstrip_by p s))).
  - apply rstrip_by_idem.
  - apply (head_ok_prefix _ _ _ _ H), head_ok_lstrip.
Qed.

Lemma str_eqb_eq (a b : str) : str_eqb a b = true <-> a = b.
Proof.
  revert b; induction a as [|x a IH]; intros [|y b]; simpl;
    try (split; [discriminate | discriminate]); [tauto|].
  rewrite andb_true_iff, N.eqb_eq, IH.
  split; [intros [-> ->]; reflexivity | intros H; injection H; auto].
Qed.

Lemma str_eqb_refl (a : str) : str_eqb a a = true.
Proof. now apply str_eqb_eq. Qed.

(** ** [str.replace] *)

Lemma replace_go_skip (old new xs rest : str) :
  replace_go old new (length xs) (xs ++ rest) = replace_go old new 0 rest.
Proof.
  induction xs as [|x xs IH]; [reflexivity | exact IH].
Qed.

Lemma replace_go_same (a : char) (old : str) (n : nat) :
  forall s, (length s <= n)%nat ->
            replace_go (a :: old) (a :: old) 0 s = s.
Proof.
  induction n as [|n IH]; intros [|c s] H; try reflexivity;
    [simpl in H; lia|].
  cbn [replace_go].
  destruct (startswith (c :: s) (a :: old)) eqn:E.
  - apply startswith_split in E as [rest Hr].
    simpl in Hr. injection Hr as -> ->.
    cbn [length pred]. rewrite replace_go_skip, IH; [reflexivity|].
    simpl in H. rewrite length_app in H. lia.
  - f_equal. apply IH. simpl in H. lia.
Qed.

Lemma replace_same (old s : str) : replace old old s = s.
Proof.
  destruct old as [|a old]; simpl.
  - induction s as [|c s IH]; simpl; [reflexivity | now rewrite IH].
  - now apply (replace_go_same a old (length s)).
Qed.

(** ** chat_proxy.py *)

Lemma get_dict (d : list (value * value)) (key : str) :
  chat_proxy.get (PyDict d) key PyNone = Returned (dict_get d (PyStr key)).
Proof.
  unfold chat_proxy.get. destruct (has_key d key) eqn:E; [reflexivity|].
  now rewrite dict_get_missing.
Qed.

Lemma first_dict (choices : value) (choice : list (value * value)) :
  chat_proxy.first choices = Returned (PyDict choice) <->
  first_choice choices choice.
Proof.
  unfold first_choice. split.
  - destruct choices as [| | | |s|l|d|l]; try discriminate.
    + destruct s; discriminate.
    + destruct l as [|x l]; [discriminate|]. intros H. injection H as ->.
      left. now exists l.
    + cbn. destruct (chat_proxy.lookup_zero d) eqn:E; [|discriminate].
      intros H. injection H as ->. right. now exists d.
  - intros [[rest ->] | (d & -> & H)]; cbn; [reflexivity | now rewrite H].
Qed.

Lemma get_Returned (obj : value) (key : str) (default v : value) :
  chat_proxy.get obj key default = Returned v ->
  exists d, obj = PyDict d /\
            v = if has_key d key then dict_get d (PyStr key) else default.
Proof.
  destruct obj; try discriminate. cbn. intros H. injection H as <-.
  now exists items.
Qed.

(** What [_call] does with a reply of status 200 whose [choices] is there
    and not empty *)
Lemma call_choices (d : list (value * value)) :
  has_key d (lit "choices") = true ->
  truthy (dict_get d (PyStr (lit "choices"))) = true ->
  chat_proxy._call 200 (PyDict d) =
  (choice <~ chat_proxy.first (dict_get d (PyStr (lit "choices"))) ;;
   message <~ chat_proxy.get choice (lit "message") (PyDict []) ;;
   finish_reason <~ chat_proxy.get choice (lit "finish_reason") PyNone ;;
   if chat_proxy.equals_str finish_reason chat_proxy.TOOL_CALLS
   then Raised chat_proxy.RuntimeError
   else
     content <~ chat_proxy.get message (lit "content") PyNone ;;
     if negb (truthy content) then Raised chat_proxy.RuntimeError
     else Returned content).
Proof.
  intros Hk Ht. unfold chat_proxy._call.
  cbn [Z.eqb Pos.eqb negb chat_proxy.py_in and_then chat_proxy.getitem].
  rewrite Hk. cbn [negb and_then]. rewrite Ht. reflexivity.
Qed.

Lemma call_no_choices (d : list (value * value)) :
  has_key d (lit "choices") = false \/
  truthy (dict_get d (PyStr (lit "choices"))) = false ->
  chat_proxy._call 200 (PyDict d) = Raised chat_proxy.RuntimeError.
Proof.
  intros H. unfold chat_proxy._call.
  cbn [Z.eqb Pos.eqb negb chat_proxy.py_in and_then chat_proxy.getitem].
  destruct (has_key d (lit "choices")) eqn:Hk; [|reflexivity].
  destruct H as [H|H]; [discriminate|].
  cbn [negb and_then]. now rewrite H.
Qed.

Lemma first_choice_truthy (choices : value) (choice : list (value * value)) :
  first_choice choices choice -> truthy choices = true.
Proof.
  intros [[rest ->] | (d & -> & H)]; [reflexivity|].
  destruct d; [discriminate | reflexivity].
Qed.

Lemma call_Returned_dict (status_code : Z) (data content : value) :
  chat_proxy._call status_code data = Returned content ->
  status_code = 200%Z /\ exists d, data = PyDict d.
Proof.
  unfold chat_proxy._call.
  destruct (status_code =? 200)%Z eqn:E; cbn [negb].
  - apply Z.eqb_eq in E. intros H. split; [exact E|].
    destruct data; cbn in H; try discriminate;
      try (now eexists);
      match type of H with
      | context [negb ?b] => destruct b; discriminate
      end.
  - destruct data; discriminate.
Qed.

Lemma get_or_none (d : list (value * value)) (key : str) :
  (if has_key d key then dict_get d (PyStr key) else PyNone)
  = dict_get d (PyStr key).
Proof.
  destruct (has_key d key) eqn:E; [reflexivity|].
  now rewrite dict_get_missing.
Qed.

(** What [_call] does with the first choice once it is known to be an
    object *)
Lemma call_choice (d choice : list (value * value)) :
  has_key d (lit "choices") = true ->
  first_choice (dict_get d (PyStr (lit "choices"))) choice ->
  chat_proxy._call 200 (PyDict d) =
  if chat_proxy.equals_str (dict_get choice (PyStr (lit "finish_reason")))
                           chat_proxy.TOOL_CALLS
  then Raised chat_proxy.RuntimeError
  else
    match message_of choice with
    | PyDict m =>
        if truthy (dict_get m (PyStr (lit "content")))
        then Returned (dict_get m (PyStr (lit "content")))
        else Raised chat_proxy.RuntimeError
    | _ => Raised (chat_proxy.Builtin AttributeError)
    end.
Proof.
  intros Hk Hf.
  rewrite (call_choices _ Hk (first_choice_truthy _ _ Hf)).
  apply first_dict in Hf. rewrite Hf. cbn [and_then chat_proxy.get].
  fold (message_of choice). rewrite get_or_none.
  destruct (chat_proxy.equals_str _ _); [reflexivity|].
  destruct (message_of choice); try reflexivity.
  cbn [chat_proxy.get and_then]. rewrite get_or_none.
  now destruct (truthy _).
Qed.

(** X1: [_call] returns exactly on a reply of status 200 that is an
    object whose [choices] has a first choice that is an object, with a
    [finish_reason] other than [tool_calls] and a message that is an object
    with a truthy [content]; what it returns is that content, of whatever
    type. *)
Theorem call_returns_iff :
  forall (status_code : Z) (data content : value),
    chat_proxy._call status_code data = Returned content <->
    status_code = 200%Z /\
    exists d choice m,
      data = PyDict d /\
      has_key d (lit "choices") = true /\
      first_choice (dict_get d (PyStr (lit "choices"))) choice /\
      message_of choice = PyDict m /\
      chat_proxy.equals_str (dict_get choice (PyStr (lit "finish_reason")))
                            chat_proxy.TOOL_CALLS = false /\
      content = dict_get m (PyStr (lit "content")) /\
      truthy content = true.
Proof.
  intros status_code data content. split.
  - intros H.
    destruct (call_Returned_dict _ _ _ H) as [-> [d ->]].
    split; [reflexivity|].
    destruct (has_key d (lit "choices")) eqn:Hk;
      [|rewrite call_no_choices in H by (now left); discriminate].
    destruct (truthy (dict_get d (PyStr (lit "choices")))) eqn:Ht;
      [|rewrite call_no_choices in H by (now right); discriminate].
    pose proof H as H0.
    rewrite (call_choices _ Hk Ht) in H0.
    destruct (chat_proxy.first _) as [choice|e] eqn:Hf; [|discriminate].
    cbn [and_then] in H0.
    destruct choice as [| | | | | |c|]; try discriminate.
    clear H0. apply first_dict in Hf.
    rewrite (call_choice _ _ Hk Hf) in H.
    destruct (chat_proxy.equals_str _ _) eqn:Hr; [discriminate|].
    destruct (message_of c) as [| | | | | |m|] eqn:Hm; try discriminate.
    destruct (truthy (dict_get m _)) eqn:Hc; [|discriminate].
    injection H as <-.
    exists d, c, m. repeat split; assumption.
  - intros [-> (d & c & m & -> & Hk & Hf & Hm & Hr & -> & Hc)].
    rewrite (call_choice _ _ Hk Hf), Hr, Hm. now rewrite Hc.
Qed.

Lemma call_status (status_code : Z) (data : value) :
  status_code <> 200%Z ->
  chat_proxy._call status_code data =
  match data with
  | PyDict _ => Raised chat_proxy.RuntimeError
  | _ => Raised (chat_proxy.Builtin AttributeError)
  end.
Proof.
  intros H. unfold chat_proxy._call.
  apply Z.eqb_neq in H. rewrite H. now destruct data.
Qed.

(** X2: on a reply of the shape the endpoint documents, whatever its
    status, [_call] fails with [RuntimeError] and nothing else. *)
Theorem call_api_errors :
  forall (status_code : Z) (data : value) (e : chat_proxy.error),
    api_shaped data ->
    chat_proxy._call status_code data = Raised e ->
    e = chat_proxy.RuntimeError.
Proof.
  intros status_code data e (d & -> & Hshape) H.
  destruct (Z.eq_dec status_code 200) as [->|Hs].
  - destruct (has_key d (lit "choices")) eqn:Hk;
      [|rewrite call_no_choices in H by (now left); congruence].
    destruct (Hshape eq_refl) as (items & Hi & Hfirst).
    destruct items as [|x rest].
    + rewrite call_no_choices in H by (right; now rewrite Hi). congruence.
    + destruct (Hfirst x rest eq_refl) as (choice & -> & m & Hm).
      rewrite (call_choice d choice Hk) in H
        by (left; exists rest; exact Hi).
      rewrite Hm in H.
      destruct (chat_proxy.equals_str _ _); [congruence|].
      destruct (truthy _); congruence.
  - rewrite (call_status _ _ Hs) in H. congruence.
Qed.

Lemma call_api_errors_witness :
  api_shaped REPLY_ERROR /\
  chat_proxy._call 401 REPLY_ERROR = Raised chat_proxy.RuntimeError.
Proof.
  assert (api_shaped REPLY_ERROR) as Hs.
  { eexists. split; [reflexivity | discriminate]. }
  split; [exact Hs|].
  destruct (chat_proxy._call 401 REPLY_ERROR) as [v|e] eqn:E;
    [discriminate|].
  now rewrite (call_api_errors 401 REPLY_ERROR e Hs E).
Defined.

(** X3: off that shape other exceptions escape: a reply of another
    status that is not an object fails with [AttributeError] while its
    message is formatted, and so does a first choice whose [message] is
    [null], where a choice without the key fails with the [RuntimeError] for
    a missing content: the default of [get] covers the absent key only. *)
Theorem call_off_shape :
  (forall (status_code : Z) (data : value),
      status_code <> 200%Z -> (forall d, data <> PyDict d) ->
      chat_proxy._call status_code data
      = Raised (chat_proxy.Builtin AttributeError))
  /\
  (forall (d choice : list (value * value)) (rest : list value),
      has_key d (lit "choices") = true ->
      dict_get d (PyStr (lit "choices")) = PyList (PyDict choice :: rest) ->
      chat_proxy.equals_str (dict_get choice (PyStr (lit "finish_reason")))
                            chat_proxy.TOOL_CALLS = false ->
      (has_key choice (lit "message") = false ->
       chat_proxy._call 200 (PyDict d) = Raised chat_proxy.RuntimeError)
      /\
      (has_key choice (lit "message") = true ->
       dict_get choice (PyStr (lit "message")) = PyNone ->
       chat_proxy._call 200 (PyDict d)
       = Raised (chat_proxy.Builtin AttributeError))).
Proof.
  split.
  - intros status_code data Hs Hd. rewrite (call_status _ _ Hs).
    destruct data; try reflexivity. now destruct (Hd items).
  - intros d choice rest Hk Hc Hr.
    assert (first_choice (dict_get d (PyStr (lit "choices"))) choice) as Hf
      by (left; now exists rest).
    rewrite (call_choice _ _ Hk Hf), Hr. unfold message_of.
    split.
    + intros Hm. now rewrite Hm.
    + intros Hm Hn. now rewrite Hm, Hn.
Qed.

Lemma call_off_shape_witness :
  chat_proxy._call 502 (PyStr (lit "Bad Gateway"))
  = Raised (chat_proxy.Builtin AttributeError)
  /\ chat_proxy._call 200 REPLY_NULL_MESSAGE
     = Raised (chat_proxy.Builtin AttributeError).
Proof.
  split.
  - apply (proj1 call_off_shape); [discriminate | discriminate].
  - apply (proj2 call_off_shape
             [(PyStr (lit "choices"),
               PyList [PyDict [(PyStr (lit "message"), PyNone);
                               (PyStr (lit "finish_reason"),
                                PyStr (lit "stop"))]])]
             [(PyStr (lit "message"), PyNone);
              (PyStr (lit "finish_reason"), PyStr (lit "stop"))]
             [] eq_refl eq_refl eq_refl); reflexivity.
Defined.

(** ** main.py: the upload form *)

Section FormFacts.

Variable lower : str -> str.

Lemma read_form_cut (before after : list (str * form_value))
    (name : str) (f : UploadFile) :
  is_preferred lower name = true ->
  forall question_text files,
    read_form lower (before ++ (name, File f) :: after) question_text files
    = read_form lower (before ++ [(name, File f)]) question_text files.
Proof.
  intros Hp. induction before as [|[k v] before IH]; intros qt files.
  - cbn [app read_form]. rewrite Hp. destruct (read f); [reflexivity|].
    now destruct (utf8.decode _).
  - cbn [app read_form]. destruct v as [g|t]; [|apply IH].
    destruct (read g); [reflexivity|].
    destruct (is_preferred lower k); [reflexivity|].
    destruct (_ && _ && _); [apply IH|].
    destruct (_ && _ && _); apply IH.
Qed.

Lemma nonempty_Some (x : option str) (test : str -> bool) :
  nonempty x && match x with Some s => test s | None => false end = true ->
  exists s, x = Some s /\ s <> [] /\ test s = true.
Proof.
  destruct x as [[|c s]|]; try discriminate.
  cbn. intros H. exists (c :: s). now repeat split.
Qed.

Lemma read_form_question (items : list (str * form_value)) :
  forall qt files qt' files',
    read_form lower items qt files = Return (qt', files') ->
    qt' = qt \/
    exists field f text,
      In (field, File f) items /\ read f <> [] /\
      utf8.decode (read f) = Some text /\ qt' = Some (strip text) /\
      question_source lower field f.
Proof.
  induction items as [|[k v] items IH]; intros qt files qt' files' H.
  - injection H as <- _. now left.
  - assert (forall q fs,
              read_form lower items q fs = Return (qt', files') ->
              qt' = q \/
              exists field f text,
                In (field, File f) ((k, v) :: items) /\ read f <> [] /\
                utf8.decode (read f) = Some text /\ qt' = Some (strip text) /\
                question_source lower field f) as Hrest.
    { intros q fs Hq. destruct (IH _ _ _ _ Hq) as [E|(fd & f & t & Hin & R)];
        [now left | right].
      exists fd, f, t. split; [now right | exact R]. }
    cbn [read_form] in H. destruct v as [g|t]; [|exact (Hrest _ _ H)].
    destruct (read g) as [|b raw] eqn:Hraw; [discriminate|].
    assert (read g <> []) as Hne by (rewrite Hraw; discriminate).
    rewrite <- Hraw in H.
    assert (forall q fs,
              read_form lower items (decoded_or q (read g)) fs
              = Return (qt', files') ->
              q = qt -> question_source lower k g ->
              qt' = qt \/
              exists field f text,
                In (field, File f) ((k, File g) :: items) /\ read f <> [] /\
                utf8.decode (read f) = Some text /\ qt' = Some (strip text) /\
                question_source lower field f) as Hdec.
    { intros q fs Hq -> Hsrc. unfold decoded_or in Hq.
      destruct (utf8.decode (read g)) as [text|] eqn:Hd;
        [|exact (Hrest _ _ Hq)].
      destruct (Hrest _ _ Hq) as [E|R]; [right | now right].
      exists k, g, text. repeat split; try assumption. now left. }
    destruct (is_preferred lower k) eqn:Hp.
    + destruct (utf8.decode (read g)) as [text|] eqn:Hd; [|discriminate].
      injection H as <- _. right. exists k, g, text.
      repeat split; try assumption; [now left | now left].
    + rewrite <- andb_assoc in H.
      destruct (match qt with None => true | Some _ => false end).
      * cbn [andb] in H.
        destruct (nonempty (filename g) && _) eqn:C1.
        -- apply nonempty_Some in C1. apply (Hdec _ _ H eq_refl).
           right. left. exact C1.
        -- destruct (nonempty (content_type g) && _) eqn:C2;
             [|exact (Hrest _ _ H)].
           apply nonempty_Some in C2. apply (Hdec _ _ H eq_refl).
           right. right. exact C2.
      * exact (Hrest _ _ H).
Qed.

Lemma in_assoc_set {V : Type} (d : list (str * V)) (k0 : str) (v0 : V)
    (k : str) (v : V) :
  In (k, v) (assoc_set d k0 v0) -> (k = k0 /\ v = v0) \/ In (k, v) d.
Proof.
  induction d as [|[k' v'] d IH]; cbn [assoc_set].
  - intros [H|[]]. injection H as <- <-. now left.
  - destruct (str_eqb k' k0) eqn:E.
    + apply str_eqb_eq in E. subst k'.
      intros [H|H]; [injection H as <- <-; now left | right; now right].
    + intros [H|H]; [right; now left|].
      destruct (IH H) as [R|R]; [now left | right; now right].
Qed.

Lemma read_form_files (items : list (str * form_value)) :
  forall qt files qt' files',
    read_form lower items qt files = Return (qt', files') ->
    forall k info, In (k, info) files' ->
      In (k, info) files \/
      exists f, In (k, File f) items /\ info = info_of f /\ read f <> [].
Proof.
  induction items as [|[k0 v] items IH]; intros qt files qt' files' H k info Hin.
  - injection H as _ <-. now left.
  - assert (forall q fs,
              read_form lower items q fs = Return (qt', files') ->
              (forall k info, In (k, info) fs ->
                 In (k, info) files \/
                 exists f, In (k, File f) ((k0, v) :: items) /\
                           info = info_of f /\ read f <> []) ->
              In (k, info) files \/
              exists f, In (k, File f) ((k0, v) :: items) /\
                        info = info_of f /\ read f <> []) as Hrest.
    { intros q fs Hq Hfs.
      destruct (IH _ _ _ _ Hq k info Hin) as [E|(f & Hf & R)].
      - now apply Hfs.
      - right. exists f. split; [now right | exact R]. }
    cbn [read_form] in H. destruct v as [g|t];
      [|apply (Hrest _ _ H); intros; now left].
    destruct (read g) as [|b raw] eqn:Hraw; [discriminate|].
    assert (read g <> []) as Hne by (rewrite Hraw; discriminate).
    rewrite <- Hraw in H. fold (info_of g) in H.
    assert (forall k info,
              In (k, info) (assoc_set files k0 (info_of g)) ->
              In (k, info) files \/
              exists f, In (k, File f) ((k0, File g) :: items) /\
                        info = info_of f /\ read f <> []) as Hset.
    { intros k1 i1 H1. apply in_assoc_set in H1 as [[-> ->]|H1];
        [right | now left].
      exists g. repeat split; [now left | assumption]. }
    destruct (is_preferred lower k0).
    + destruct (utf8.decode (read g)); [|discriminate].
      injection H as _ <-. now apply Hset.
    + destruct (_ && _ && _); [exact (Hrest _ _ H Hset)|].
      destruct (_ && _ && _); exact (Hrest _ _ H Hset).
Qed.

(** The loop passes fields that do not end it, whatever they hold, or
    raises [ValueError] on the way. *)
Lemma read_form_passed (before rest : list (str * form_value)) :
  Forall (passed lower) before ->
  forall qt files,
    read_form lower (before ++ rest) qt files = Raise ValueError \/
    exists qt'' files'',
      read_form lower (before ++ rest) qt files
      = read_form lower rest qt'' files''.
Proof.
  induction 1 as [|[k v] before Hp _ IH]; intros qt files.
  - right. now exists qt, files.
  - cbn [app read_form]. destruct v as [g|t]; [|apply IH].
    unfold passed in Hp. cbn [fst snd] in Hp. rewrite Hp.
    destruct (read g); [now left|].
    destruct (_ && _ && _); [apply IH|].
    destruct (_ && _ && _); apply IH.
Qed.

(** The loop passes harmless fields, recording their files. *)
Lemma read_form_harmless (before rest : list (str * form_value)) :
  Forall (harmless lower) before ->
  forall qt files,
    exists qt'',
      read_form lower (before ++ rest) qt files
      = read_form lower rest qt'' (recorded before files).
Proof.
  induction 1 as [|[k v] before Hp _ IH]; intros qt files.
  - now exists qt.
  - cbn [app read_form recorded fold_left fst snd].
    destruct v as [g|t]; [|apply IH].
    destruct Hp as [Hp Hne]. cbn [fst snd] in Hp, Hne. rewrite Hp.
    destruct (read g) eqn:Hraw; [contradiction|].
    rewrite <- Hraw. fold (info_of g).
    destruct (_ && _ && _); [apply IH|].
    destruct (_ && _ && _); apply IH.
Qed.

Lemma recorded_app (a b : list (str * form_value))
    (files : list (str * file_info)) :
  recorded (a ++ b) files = recorded b (recorded a files).
Proof. apply fold_left_app. Qed.

(** Once a question is found, fields that do not end the loop leave it as
    it is. *)
Lemma read_form_kept (items : list (str * form_value)) :
  Forall (passed lower) items ->
  forall q files,
    read_form lower items (Some q) files = Raise ValueError \/
    exists files', read_form lower items (Some q) files = Return (Some q, files').
Proof.
  induction 1 as [|[k v] items Hp _ IH]; intros q files.
  - right. now exists files.
  - cbn [read_form]. destruct v as [g|t]; [|apply IH].
    unfold passed in Hp. cbn [fst snd] in Hp. rewrite Hp.
    destruct (read g); [now left|]. cbn [andb]. apply IH.
Qed.

End FormFacts.

Lemma extract_Return (lower : str -> str) (form : list (str * form_value))
    (question_text : str) (files : list (str * file_info)) :
  _extract_question_and_files lower form = Return (question_text, files) ->
  read_form lower form None [] = Return (Some question_text, files) /\
  question_text <> [].
Proof.
  unfold _extract_question_and_files.
  destruct (read_form lower form None []) as [[qt fs]|e]; [|discriminate].
  cbn [bind fst snd].
  destruct qt as [[|c q']|]; try discriminate.
  intros H. injection H as <- <-. split; [reflexivity | discriminate].
Qed.

(** X4: the loop over the form ends at the first file whose field
    is one of the preferred names: whatever follows it in the form is neither
    read nor recorded, and changes nothing of the outcome. *)
Theorem extract_stops_at_question :
  forall (lower : str -> str) (before after : list (str * form_value))
         (name : str) (f : UploadFile),
    is_preferred lower name = true ->
    _extract_question_and_files lower (before ++ (name, File f) :: after)
    = _extract_question_and_files lower (before ++ [(name, File f)]).
Proof.
  intros lower before after name f Hp. unfold _extract_question_and_files.
  now rewrite (read_form_cut lower before after name f Hp).
Qed.

Lemma extract_stops_at_question_witness :
  _extract_question_and_files ascii_lower SAMPLE_FORM
  = _extract_question_and_files ascii_lower
      [ (lit "note", Field (lit "hello"));
        (lit "data", File DATA_FILE);
        (lit " Questions.TXT ", File QUESTION_FILE) ].
Proof.
  apply (extract_stops_at_question ascii_lower
           [ (lit "note", Field (lit "hello")); (lit "data", File DATA_FILE) ]
           [ (lit "late", File LATE_FILE) ]
           (lit " Questions.TXT ") QUESTION_FILE).
  reflexivity.
Defined.

(** X5: the question that [_extract_question_and_files] returns is
    not empty and is trimmed, and it is the trimmed UTF-8 text of a file of
    the form that is not empty and whose field is a preferred name, or
    whose file name ends in [.txt], or whose content type starts with
    [text]; a plain field never gives the question. *)
Theorem extract_question :
  forall (lower : str -> str) (form : list (str * form_value))
         (question_text : str) (files : list (str * file_info)),
    _extract_question_and_files lower form = Return (question_text, files) ->
    question_text <> [] /\ strip question_text = question_text /\
    exists field f text,
      In (field, File f) form /\ read f <> [] /\
      utf8.decode (read f) = Some text /\ question_text = strip text /\
      question_source lower field f.
Proof.
  intros lower form q files H.
  destruct (extract_Return lower form q files H) as [E Hq0].
  destruct (read_form_question lower _ _ _ _ _ E)
    as [?|(field & f & text & Hin & Hne & Hd & Hq & Hs)]; [discriminate|].
  injection Hq as Hq.
  split; [exact Hq0|]. split.
  - rewrite Hq. apply strip_by_idem.
  - now exists field, f, text.
Qed.

Lemma extract_question_witness :
  _extract_question_and_files ascii_lower SAMPLE_FORM
  = Return (lit "How many rows?",
            [ (lit "data", info_of DATA_FILE);
              (lit " Questions.TXT ", info_of QUESTION_FILE) ])
  /\ strip (lit "How many rows?") = lit "How many rows?".
Proof.
  assert (_extract_question_and_files ascii_lower SAMPLE_FORM
          = Return (lit "How many rows?",
                    [ (lit "data", info_of DATA_FILE);
                      (lit " Questions.TXT ", info_of QUESTION_FILE) ])) as E
    by reflexivity.
  split; [exact E|].
  exact (proj1 (proj2 (extract_question ascii_lower SAMPLE_FORM _ _ E))).
Defined.

(** X6: every entry of the files returned is an uploaded file of
    the form under its field, with its name, its content type and its
    bytes, and it is not empty. *)
Theorem extract_files :
  forall (lower : str -> str) (form : list (str * form_value))
         (question_text : str) (files : list (str * file_info)),
    _extract_question_and_files lower form = Return (question_text, files) ->
    forall field info, In (field, info) files ->
      exists f, In (field, File f) form /\ info = info_of f /\ read f <> [].
Proof.
  intros lower form q files H field info Hin.
  destruct (extract_Return lower form q files H) as [E _].
  destruct (read_form_files lower _ _ _ _ _ E field info Hin) as [[]|R].
  exact R.
Qed.

Lemma extract_files_witness :
  exists f, In (lit "data", File f) SAMPLE_FORM /\
            info_of DATA_FILE = info_of f /\ read f <> [].
Proof.
  apply (extract_files ascii_lower SAMPLE_FORM (lit "How many rows?")
           [ (lit "data", info_of DATA_FILE);
             (lit " Questions.TXT ", info_of QUESTION_FILE) ]).
  - reflexivity.
  - now left.
Defined.

Lemma extract_raises (lower : str -> str) (form : list (str * form_value)) :
  read_form lower form None [] = Raise ValueError ->
  _extract_question_and_files lower form = Raise ValueError.
Proof. intros H. unfold _extract_question_and_files. now rewrite H. Qed.

(** X7: when the loop reaches it, a file that is empty, or a file
    under a preferred field that is not UTF-8, makes the extraction raise
    [ValueError], whatever the other fields hold. *)
Theorem extract_rejects :
  forall (lower : str -> str) (before after : list (str * form_value))
         (field : str) (f : UploadFile),
    Forall (passed lower) before ->
    read f = [] \/
    (is_preferred lower field = true /\ utf8.decode (read f) = None) ->
    _extract_question_and_files lower (before ++ (field, File f) :: after)
    = Raise ValueError.
Proof.
  intros lower before after field f Hb Hf. apply extract_raises.
  destruct (read_form_passed lower before ((field, File f) :: after) Hb None [])
    as [E|(qt & files & E)]; [exact E|].
  rewrite E. cbn [read_form].
  destruct Hf as [->|[Hp Hd]]; [reflexivity|].
  rewrite Hp, Hd. now destruct (read f).
Qed.

Lemma extract_rejects_witness :
  _extract_question_and_files ascii_lower
    ([ (lit "data", File DATA_FILE) ] ++ (lit "more", File EMPTY_FILE)
       :: [ (lit "question", File QUESTION_FILE) ])
  = Raise ValueError.
Proof.
  apply (extract_rejects ascii_lower).
  - repeat constructor.
  - now left.
Defined.

(** X8: a file under a preferred field, reached over files that
    are not empty, decides the question even when an earlier file was taken
    for it: the result is its trimmed text, with the files up to it. *)
Theorem extract_preferred_wins :
  forall (lower : str -> str) (before after : list (str * form_value))
         (field : str) (f : UploadFile) (text : str),
    Forall (harmless lower) before ->
    is_preferred lower field = true ->
    read f <> [] ->
    utf8.decode (read f) = Some text ->
    strip text <> [] ->
    _extract_question_and_files lower (before ++ (field, File f) :: after)
    = Return (strip text, recorded (before ++ [(field, File f)]) []).
Proof.
  intros lower before after field f text Hb Hp Hne Hd Hs.
  unfold _extract_question_and_files.
  destruct (read_form_harmless lower before ((field, File f) :: after) Hb None [])
    as [qt E].
  rewrite E. cbn [read_form]. rewrite Hp, Hd.
  destruct (read f) eqn:Hraw; [contradiction|]. rewrite <- Hraw.
  cbn [bind fst snd]. rewrite recorded_app.
  destruct (strip text); [contradiction | reflexivity].
Qed.

Lemma extract_preferred_wins_witness :
  _extract_question_and_files ascii_lower SAMPLE_FORM
  = Return (strip (lit "  How many rows?" ++ NL),
            recorded [ (lit "note", Field (lit "hello"));
                       (lit "data", File DATA_FILE);
                       (lit " Questions.TXT ", File QUESTION_FILE) ] []).
Proof.
  apply (extract_preferred_wins ascii_lower
           [ (lit "note", Field (lit "hello")); (lit "data", File DATA_FILE) ]
           [ (lit "late", File LATE_FILE) ]
           (lit " Questions.TXT ") QUESTION_FILE
           (lit "  How many rows?" ++ NL)).
  - repeat constructor; discriminate.
  - reflexivity.
  - discriminate.
  - reflexivity.
  - discriminate.
Defined.

(** X9: a first file that looks like text and holds only
    whitespace sets the question to the empty string, so that no later file
    is consulted by name or type: without a preferred field after it the
    extraction raises [ValueError]. *)
Theorem extract_blank_text_file :
  forall (lower : str -> str) (rest : list (str * form_value))
         (field : str) (f : UploadFile) (text : str),
    is_preferred lower field = false ->
    read f <> [] ->
    (exists name, filename f = Some name /\ name <> [] /\
                  endswith (lower name) (lit ".txt") = true) \/
    (exists type, content_type f = Some type /\ type <> [] /\
                  startswith type (lit "text") = true) ->
    utf8.decode (read f) = Some text ->
    strip text = [] ->
    Forall (passed lower) rest ->
    _extract_question_and_files lower ((field, File f) :: rest)
    = Raise ValueError.
Proof.
  intros lower rest field f text Hp Hne Hsrc Hd Hs Hrest.
  unfold _extract_question_and_files. cbn [read_form]. rewrite Hp.
  assert (forall files,
            r <- read_form lower rest (decoded_or None (read f)) files ;;
            match fst r with
            | Some (c :: question_text) => Return (c :: question_text, snd r)
            | _ => Raise ValueError
            end = Raise ValueError) as Hblank.
  { intros files. unfold decoded_or. rewrite Hd, Hs.
    destruct (read_form_kept lower rest Hrest [] files) as [E|[files' E]];
      now rewrite E. }
  destruct (read f) eqn:Hraw; [contradiction|].
  cbn [andb].
  destruct Hsrc as [(name & Hn & Hn' & He)|(type & Ht & Ht' & Hw)].
  - rewrite Hn. cbv beta iota. rewrite He.
    destruct name; [contradiction|]. apply Hblank.
  - destruct (nonempty (filename f) && _); [apply Hblank|].
    rewrite Ht. cbv beta iota. rewrite Hw.
    destruct type; [contradiction|]. apply Hblank.
Qed.

Lemma extract_blank_text_file_witness :
  _extract_question_and_files ascii_lower
    [ (lit "notes", File BLANK_FILE);
      (lit "more", File {| filename := Some (lit "real.txt");
                           content_type := Some (lit "text/plain");
                           read := list_byte_of_string "What is 2+2?" |}) ]
  = Raise ValueError.
Proof.
  apply (extract_blank_text_file ascii_lower _ (lit "notes") BLANK_FILE
           (lit "   ")).
  - reflexivity.
  - discriminate.
  - left. exists (lit "notes.TXT"). repeat split. discriminate.
  - reflexivity.
  - reflexivity.
  - repeat constructor.
Defined.

(** ** agent_core.py: [handle_query] *)

Lemma locate_url_question (question : str) :
  snd (locate_url question) = question.
Proof.
  unfold locate_url.
  destruct (re.search match_url question); [apply replace_same | reflexivity].
Qed.

Lemma seq_inv {A B : Type} (m : agent.io A) (k : A -> agent.io B)
    (h h' : list agent.event) (out : outcome agent.exception B) :
  agent.seq m k h = (h', out) ->
  (exists h1 a, m h = (h1, Returned a) /\ k a h1 = (h', out)) \/
  (exists e, m h = (h', Raised e) /\ out = Raised e).
Proof.
  unfold agent.seq. destruct (m h) as [h1 [a|e]]; intros H.
  - left. now exists h1, a.
  - right. injection H as <- <-. now exists e.
Qed.

Lemma calls_only_ret {A : Type} (P : agent.event -> Prop) (a : A) :
  calls_only P (agent.ret a).
Proof. intros h h' out H. injection H as <- _. exists []. now rewrite app_nil_r. Qed.

Lemma calls_only_raise {A : Type} (P : agent.event -> Prop)
    (e : agent.exception) :
  calls_only P (@agent.raise A e).
Proof. intros h h' out H. injection H as <- _. exists []. now rewrite app_nil_r. Qed.

Lemma calls_only_seq {A B : Type} (P : agent.event -> Prop)
    (m : agent.io A) (k : A -> agent.io B) :
  calls_only P m -> (forall a, calls_only P (k a)) ->
  calls_only P (agent.seq m k).
Proof.
  intros Hm Hk h h' out H.
  apply seq_inv in H as [(h1 & a & H1 & H2)|(e & H1 & _)].
  - destruct (Hm _ _ _ H1) as (n1 & -> & F1).
    destruct (Hk a _ _ _ H2) as (n2 & -> & F2).
    exists (n1 ++ n2). split; [now rewrite app_assoc | now apply Forall_app].
  - exact (Hm _ _ _ H1).
Qed.

Lemma calls_only_call {A : Type} (P : agent.event -> Prop) (ev : agent.event)
    (answer : list agent.event -> outcome agent.exception A) :
  P ev -> calls_only P (fun h => (h ++ [ev], answer h)).
Proof.
  intros Hev h h' out H. injection H as <- _. exists [ev]. now repeat constructor.
Qed.

Lemma calls_only_pure {A : Type} (P : agent.event -> Prop)
    (r : outcome agent.exception A) :
  calls_only P (fun h => (h, r)).
Proof. intros h h' out H. injection H as <- _. exists []. now rewrite app_nil_r. Qed.

Lemma calls_only_weaken {A : Type} (P Q : agent.event -> Prop) (m : agent.io A) :
  (forall ev, P ev -> Q ev) -> calls_only P m -> calls_only Q m.
Proof.
  intros HPQ Hm h h' out H. destruct (Hm _ _ _ H) as (new & -> & F).
  exists new. split; [reflexivity|]. revert F. apply Forall_impl, HPQ.
Qed.

Section RunFacts.

Variable lower : str -> str.
Variable decimal : char -> option N.
Variable env : agent.environment.

Lemma save_attachments_calls (attachments : list (str * file_info)) :
  forall items file_paths,
    (forall x, In x items -> In x attachments) ->
    calls_only (saves lower attachments)
               (agent.save_attachments lower env items file_paths).
Proof.
  induction items as [|[field info] items IH]; intros file_paths Hsub.
  - apply calls_only_ret.
  - assert (forall fp, calls_only (saves lower attachments)
                         (agent.save_attachments lower env items fp)) as Hrest
      by (intros fp; apply IH; intros x Hx; apply Hsub; now right).
    cbn [agent.save_attachments].
    destruct (is_preferred lower field) eqn:Hp; [apply Hrest|].
    destruct (info_filename info) as [[|c name]|] eqn:Hn; try apply Hrest.
    destruct (info_bytes info) as [data|] eqn:Hb; [|apply Hrest].
    apply calls_only_seq; [|intros _; apply Hrest].
    apply calls_only_call.
    exists field, info, (c :: name), data.
    repeat split; try assumption; [apply Hsub; now left | discriminate].
Qed.

Lemma attempts_calls (question : str) (remaining : nat) :
  forall attempt,
    calls_only (attempt_call question)
               (agent.attempts decimal env remaining attempt question).
Proof.
  induction remaining as [|remaining IH]; intros attempt.
  - apply calls_only_ret.
  - cbn [agent.attempts]. apply calls_only_seq.
    + apply calls_only_call. now left.
    + intros [e|result]; [|apply calls_only_ret].
      destruct (agent.is_Exception e); [|apply calls_only_raise].
      destruct (contains _ _); [|apply calls_only_raise].
      apply calls_only_seq; [apply calls_only_pure|]. intros t.
      apply calls_only_seq; [apply calls_only_call; right; now exists t|].
      intros _. destruct (Nat.eqb _ _); [apply calls_only_raise | apply IH].
Qed.

Lemma remove_files_calls (paths : list str) :
  calls_only (fun ev => cleanup_call ev = true) (agent.remove_files env paths).
Proof.
  induction paths as [|path paths IH]; [apply calls_only_ret|].
  cbn [agent.remove_files]. apply calls_only_seq.
  - now apply calls_only_call.
  - intros there. apply calls_only_seq; [|intros _; exact IH].
    destruct there; [now apply calls_only_call | apply calls_only_ret].
Qed.

(** One turn of the loop *)
Lemma attempts_step (remaining attempt : nat) (question : str)
    (h : list agent.event) :
  agent.attempts decimal env (S remaining) attempt question h =
  let h1 := h ++ [agent.Invoke question] in
  match agent.invoke env h question with
  | inr result => (h1, Returned (Some result))
  | inl e =>
      if agent.is_Exception e && contains agent.RATE_LIMIT (agent.message e)
      then
        match agent.wait_time decimal (agent.message e) with
        | Raised v => (h1, Raised v)
        | Returned seconds =>
            let h2 := h1 ++ [agent.Sleep seconds] in
            match agent.sleep env h1 seconds with
            | Some e' => (h2, Raised (agent.Thrown e'))
            | None =>
                if Nat.eqb attempt 2
                then (h2, Raised (agent.Exception
                                    (lit "Rate limit exceeded after max retries")))
                else agent.attempts decimal env remaining (S attempt) question h2
            end
        end
      else (h1, Raised (agent.Thrown e))
  end.
Proof.
  cbn [agent.attempts]. unfold agent.seq at 1. cbv zeta.
  destruct (agent.invoke env h question) as [e|result]; [|reflexivity].
  destruct (agent.is_Exception e); [|reflexivity].
  destruct (contains _ _); [|reflexivity]. cbn [andb].
  unfold agent.seq at 1.
  destruct (agent.wait_time decimal (agent.message e)) as [t|v]; [|reflexivity].
  unfold agent.seq at 1.
  destruct (agent.sleep env _ t); [reflexivity|]. cbn [agent.answered].
  change (agent.max_retries - 1)%nat with 2%nat.
  now destruct (Nat.eqb attempt 2).
Qed.

Lemma invocations_app (a b : list agent.event) :
  invocations (a ++ b) = invocations a ++ invocations b.
Proof. apply flat_map_app. Qed.

Lemma sleeps_app (a b : list agent.event) :
  sleeps (a ++ b) = sleeps a ++ sleeps b.
Proof. apply flat_map_app. Qed.

(** The loop invokes the agent with the question it is given, as many
    times as it has turns at most; the result it returns is the answer to
    an invocation, and with a turn to go it does not run out when it
    starts at the turn that makes the last one the third. *)
Lemma attempts_invocations (question : str) (remaining : nat) :
  forall attempt h h' out,
    agent.attempts decimal env remaining attempt question h = (h', out) ->
    exists new,
      h' = h ++ new /\
      (length (invocations new) <= remaining)%nat /\
      Forall (eq question) (invocations new) /\
      Forall (fun ev => cleanup_call ev = false) new /\
      (forall r, out = Returned (Some r) ->
                 exists h1, agent.invoke env h1 question = inr r) /\
      ((remaining + attempt = 3)%nat -> (0 < remaining)%nat ->
       out <> Returned None).
Proof.
  induction remaining as [|remaining IH]; intros attempt h h' out H.
  - injection H as <- <-. exists []. rewrite app_nil_r.
    split; [reflexivity|]. split; [cbn; lia|].
    split; [constructor|]. split; [constructor|].
    split; [discriminate | lia].
  - rewrite attempts_step in H. cbv zeta in H.
    assert (forall out',
              (forall r, out' = Returned (Some r) ->
                         exists h1, agent.invoke env h1 question = inr r) ->
              out' <> Returned None ->
              (h ++ [agent.Invoke question], out') = (h', out) ->
              exists new,
                h' = h ++ new /\
                (length (invocations new) <= S remaining)%nat /\
                Forall (eq question) (invocations new) /\
                Forall (fun ev => cleanup_call ev = false) new /\
                (forall r, out = Returned (Some r) ->
                           exists h1, agent.invoke env h1 question = inr r) /\
                ((S remaining + attempt = 3)%nat -> (0 < S remaining)%nat ->
                 out <> Returned None)) as Hone.
    { intros out' Hr Hn E. injection E as <- <-.
      exists [agent.Invoke question].
      split; [reflexivity|]. split; [cbn; lia|].
      split; [now repeat constructor|]. split; [now repeat constructor|].
      split; [exact Hr | intros _ _; exact Hn]. }
    assert (forall t out',
              (forall r, out' <> Returned r) ->
              (((h ++ [agent.Invoke question]) ++ [agent.Sleep t]), out')
              = (h', out) ->
              exists new,
                h' = h ++ new /\
                (length (invocations new) <= S remaining)%nat /\
                Forall (eq question) (invocations new) /\
                Forall (fun ev => cleanup_call ev = false) new /\
                (forall r, out = Returned (Some r) ->
                           exists h1, agent.invoke env h1 question = inr r) /\
                ((S remaining + attempt = 3)%nat -> (0 < S remaining)%nat ->
                 out <> Returned None)) as Htwo.
    { intros t out' Hr E. injection E as <- <-.
      exists [agent.Invoke question; agent.Sleep t].
      rewrite <- app_assoc.
      split; [reflexivity|]. split; [cbn; lia|].
      split; [now repeat constructor|]. split; [now repeat constructor|].
      split; [|intros _ _; apply Hr].
      intros r Hret. now destruct (Hr (Some r)). }
    destruct (agent.invoke env h question) as [e|result] eqn:Hi.
    + destruct (agent.is_Exception e && _);
        [|apply (Hone _) in H; [exact H | discriminate | discriminate]].
      destruct (agent.wait_time decimal (agent.message e)) as [t|v];
        [|apply (Hone _) in H; [exact H | discriminate | discriminate]].
      destruct (agent.sleep env _ t);
        [apply (Htwo t _) in H; [exact H | discriminate]|].
      destruct (Nat.eqb attempt 2) eqn:Ha;
        [apply (Htwo t _) in H; [exact H | discriminate]|].
      apply IH in H as (new & -> & Hlen & Hq & Hc & Hr & Hn).
      exists (agent.Invoke question :: agent.Sleep t :: new).
      rewrite <- !app_assoc. cbn [app].
      split; [reflexivity|].
      split; [change (S (length (invocations new)) <= S remaining)%nat; lia|].
      split; [now constructor|]. split; [now repeat constructor|].
      split; [exact Hr|].
      intros Hsum _. apply Nat.eqb_neq in Ha. apply Hn; lia.
    + apply (Hone _) in H; [exact H | | discriminate].
      intros r E. injection E as <-. now exists h.
Qed.

Lemma raises_only_seq {A B : Type} (Q : agent.exception -> Prop)
    (m : agent.io A) (k : A -> agent.io B) :
  raises_only Q m -> (forall a, raises_only Q (k a)) ->
  raises_only Q (agent.seq m k).
Proof.
  intros Hm Hk h h' e H.
  apply seq_inv in H as [(h1 & a & H1 & H2)|(e' & H1 & E)].
  - exact (Hk a _ _ _ H2).
  - injection E as ->. exact (Hm _ _ _ H1).
Qed.

Lemma raises_only_ret {A : Type} (Q : agent.exception -> Prop) (a : A) :
  raises_only Q (agent.ret a).
Proof. intros h h' e H. discriminate. Qed.

Lemma raises_only_call (Q : agent.exception -> Prop)
    (call : list agent.event -> list agent.event)
    (answer : list agent.event -> option agent.thrown) :
  (forall e, Q (agent.Thrown e)) ->
  raises_only Q (fun h => (call h, agent.answered (answer h))).
Proof.
  intros HQ h h' e H. injection H as _ H.
  destruct (answer h); [injection H as <-; apply HQ | discriminate].
Qed.

Lemma save_attachments_bound (items : list (str * file_info)) :
  forall file_paths,
    raises_only bound (agent.save_attachments lower env items file_paths).
Proof.
  induction items as [|[field info] items IH]; intros file_paths.
  - apply raises_only_ret.
  - cbn [agent.save_attachments].
    destruct (is_preferred lower field); [apply IH|].
    destruct (info_filename info) as [[|c name]|]; try apply IH.
    destruct (info_bytes info) as [data|]; [|apply IH].
    apply raises_only_seq; [|intros _; apply IH].
    apply raises_only_call. discriminate.
Qed.

Lemma remove_files_bound (paths : list str) :
  raises_only bound (agent.remove_files env paths).
Proof.
  induction paths as [|path paths IH]; [apply raises_only_ret|].
  cbn [agent.remove_files]. apply raises_only_seq.
  - intros h h' e H. discriminate.
  - intros there. apply raises_only_seq; [|intros _; exact IH].
    destruct there; [|apply raises_only_ret].
    apply raises_only_call. discriminate.
Qed.

Lemma wait_time_bound (text : str) (e : agent.exception) :
  agent.wait_time decimal text = Raised e -> bound e.
Proof.
  unfold agent.wait_time. destruct (re.search _ _); [|discriminate].
  destruct (agent.float_of _ _); [discriminate|].
  intros H. injection H as <-. discriminate.
Qed.

Lemma attempts_bound (question : str) (remaining : nat) :
  forall attempt,
    raises_only bound (agent.attempts decimal env remaining attempt question).
Proof.
  induction remaining as [|remaining IH]; intros attempt h h' e H;
    [discriminate|].
  rewrite attempts_step in H. cbv zeta in H.
  destruct (agent.invoke env h question) as [t|result]; [|discriminate].
  destruct (_ && _); [|injection H as _ <-; discriminate].
  destruct (agent.wait_time decimal _) as [s|v] eqn:W;
    [|injection H as _ <-; exact (wait_time_bound _ _ W)].
  destruct (agent.sleep env _ s); [injection H as _ <-; discriminate|].
  destruct (Nat.eqb attempt 2); [injection H as _ <-; discriminate|].
  exact (IH _ _ _ _ H).
Qed.

Lemma handle_query_unfold (question : str) (attachments : list (str * file_info)) :
  agent.handle_query lower decimal env question attachments =
  agent.seq (agent.save_attachments lower env attachments [])
    (fun file_paths =>
       agent.seq (agent.attempts decimal env agent.max_retries 0 question)
         (fun result =>
            agent.seq (agent.remove_files env (map snd file_paths))
              (fun _ => match result with
                        | Some result => agent.ret result
                        | None => agent.raise agent.UnboundLocalError
                        end))).
Proof. unfold agent.handle_query. now rewrite locate_url_question. Qed.

Lemma saves_not_cleanup (attachments : list (str * file_info))
    (w : list agent.event) :
  Forall (saves lower attachments) w ->
  Forall (fun ev => cleanup_call ev = false) w /\ invocations w = [].
Proof.
  induction 1 as [|ev w (f & i & n & d & _ & _ & _ & _ & _ & ->) _ [IH1 IH2]].
  - now split.
  - split; [now constructor | exact IH2].
Qed.

Lemma cleanup_no_invocations (c : list agent.event) :
  Forall (fun ev => cleanup_call ev = true) c -> invocations c = [].
Proof.
  induction 1 as [|ev c Hev _ IH]; [reflexivity|].
  destruct ev; try discriminate; exact IH.
Qed.

(** The calls of a run: the writes, the turns of the loop, the calls
    of the last loop, which is reached only with a result. *)
Lemma handle_query_inv (question : str) (attachments : list (str * file_info))
    (h h' : list agent.event) (out : outcome agent.exception value) :
  agent.handle_query lower decimal env question attachments h = (h', out) ->
  exists w l c,
    h' = h ++ w ++ l ++ c /\
    Forall (saves lower attachments) w /\
    Forall (attempt_call question) l /\
    Forall (fun ev => cleanup_call ev = false) l /\
    Forall (fun ev => cleanup_call ev = true) c /\
    (length (invocations l) <= 3)%nat /\
    Forall (eq question) (invocations l) /\
    (forall r, out = Returned r ->
               exists h1, agent.invoke env h1 question = inr r) /\
    (c <> [] -> exists h1 r, agent.invoke env h1 question = inr r) /\
    out <> Raised agent.UnboundLocalError /\
    (forall r, out = Returned r ->
       exists file_paths,
         agent.save_attachments lower env attachments [] h
         = (h ++ w, Returned file_paths) /\
         agent.remove_files env (map snd file_paths) (h ++ w ++ l)
         = (h', Returned tt)).
Proof.
  rewrite handle_query_unfold. intros H.
  apply seq_inv in H as [(h1 & fp & Hs & H)|(e & Hs & ->)].
  - destruct (save_attachments_calls attachments attachments []
                (fun x Hx => Hx) _ _ _ Hs) as (w & -> & Hw).
    apply seq_inv in H as [(h2 & res & Ha & H)|(e & Ha & ->)].
    + destruct (attempts_invocations _ _ _ _ _ _ Ha)
        as (l & -> & Hlen & Hq & Hnc & Hr & Hn).
      destruct (attempts_calls question agent.max_retries 0 _ _ _ Ha)
        as (l' & El & Hl).
      apply app_inv_head in El. subst l'.
      destruct res as [r|]; [|now destruct (Hn eq_refl ltac:(unfold agent.max_retries; lia))].
      destruct (Hr r eq_refl) as [h1 Hinv].
      apply seq_inv in H as [(h3 & [] & Hc & H)|(e & Hc & ->)].
      * destruct (remove_files_calls _ _ _ _ Hc) as (c & -> & Hcl).
        injection H as <- <-.
        exists w, l, c. rewrite <- !app_assoc.
        repeat split; try assumption.
        -- intros r' E. injection E as <-. now exists h1.
        -- intros _. now exists h1, r.
        -- discriminate.
        -- intros r' _. exists fp. split; [exact Hs|].
           rewrite <- !app_assoc in Hc. exact Hc.
      * destruct (remove_files_calls _ _ _ _ Hc) as (c & -> & Hcl).
        exists w, l, c. rewrite <- !app_assoc.
        repeat split; try assumption; try discriminate.
        -- intros _. now exists h1, r.
        -- intros E. injection E as ->.
           exact (remove_files_bound _ _ _ _ Hc eq_refl).
    + destruct (attempts_invocations _ _ _ _ _ _ Ha)
        as (l & -> & Hlen & Hq & Hnc & Hr & Hn).
      destruct (attempts_calls question agent.max_retries 0 _ _ _ Ha)
        as (l' & El & Hl).
      apply app_inv_head in El. subst l'.
      exists w, l, []. rewrite app_nil_r, <- app_assoc.
      repeat split; try assumption; try discriminate; try constructor.
      * now intros [].
      * intros E. injection E as ->.
        exact (attempts_bound _ _ _ _ _ _ Ha eq_refl).
  - destruct (save_attachments_calls attachments attachments []
                (fun x Hx => Hx) _ _ _ Hs) as (w & -> & Hw).
    exists w, [], []. rewrite !app_nil_r.
    repeat split; try assumption; try discriminate; try constructor.
    + cbn. lia.
    + now intros [].
    + intros E. injection E as ->.
      exact (save_attachments_bound _ _ _ _ _ Hs eq_refl).
Qed.

End RunFacts.

(** X10: whatever the environment does, [handle_query] invokes the
    agent at most three times, each time with the question as it was given:
    the step that looks for a URL leaves the question unchanged. *)
Theorem handle_query_invocations :
  forall (lower : str -> str) (decimal : char -> option N)
         (env : agent.environment) (question : str)
         (attachments : list (str * file_info))
         (h h' : list agent.event) (out : outcome agent.exception value),
    agent.handle_query lower decimal env question attachments h = (h', out) ->
    exists new,
      h' = h ++ new /\
      Forall (eq question) (invocations new) /\
      (length (invocations new) <= 3)%nat.
Proof.
  intros lower decimal env question attachments h h' out H.
  destruct (handle_query_inv _ _ _ _ _ _ _ _ H)
    as (w & l & c & -> & Hw & _ & _ & Hc & Hlen & Hq & _).
  exists (w ++ l ++ c). split; [reflexivity|].
  rewrite !invocations_app, (proj2 (saves_not_cleanup _ _ _ Hw)),
    (cleanup_no_invocations _ Hc), app_nil_r.
  now split.
Qed.

Lemma handle_query_invocations_witness :
  exists new,
    [agent.Write (lit "./sales.csv") (read DATA_FILE);
     agent.Invoke (lit "See http://x.org now");
     agent.PathExists (lit "./sales.csv");
     agent.Remove (lit "./sales.csv")] = [] ++ new /\
    Forall (eq (lit "See http://x.org now")) (invocations new) /\
    (length (invocations new) <= 3)%nat.
Proof.
  apply (handle_query_invocations ascii_lower ascii_decimal
           (quiet (inr AGENT_RESULT)) (lit "See http://x.org now")
           SAMPLE_ATTACHMENTS [] _ (Returned AGENT_RESULT)).
  reflexivity.
Defined.

(** X11: a result of [handle_query] is what an invocation of the
    agent returned, and the loop never ends without a result or an
    exception: [UnboundLocalError] is not raised. *)
Theorem handle_query_result :
  forall (lower : str -> str) (decimal : char -> option N)
         (env : agent.environment) (question : str)
         (attachments : list (str * file_info))
         (h h' : list agent.event) (out : outcome agent.exception value),
    agent.handle_query lower decimal env question attachments h = (h', out) ->
    out <> Raised agent.UnboundLocalError /\
    forall result, out = Returned result ->
      exists h1, agent.invoke env h1 question = inr result.
Proof.
  intros lower decimal env question attachments h h' out H.
  destruct (handle_query_inv _ _ _ _ _ _ _ _ H)
    as (w & l & c & _ & _ & _ & _ & _ & _ & _ & Hr & _ & Hb & _).
  now split.
Qed.

Lemma handle_query_result_witness :
  Returned AGENT_RESULT <> Raised agent.UnboundLocalError /\
  forall result,
    (Returned AGENT_RESULT : outcome agent.exception value) = Returned result ->
    exists h1, agent.invoke (quiet (inr AGENT_RESULT)) h1
                 (lit "How many rows?") = inr result.
Proof.
  apply (handle_query_result ascii_lower ascii_decimal
           (quiet (inr AGENT_RESULT)) (lit "How many rows?")
           SAMPLE_ATTACHMENTS []
           [agent.Write (lit "./sales.csv") (read DATA_FILE);
            agent.Invoke (lit "How many rows?");
            agent.PathExists (lit "./sales.csv");
            agent.Remove (lit "./sales.csv")]
           (Returned AGENT_RESULT)).
  reflexivity.
Defined.

(** X12: when no invocation of the agent returns,
    [handle_query] raises and makes no call of the last loop: the files it
    saved are neither looked for nor removed. *)
Theorem files_stay_when_agent_fails :
  forall (lower : str -> str) (decimal : char -> option N)
         (env : agent.environment) (question : str)
         (attachments : list (str * file_info))
         (h h' : list agent.event) (out : outcome agent.exception value),
    (forall h1 result, agent.invoke env h1 question <> inr result) ->
    agent.handle_query lower decimal env question attachments h = (h', out) ->
    (exists e, out = Raised e) /\
    exists new, h' = h ++ new /\ Forall (fun ev => cleanup_call ev = false) new.
Proof.
  intros lower decimal env question attachments h h' out Hfail H.
  destruct (handle_query_inv _ _ _ _ _ _ _ _ H)
    as (w & l & c & -> & Hw & _ & Hl & _ & _ & _ & Hr & Hc & _).
  split.
  - destruct out as [r|e]; [|now exists e].
    destruct (Hr r eq_refl) as [h1 E]. now destruct (Hfail h1 r).
  - destruct c as [|ev c].
    + exists (w ++ l). rewrite app_nil_r. split; [reflexivity|].
      apply Forall_app. split; [|exact Hl].
      exact (proj1 (saves_not_cleanup _ _ _ Hw)).
    + destruct Hc as (h1 & r & E); [discriminate|].
      now destruct (Hfail h1 r).
Qed.

Lemma files_stay_when_agent_fails_witness :
  (exists e, (Raised (agent.Thrown BROKEN) : outcome agent.exception value)
             = Raised e) /\
  exists new,
    [agent.Write (lit "./sales.csv") (read DATA_FILE);
     agent.Invoke (lit "How many rows?")] = [] ++ new /\
    Forall (fun ev => cleanup_call ev = false) new.
Proof.
  apply (files_stay_when_agent_fails ascii_lower ascii_decimal
           (quiet (inl BROKEN)) (lit "How many rows?")
           SAMPLE_ATTACHMENTS [] _ (Raised (agent.Thrown BROKEN))).
  - discriminate.
  - reflexivity.
Defined.

Section CleanupFacts.

Variable lower : str -> str.
Variable env : agent.environment.





End CleanupFacts.



Section RetryFacts.

Variable lower : str -> str.
Variable decimal : char -> option N.
Variable env : agent.environment.

Hypothesis writes_succeed :
  forall h path data, agent.write_file env h path data = None.

Lemma save_attachments_succeeds (items : list (str * file_info)) :
  forall file_paths h,
    exists w fp,
      agent.save_attachments lower env items file_paths h
      = (h ++ w, Returned fp) /\
      invocations w = [] /\ sleeps w = [] /\
      Forall (fun ev => cleanup_call ev = false) w.
Proof.
  induction items as [|[field info] items IH]; intros file_paths h.
  - exists [], file_paths. rewrite app_nil_r. now repeat split.
  - cbn [agent.save_attachments].
    destruct (is_preferred lower field); [apply IH|].
    destruct (info_filename info) as [[|c name]|]; try apply IH.
    destruct (info_bytes info) as [data|]; [|apply IH].
    unfold agent.seq at 1. rewrite writes_succeed. cbn [agent.answered].
    destruct (IH (assoc_set file_paths (c :: name)
                    (posixpath.join (lit ".") (c :: name)))
                 (h ++ [agent.Write (posixpath.join (lit ".") (c :: name)) data]))
      as (w & fp & E & I & S & C).
    exists (agent.Write (posixpath.join (lit ".") (c :: name)) data :: w), fp.
    rewrite E, <- app_assoc. repeat split; try assumption. now constructor.
Qed.

(** A run whose loop over the attempts comes to an exception *)
Lemma handle_query_raises (question : str)
    (attachments : list (str * file_info)) (h : list agent.event)
    (P : list agent.event -> Prop) (e : agent.exception) :
  (forall h1, exists l,
       agent.attempts decimal env agent.max_retries 0 question h1
       = (h1 ++ l, Raised e) /\ P l) ->
  exists w l,
    agent.handle_query lower decimal env question attachments h
    = (h ++ w ++ l, Raised e) /\ P l /\
    invocations w = [] /\ sleeps w = [] /\
    Forall (fun ev => cleanup_call ev = false) w.
Proof.
  intros Hloop. rewrite handle_query_unfold.
  destruct (save_attachments_succeeds attachments [] h) as (w & fp & E & R).
  destruct (Hloop (h ++ w)) as (l & El & Pl).
  exists w, l. split; [|split; [exact Pl | exact R]].
  unfold agent.seq at 1. rewrite E.
  unfold agent.seq at 1. rewrite El. now rewrite <- app_assoc.
Qed.

Hypothesis sleeps_succeed : forall h seconds, agent.sleep env h seconds = None.

(** The loop when every invocation is told to wait *)
Lemma attempts_exhausted (question : str) (remaining : nat) :
  (forall h1, exists e seconds,
       agent.invoke env h1 question = inl e /\
       agent.is_Exception e = true /\
       contains agent.RATE_LIMIT (agent.message e) = true /\
       agent.wait_time decimal (agent.message e) = Returned seconds) ->
  forall attempt h,
    (remaining + attempt = 3)%nat -> (0 < remaining)%nat ->
    exists l,
      agent.attempts decimal env remaining attempt question h
      = (h ++ l, Raised (agent.Exception
                           (lit "Rate limit exceeded after max retries"))) /\
      invocations l = repeat question remaining /\
      length (sleeps l) = remaining /\
      Forall (fun ev => cleanup_call ev = false) l.
Proof.
  intros Hlimited.
  induction remaining as [|remaining IH]; intros attempt h Hsum Hpos; [lia|].
  rewrite attempts_step. cbv zeta.
  destruct (Hlimited h) as (e & t & -> & -> & -> & ->). cbn [andb].
  rewrite sleeps_succeed.
  destruct (Nat.eqb attempt 2) eqn:Ha.
  - apply Nat.eqb_eq in Ha. assert (remaining = 0)%nat as -> by lia.
    exists [agent.Invoke question; agent.Sleep t].
    rewrite <- app_assoc. repeat split. now repeat constructor.
  - apply Nat.eqb_neq in Ha.
    destruct (IH (S attempt) ((h ++ [agent.Invoke question]) ++ [agent.Sleep t]))
      as (l & -> & Hi & Hs & Hc); [lia | lia |].
    exists (agent.Invoke question :: agent.Sleep t :: l).
    rewrite <- !app_assoc. cbn [app]. split; [reflexivity|].
    split; [cbn [invocations flat_map app repeat]; now f_equal|].
    split; [cbn [sleeps flat_map app length]; now f_equal|].
    now repeat constructor.
Qed.

End RetryFacts.

(** X14: when every invocation fails with a rate limit, the agent
    is invoked three times, the third failure is slept on as well, and
    [Exception("Rate limit exceeded after max retries")] is raised in place
    of the error of the agent; nothing is cleaned up. *)
Theorem rate_limit_exhausted :
  forall (lower : str -> str) (decimal : char -> option N)
         (env : agent.environment) (question : str)
         (attachments : list (str * file_info)) (h : list agent.event),
    (forall h1 path data, agent.write_file env h1 path data = None) ->
    (forall h1 seconds, agent.sleep env h1 seconds = None) ->
    (forall h1, exists e seconds,
         agent.invoke env h1 question = inl e /\
         agent.is_Exception e = true /\
         contains agent.RATE_LIMIT (agent.message e) = true /\
         agent.wait_time decimal (agent.message e) = Returned seconds) ->
    exists new,
      agent.handle_query lower decimal env question attachments h
      = (h ++ new,
         Raised (agent.Exception (lit "Rate limit exceeded after max retries")))
      /\ invocations new = [question; question; question]
      /\ length (sleeps new) = 3%nat
      /\ Forall (fun ev => cleanup_call ev = false) new.
Proof.
  intros lower decimal env question attachments h Hw Hs Hlimited.
  destruct (handle_query_raises lower decimal env Hw question attachments h
              (fun l => invocations l = repeat question 3 /\
                        length (sleeps l) = 3%nat /\
                        Forall (fun ev => cleanup_call ev = false) l)
              (agent.Exception (lit "Rate limit exceeded after max retries")))
    as (w & l & E & (Hi & Hsl & Hc) & Wi & Ws & Wc).
  { intros h1.
    apply (attempts_exhausted decimal env Hs question 3 Hlimited 0 h1); lia. }
  exists (w ++ l). split; [exact E|].
  rewrite invocations_app, sleeps_app, Wi, Ws, Hi.
  repeat split; [exact Hsl | now apply Forall_app].
Qed.

Lemma rate_limit_exhausted_witness :
  exists new,
    agent.handle_query ascii_lower ascii_decimal (quiet (inl RATE_LIMITED))
      (lit "How many rows?") SAMPLE_ATTACHMENTS []
    = ([] ++ new,
       Raised (agent.Exception (lit "Rate limit exceeded after max retries")))
    /\ invocations new = [lit "How many rows?"; lit "How many rows?";
                          lit "How many rows?"]
    /\ length (sleeps new) = 3%nat
    /\ Forall (fun ev => cleanup_call ev = false) new.
Proof.
  apply (rate_limit_exhausted ascii_lower ascii_decimal
           (quiet (inl RATE_LIMITED)) (lit "How many rows?")
           SAMPLE_ATTACHMENTS []).
  - reflexivity.
  - reflexivity.
  - intros h1. exists RATE_LIMITED, (FDec false (lit "2") (lit ".5") []).
    repeat split.
Defined.

(** X15: an exception of the agent that is not an instance of
    [Exception], or whose text does not hold [rate_limit_exceeded], is raised
    as it is after one invocation, with no sleep. *)
Theorem other_errors_raised_at_once :
  forall (lower : str -> str) (decimal : char -> option N)
         (env : agent.environment) (question : str)
         (attachments : list (str * file_info)) (h : list agent.event)
         (e : agent.thrown),
    (forall h1 path data, agent.write_file env h1 path data = None) ->
    (forall h1, agent.invoke env h1 question = inl e) ->
    agent.is_Exception e = false \/
    contains agent.RATE_LIMIT (agent.message e) = false ->
    exists new,
      agent.handle_query lower decimal env question attachments h
      = (h ++ new, Raised (agent.Thrown e))
      /\ invocations new = [question]
      /\ sleeps new = []
      /\ Forall (fun ev => cleanup_call ev = false) new.
Proof.
  intros lower decimal env question attachments h e Hw Hinv Hother.
  destruct (handle_query_raises lower decimal env Hw question attachments h
              (fun l => l = [agent.Invoke question]) (agent.Thrown e))
    as (w & l & E & -> & Wi & Ws & Wc).
  { intros h1. exists [agent.Invoke question]. split; [|reflexivity].
    change agent.max_retries with 3%nat.
    rewrite attempts_step. cbv zeta. rewrite Hinv.
    destruct Hother as [->| ->]; [reflexivity|].
    now rewrite andb_false_r. }
  exists (w ++ [agent.Invoke question]). split; [exact E|].
  rewrite invocations_app, sleeps_app, Wi, Ws.
  repeat split. apply Forall_app. split; [exact Wc | now repeat constructor].
Qed.

Lemma other_errors_raised_at_once_witness :
  exists new,
    agent.handle_query ascii_lower ascii_decimal (quiet (inl BROKEN))
      (lit "How many rows?") SAMPLE_ATTACHMENTS []
    = ([] ++ new, Raised (agent.Thrown BROKEN))
    /\ invocations new = [lit "How many rows?"]
    /\ sleeps new = []
    /\ Forall (fun ev => cleanup_call ev = false) new.
Proof.
  apply (other_errors_raised_at_once ascii_lower ascii_decimal
           (quiet (inl BROKEN)) (lit "How many rows?") SAMPLE_ATTACHMENTS []
           BROKEN).
  - reflexivity.
  - reflexivity.
  - now right.
Defined.

(** X16: a rate limit whose waiting time [float] cannot read, as
    [1.2.3], raises the [ValueError] of [float] from inside the handler: no
    sleep and no second attempt. *)
Theorem malformed_wait_is_raised :
  forall (lower : str -> str) (decimal : char -> option N)
         (env : agent.environment) (question : str)
         (attachments : list (str * file_info)) (h : list agent.event)
         (e : agent.thrown) (group1 : str),
    (forall h1 path data, agent.write_file env h1 path data = None) ->
    (forall h1, agent.invoke env h1 question = inl e) ->
    agent.is_Exception e = true ->
    contains agent.RATE_LIMIT (agent.message e) = true ->
    re.search (agent.match_wait decimal) (agent.message e) = Some group1 ->
    agent.float_of decimal group1 = None ->
    exists new,
      agent.handle_query lower decimal env question attachments h
      = (h ++ new,
         Raised (agent.ValueError
                   (lit "could not convert string to float: '"
                      ++ group1 ++ lit "'")))
      /\ invocations new = [question]
      /\ sleeps new = []
      /\ Forall (fun ev => cleanup_call ev = false) new.
Proof.
  intros lower decimal env question attachments h e group1
         Hw Hinv Hexc Hrate Hgroup Hfloat.
  destruct (handle_query_raises lower decimal env Hw question attachments h
              (fun l => l = [agent.Invoke question])
              (agent.ValueError (lit "could not convert string to float: '"
                                   ++ group1 ++ lit "'")))
    as (w & l & E & -> & Wi & Ws & Wc).
  { intros h1. exists [agent.Invoke question]. split; [|reflexivity].
    change agent.max_retries with 3%nat.
    rewrite attempts_step. cbv zeta. rewrite Hinv, Hexc, Hrate. cbn [andb].
    unfold agent.wait_time. now rewrite Hgroup, Hfloat. }
  exists (w ++ [agent.Invoke question]). split; [exact E|].
  rewrite invocations_app, sleeps_app, Wi, Ws.
  repeat split. apply Forall_app. split; [exact Wc | now repeat constructor].
Qed.

Lemma malformed_wait_is_raised_witness :
  exists new,
    agent.handle_query ascii_lower ascii_decimal
      (quiet (inl RATE_LIMITED_MALFORMED))
      (lit "How many rows?") SAMPLE_ATTACHMENTS []
    = ([] ++ new,
       Raised (agent.ValueError
                 (lit "could not convert string to float: '"
                    ++ lit "1.2.3" ++ lit "'")))
    /\ invocations new = [lit "How many rows?"]
    /\ sleeps new = []
    /\ Forall (fun ev => cleanup_call ev = false) new.
Proof.
  apply (malformed_wait_is_raised ascii_lower ascii_decimal
           (quiet (inl RATE_LIMITED_MALFORMED)) (lit "How many rows?")
           SAMPLE_ATTACHMENTS [] RATE_LIMITED_MALFORMED (lit "1.2.3"));
    reflexivity.
Defined.



(** ** More on the two interpreters *)

Lemma infix_trans (a b c : str) : infix a b -> infix b c -> infix a c.
Proof.
  intros (p1 & q1 & ->) (p2 & q2 & ->).
  exists (p2 ++ p1), (q1 ++ q2). now rewrite <- !app_assoc.
Qed.

Lemma infix_strip (s : str) : infix (strip s) s.
Proof. apply strip_by_infix. Qed.

(** X18: every decision of [parse] carries the whole text as its
    log, and the output of a [Finish] is trimmed and is a piece of the
    text. *)
Theorem parse_keeps_the_text :
  forall (json_loads : str -> result value) (text : str) (d : decision),
    parse json_loads text = Return d ->
    decision_log d = text /\
    forall output log, d = AgentFinish output log ->
      strip output = output /\ infix output text.
Proof.
  intros json_loads text d H.
  assert (forall s, infix s text ->
            Return (AgentFinish (strip s) text) = Return d ->
            decision_log d = text /\
            forall output log, d = AgentFinish output log ->
              strip output = output /\ infix output text) as Hfinish.
  { intros s Hs E. injection E as <-. split; [reflexivity|].
    intros output log E. injection E as <- _.
    split; [apply strip_by_idem|].
    exact (infix_trans _ _ _ (infix_strip s) Hs). }
  assert (infix text text) as Hrefl by (exists [], []; now rewrite app_nil_r).
  destruct (contains FINAL_ANSWER text) eqn:Hm.
  - rewrite (parse_final json_loads text Hm) in H.
    destruct (last_split_FINAL_ANSWER text Hm) as (before & after & [Ht _] & Hl).
    rewrite Hl in H. apply (Hfinish after); [|exact H].
    exists (before ++ FINAL_ANSWER), []. rewrite app_nil_r, <- app_assoc.
    exact Ht.
  - destruct (re.search match_action text) as [body|] eqn:Hs.
    + destruct (json_loads (strip body)) as [v|e] eqn:Hj.
      * rewrite (parse_decoded json_loads text body v Hm Hs Hj) in H.
        destruct v; try discriminate. cbv zeta in H.
        destruct (truthy _ && negb _); [|exact (Hfinish text Hrefl H)].
        injection H as <-. split; [reflexivity | discriminate].
      * rewrite (parse_not_decoded json_loads text body e Hm Hs Hj) in H.
        destruct (caught e _); [exact (Hfinish text Hrefl H) | discriminate].
    + rewrite (parse_no_block json_loads text Hm Hs) in H.
      exact (Hfinish text Hrefl H).
Qed.

Lemma parse_keeps_the_text_witness :
  decision_log (AgentFinish (lit "42") EXAMPLE_ACTION_THEN_FINAL)
  = EXAMPLE_ACTION_THEN_FINAL /\
  forall output log,
    AgentFinish (lit "42") EXAMPLE_ACTION_THEN_FINAL = AgentFinish output log ->
    strip output = output /\ infix output EXAMPLE_ACTION_THEN_FINAL.
Proof.
  apply (parse_keeps_the_text json.loads EXAMPLE_ACTION_THEN_FINAL).
  vm_compute. reflexivity.
Defined.


Section MoreRecovererFacts.

Variable json_loads : str -> result value.
Variable literal_eval : str -> result value.

(** The third strategy raises nothing: whatever the two parsers raise on
    a candidate is passed over. *)
Lemma extract_by_patterns_returns (pats : list (str -> option str)) (s : str) :
  exists v, extract_by_patterns json_loads literal_eval pats s = Return v.
Proof.
  induction pats as [|pat pats IH]; [now exists PyNone|].
  cbn [extract_by_patterns].
  destruct (re.search pat s) as [span|]; [|exact IH]. cbv zeta.
  destruct (json_loads _) as [v|e]; [now exists v|].
  destruct (literal_eval _) as [v|e']; [now exists v | exact IH].
Qed.

Lemma strip_by_tight (p : char -> bool) (c d : char) (body : str) :
  p c = false -> p d = false ->
  strip_by p (c :: body ++ [d]) = c :: body ++ [d].
Proof.
  intros Hc Hd. unfold strip_by, rstrip_by.
  rewrite (lstrip_by_head _ _ _ Hc).
  change (c :: body ++ [d]) with ((c :: body) ++ [d]) at 1.
  rewrite rev_app_distr. cbn [rev app].
  rewrite (lstrip_by_head _ _ _ Hd).
  change (d :: rev body ++ [c]) with ([d] ++ rev (c :: body)).
  rewrite rev_app_distr, rev_involutive. reflexivity.
Qed.

(** What a search for one of the two patterns finds *)
Lemma search_patterns (pat : str -> option str) (s span : str) :
  In pat patterns -> re.search pat s = Some span ->
  exists o c, (o = LBRACKET /\ c = RBRACKET \/ o = LBRACE /\ c = RBRACE) /\
              first_span o c s span.
Proof.
  intros [<-|[<-|[]]] H.
  - exists LBRACKET, RBRACKET. split; [now left|].
    now apply search_span in H.
  - exists LBRACE, RBRACE. split; [now right|].
    now apply search_span in H.
Qed.

Lemma span_tight (o c : char) (mid : str) :
  o = LBRACKET /\ c = RBRACKET \/ o = LBRACE /\ c = RBRACE ->
  strip_chars [BACKQUOTE] (strip (o :: mid ++ [c])) = o :: mid ++ [c].
Proof.
  unfold strip, strip_chars.
  intros [[-> ->]|[-> ->]]; rewrite !strip_by_tight; reflexivity.
Qed.

Lemma first_span_infix (o c : char) (s span : str) :
  first_span o c s span -> infix span s.
Proof.
  intros (before & mid & after & -> & -> & _).
  exists before, after. cbn [app]. now rewrite <- app_assoc.
Qed.

Lemma extract_by_patterns_source (pats : list (str -> option str)) (s : str)
    (v : value) :
  (forall pat, In pat pats -> In pat patterns) ->
  extract_by_patterns json_loads literal_eval pats s = Return v ->
  v = PyNone \/
  exists span, infix span s /\
               (json_loads span = Return v \/ literal_eval span = Return v).
Proof.
  induction pats as [|pat pats IH]; intros Hsub H.
  - injection H as <-. now left.
  - assert (forall q, In q pats -> In q patterns) as Hsub'
      by (intros q Hq; apply Hsub; now right).
    cbn [extract_by_patterns] in H.
    destruct (re.search pat s) as [span|] eqn:Hs; [|exact (IH Hsub' H)].
    cbv zeta in H.
    destruct (search_patterns pat s span (Hsub pat (or_introl eq_refl)) Hs)
      as (o & c & Hoc & Hspan).
    pose proof (first_span_infix o c s span Hspan) as Hin.
    destruct Hspan as (before & mid & after & _ & Espan & _).
    rewrite Espan, (span_tight o c mid Hoc), <- Espan in H.
    destruct (json_loads span) as [v'|e] eqn:Hj.
    + injection H as <-. right. exists span. split; [exact Hin | now left].
    + destruct (literal_eval span) as [v'|e'] eqn:Hl; [|exact (IH Hsub' H)].
      injection H as <-. right. exists span. split; [exact Hin | now right].
Qed.

End MoreRecovererFacts.

(** X20: [_try_extract_json_from_text] raises on a string exactly
    when the strict parse of the trimmed text raises something other than
    [JSONDecodeError] and [TypeError], or the relaxed parse of it raises
    something other than [ValueError] and [SyntaxError]; the search by
    patterns raises nothing. *)
Theorem recoverer_raises_iff :
  forall (json_loads literal_eval : str -> result value) (s : str) (e : exn),
    _try_extract_json_from_text json_loads literal_eval (PyStr s) = Raise e <->
    (json_loads (strip s) = Raise e /\
     caught e [JSONDecodeError; TypeError] = false) \/
    (exists e0, json_loads (strip s) = Raise e0 /\
                caught e0 [JSONDecodeError; TypeError] = true /\
                literal_eval (strip s) = Raise e /\
                caught e [ValueError; SyntaxError] = false).
Proof.
  intros json_loads literal_eval s e.
  cbn [_try_extract_json_from_text]. cbv zeta. unfold extract_relaxed.
  destruct (extract_by_patterns_returns json_loads literal_eval patterns s)
    as [v3 H3].
  destruct (json_loads (strip s)) as [v|e0] eqn:Hj.
  - split; [discriminate|].
    intros [[H _]|(e1 & H & _)]; discriminate.
  - destruct (caught e0 [JSONDecodeError; TypeError]) eqn:Hc.
    + destruct (literal_eval (strip s)) as [c|e1] eqn:Hl.
      * split.
        -- destruct (is_dict_or_list c); [discriminate|].
           rewrite H3. discriminate.
        -- intros [[H Hn]|(e2 & _ & _ & H & _)]; [|discriminate].
           injection H as ->. congruence.
      * destruct (caught e1 [ValueError; SyntaxError]) eqn:Hc1.
        -- split; [rewrite H3; discriminate|].
           intros [[H Hn]|(e2 & _ & _ & H & Hn)].
           ++ injection H as ->. congruence.
           ++ injection H as ->. congruence.
        -- split.
           ++ intros H. injection H as <-. right. now exists e0.
           ++ intros [[H Hn]|(e2 & _ & _ & H & _)].
              ** injection H as ->. congruence.
              ** now rewrite H.
    + split.
      * intros H. injection H as <-. now left.
      * intros [[H _]|(e2 & H & Hn & _)].
        -- now rewrite H.
        -- injection H as ->. congruence.
Qed.

(** X21: the candidate of a pattern is the span found: it starts
    and ends with a bracket, so stripping whitespace and backquotes from it
    changes nothing. *)
Theorem candidate_is_the_span :
  forall (pat : str -> option str) (s span : str),
    In pat patterns ->
    re.search pat s = Some span ->
    strip_chars [BACKQUOTE] (strip span) = span.
Proof.
  intros pat s span Hp H.
  destruct (search_patterns pat s span Hp H)
    as (o & c & Hoc & before & mid & after & _ & -> & _).
  exact (span_tight o c mid Hoc).
Qed.

Lemma candidate_is_the_span_witness :
  strip_chars [BACKQUOTE] (strip (lit "[1,2,3]")) = lit "[1,2,3]".
Proof.
  apply (candidate_is_the_span ARRAY_PATTERN ANSWER_PROSE_LITERAL).
  - now left.
  - reflexivity.
Defined.

(** X22: a value recovered from a string, when it is not [None],
    is what one of the two parsers returns on a piece of the string. *)
Theorem recovered_value_source :
  forall (json_loads literal_eval : str -> result value) (s : str) (v : value),
    _try_extract_json_from_text json_loads literal_eval (PyStr s) = Return v ->
    v = PyNone \/
    exists piece,
      infix piece s /\
      (json_loads piece = Return v \/ literal_eval piece = Return v).
Proof.
  intros json_loads literal_eval s v.
  cbn [_try_extract_json_from_text]. cbv zeta. unfold extract_relaxed.
  assert (forall r,
            extract_by_patterns json_loads literal_eval patterns s = r ->
            r = Return v ->
            v = PyNone \/
            exists piece,
              infix piece s /\
              (json_loads piece = Return v \/ literal_eval piece = Return v))
    as H3.
  { intros r <- H.
    exact (extract_by_patterns_source json_loads literal_eval patterns s v
             (fun pat Hp => Hp) H). }
  destruct (json_loads (strip s)) as [v'|e0] eqn:Hj.
  - intros H. injection H as <-. right. exists (strip s).
    split; [apply infix_strip | now left].
  - destruct (caught e0 _); [|discriminate].
    destruct (literal_eval (strip s)) as [c|e1] eqn:Hl.
    + destruct (is_dict_or_list c); [|now apply H3].
      intros H. injection H as <-. right. exists (strip s).
      split; [apply infix_strip | now right].
    + destruct (caught e1 _); [now apply H3 | discriminate].
Qed.

Lemma recovered_value_source_witness :
  PyList [PyInt 1; PyInt 2; PyInt 3] = PyNone \/
  exists piece,
    infix piece ANSWER_PROSE_LITERAL /\
    (json.loads piece = Return (PyList [PyInt 1; PyInt 2; PyInt 3]) \/
     ast.literal_eval piece = Return (PyList [PyInt 1; PyInt 2; PyInt 3])).
Proof.
  apply (recovered_value_source json.loads ast.literal_eval ANSWER_PROSE_LITERAL).
  vm_compute. reflexivity.
Defined.

Section SuccessFacts.

Variable lower : str -> str.
Variable decimal : char -> option N.
Variable env : agent.environment.
Variable question : str.
Variable result : value.

(** The invocations made before the run, and the number of them that
    are told to wait *)
Variable base k : nat.

Hypothesis writes_succeed :
  forall h path data, agent.write_file env h path data = None.
Hypothesis sleeps_succeed : forall h seconds, agent.sleep env h seconds = None.
Hypothesis removes_succeed : forall h path, agent.remove env h path = None.

Hypothesis told_to_wait :
  forall h, (length (invocations h) < base + k)%nat ->
    exists e seconds,
      agent.invoke env h question = inl e /\
      agent.is_Exception e = true /\
      contains agent.RATE_LIMIT (agent.message e) = true /\
      agent.wait_time decimal (agent.message e) = Returned seconds.

Hypothesis then_answered :
  forall h, length (invocations h) = (base + k)%nat ->
    agent.invoke env h question = inr result.

Lemma attempts_answered (remaining : nat) :
  forall attempt h j,
    length (invocations h) = (base + j)%nat -> (j <= k)%nat ->
    (k - j < remaining)%nat -> (remaining + attempt = 3)%nat ->
    exists l,
      agent.attempts decimal env remaining attempt question h
      = (h ++ l, Returned (Some result)) /\
      length (invocations l) = S (k - j) /\
      length (sleeps l) = (k - j)%nat /\
      Forall (fun ev => cleanup_call ev = false) l.
Proof.
  induction remaining as [|remaining IH]; intros attempt h j Hh Hj Hturns Hsum;
    [lia|].
  rewrite attempts_step. cbv zeta.
  destruct (Nat.eq_dec j k) as [->|Hne].
  - rewrite (then_answered h Hh). exists [agent.Invoke question].
    rewrite Nat.sub_diag. repeat split. now repeat constructor.
  - destruct (told_to_wait h) as (e & t & -> & -> & -> & ->); [lia|].
    cbn [andb]. rewrite sleeps_succeed.
    destruct (Nat.eqb attempt 2) eqn:Ha; [apply Nat.eqb_eq in Ha; lia|].
    destruct (IH (S attempt)
                 ((h ++ [agent.Invoke question]) ++ [agent.Sleep t]) (S j))
      as (l & -> & Hi & Hs & Hc); try lia.
    { rewrite !invocations_app, !length_app. cbn. lia. }
    exists (agent.Invoke question :: agent.Sleep t :: l).
    rewrite <- !app_assoc. cbn [app]. split; [reflexivity|].
    split; [change (S (length (invocations l)) = S (k - j)); lia|].
    split; [change (S (length (sleeps l)) = (k - j)%nat); lia|].
    now repeat constructor.
Qed.

Lemma remove_files_succeeds (paths : list str) :
  forall h, exists c,
    agent.remove_files env paths h = (h ++ c, Returned tt) /\
    invocations c = [] /\ sleeps c = [].
Proof.
  induction paths as [|path paths IH]; intros h.
  - exists []. rewrite app_nil_r. now repeat split.
  - cbn [agent.remove_files]. unfold agent.seq at 1.
    destruct (agent.path_exists env h path).
    + unfold agent.seq at 1. rewrite removes_succeed. cbn [agent.answered].
      destruct (IH ((h ++ [agent.PathExists path]) ++ [agent.Remove path]))
        as (c & -> & Hi & Hs).
      exists (agent.PathExists path :: agent.Remove path :: c).
      rewrite <- !app_assoc. now repeat split.
    + unfold agent.seq at 1. unfold agent.ret at 1.
      destruct (IH (h ++ [agent.PathExists path])) as (c & -> & Hi & Hs).
      exists (agent.PathExists path :: c).
      rewrite <- !app_assoc. now repeat split.
Qed.

End SuccessFacts.

(** X23: when the first [k] invocations, at most two, fail with a
    rate limit and the next one answers, [handle_query] returns that answer
    after [k] sleeps and [k + 1] invocations. *)
Theorem retry_then_answer :
  forall (lower : str -> str) (decimal : char -> option N)
         (env : agent.environment) (question : str) (result : value)
         (attachments : list (str * file_info)) (h : list agent.event)
         (k : nat),
    (k <= 2)%nat ->
    (forall h1 path data, agent.write_file env h1 path data = None) ->
    (forall h1 seconds, agent.sleep env h1 seconds = None) ->
    (forall h1 path, agent.remove env h1 path = None) ->
    (forall h1, (length (invocations h1) < length (invocations h) + k)%nat ->
       exists e seconds,
         agent.invoke env h1 question = inl e /\
         agent.is_Exception e = true /\
         contains agent.RATE_LIMIT (agent.message e) = true /\
         agent.wait_time decimal (agent.message e) = Returned seconds) ->
    (forall h1, length (invocations h1) = (length (invocations h) + k)%nat ->
       agent.invoke env h1 question = inr result) ->
    exists new,
      agent.handle_query lower decimal env question attachments h
      = (h ++ new, Returned result) /\
      length (invocations new) = S k /\ length (sleeps new) = k.
Proof.
  intros lower decimal env question result attachments h k
         Hk Hw Hs Hr Hwait Hans.
  rewrite handle_query_unfold.
  destruct (save_attachments_succeeds lower env Hw attachments [] h)
    as (w & fp & Ew & Wi & Ws & _).
  destruct (attempts_answered decimal env question result
              (length (invocations h)) k Hs Hwait Hans
              agent.max_retries 0 (h ++ w) 0)
    as (l & El & Li & Ls & _);
    try (unfold agent.max_retries; lia).
  { rewrite invocations_app, length_app, Wi. cbn. lia. }
  destruct (remove_files_succeeds env Hr (map snd fp) ((h ++ w) ++ l))
    as (c & Ec & Ci & Cs).
  exists (w ++ l ++ c).
  unfold agent.seq at 1. rewrite Ew.
  unfold agent.seq at 1. rewrite El.
  unfold agent.seq at 1. rewrite Ec.
  rewrite <- !app_assoc. split; [reflexivity|].
  rewrite !invocations_app, !sleeps_app, !length_app, Wi, Ws, Ci, Cs, Li, Ls.
  cbn. lia.
Qed.

Lemma retry_then_answer_witness :
  exists new,
    agent.handle_query ascii_lower ascii_decimal PATIENT
      (lit "How many rows?") SAMPLE_ATTACHMENTS []
    = ([] ++ new, Returned AGENT_RESULT) /\
    length (invocations new) = 3%nat /\ length (sleeps new) = 2%nat.
Proof.
  apply (retry_then_answer ascii_lower ascii_decimal PATIENT
           (lit "How many rows?") AGENT_RESULT SAMPLE_ATTACHMENTS [] 2).
  - lia.
  - reflexivity.
  - reflexivity.
  - reflexivity.
  - intros h1 Hlt. exists RATE_LIMITED, (FDec false (lit "2") (lit ".5") []).
    cbn [agent.invoke PATIENT].
    apply Nat.ltb_lt in Hlt. cbn [invocations flat_map length Nat.add] in Hlt.
    rewrite Hlt. repeat split.
  - intros h1 Heq. cbn [agent.invoke PATIENT].
    cbn [invocations flat_map length Nat.add] in Heq.
    fold (invocations h1). now rewrite Heq.
Defined.

(** ** The decoder *)

Lemma between_spec (lo hi b : N) :
  utf8.between lo hi b = true <-> lo <= b <= hi.
Proof.
  unfold utf8.between. rewrite andb_true_iff, !N.leb_le. tauto.
Qed.

Lemma is_scalar_value_spec (c : char) :
  c < 0xD800 \/ 0xE000 <= c <= 0x10FFFF -> is_scalar_value c = true.
Proof.
  unfold is_scalar_value. intros [H|[H1 H2]].
  - apply N.ltb_lt in H. now rewrite H.
  - apply N.leb_le in H1, H2. rewrite H1, H2. apply orb_true_r.
Qed.

Lemma is_text_cons (c : char) (r : option str) (s : str) :
  is_scalar_value c = true ->
  (forall t, r = Some t -> is_text t = true) ->
  option_map (cons c) r = Some s -> is_text s = true.
Proof.
  intros Hc Hr H. destruct r as [t|]; [|discriminate].
  injection H as <-. specialize (Hr t eq_refl).
  unfold is_text in *. cbn [forallb]. now rewrite Hc, Hr.
Qed.

(** What the decoder returns holds no surrogate and nothing above the
    last code point. *)
Lemma decode_units_text (n : nat) :
  forall bs s, (length bs <= n)%nat ->
               utf8.decode_units bs = Some s -> is_text s = true.
Proof.
  induction n as [|n IH]; intros bs s Hlen H.
  - destruct bs; [injection H as <-; reflexivity | simpl in Hlen; lia].
  - destruct bs as [|b0 r0]; [injection H as <-; reflexivity|].
    cbn [utf8.decode_units] in H. simpl in Hlen.
    destruct (b0 <? 0x80) eqn:E0.
    { apply N.ltb_lt in E0. revert H. apply is_text_cons.
      - apply is_scalar_value_spec. lia.
      - intros t. apply IH. lia. }
    destruct (utf8.between 0xC2 0xDF b0) eqn:E2.
    { apply between_spec in E2.
      destruct r0 as [|b1 r1]; [discriminate|].
      destruct (utf8.continuation b1) eqn:C1; [|discriminate].
      apply between_spec in C1. revert H. apply is_text_cons.
      - apply is_scalar_value_spec. lia.
      - intros t. apply IH. simpl in Hlen. lia. }
    destruct (utf8.between 0xE0 0xEF b0) eqn:E3.
    { apply between_spec in E3.
      destruct r0 as [|b1 [|b2 r2]]; try discriminate.
      destruct (utf8.between _ _ b1 && utf8.continuation b2) eqn:C;
        [|discriminate].
      apply andb_true_iff in C as [C1 C2].
      apply between_spec in C1, C2. revert H. apply is_text_cons.
      - apply is_scalar_value_spec.
        revert C1.
        destruct (N.eqb_spec b0 0xE0); destruct (N.eqb_spec b0 0xED);
          intros C1; lia.
      - intros t. apply IH. simpl in Hlen. lia. }
    destruct (utf8.between 0xF0 0xF4 b0) eqn:E4; [|discriminate].
    apply between_spec in E4.
    destruct r0 as [|b1 [|b2 [|b3 r3]]]; try discriminate.
    destruct (utf8.between _ _ b1 && utf8.continuation b2
              && utf8.continuation b3) eqn:C; [|discriminate].
    apply andb_true_iff in C as [C C3]. apply andb_true_iff in C as [C1 C2].
    apply between_spec in C1, C2, C3. revert H. apply is_text_cons.
    + apply is_scalar_value_spec.
      revert C1.
      destruct (N.eqb_spec b0 0xF0); destruct (N.eqb_spec b0 0xF4);
        intros C1; lia.
    + intros t. apply IH. simpl in Hlen. lia.
Qed.

Lemma is_text_infix (piece s : str) :
  infix piece s -> is_text s = true -> is_text piece = true.
Proof.
  intros (pre & post & ->). unfold is_text. rewrite !forallb_app.
  intros H. apply andb_true_iff in H as [_ H].
  now apply andb_true_iff in H as [H _].
Qed.

(** X24: the question returned holds only Unicode scalar values:
    strict UTF-8 lets no surrogate through. *)
Theorem question_is_text :
  forall (lower : str -> str) (form : list (str * form_value))
         (question_text : str) (files : list (str * file_info)),
    _extract_question_and_files lower form = Return (question_text, files) ->
    is_text question_text = true.
Proof.
  intros lower form q files H.
  destruct (extract_Return lower form q files H) as [E _].
  destruct (read_form_question lower _ _ _ _ _ E)
    as [?|(field & f & text & _ & _ & Hd & Hq & _)]; [discriminate|].
  injection Hq as ->.
  apply (is_text_infix _ text (infix_strip text)).
  exact (decode_units_text _ _ _ (Nat.le_refl _) Hd).
Qed.

Lemma question_is_text_witness : is_text (lit "How many rows?") = true.
Proof.
  apply (question_is_text ascii_lower SAMPLE_FORM (lit "How many rows?")
           [ (lit "data", info_of DATA_FILE);
             (lit " Questions.TXT ", info_of QUESTION_FILE) ]).
  reflexivity.
Defined.

(** ** What is saved *)

Section SaveFacts.

Variable lower : str -> str.
Variable decimal : char -> option N.
Variable env : agent.environment.

Hypothesis writes_succeed :
  forall h path data, agent.write_file env h path data = None.

Lemma save_attachments_writes (items : list (str * file_info)) :
  forall file_paths h,
    exists w fp,
      agent.save_attachments lower env items file_paths h
      = (h ++ w, Returned fp) /\
      forall field info name data,
        In (field, info) items -> is_preferred lower field = false ->
        info_filename info = Some name -> name <> [] ->
        info_bytes info = Some data ->
        In (agent.Write (posixpath.join (lit ".") name) data) w.
Proof.
  induction items as [|[field info] items IH]; intros file_paths h.
  - exists [], file_paths. rewrite app_nil_r. split; [reflexivity|].
    intros ? ? ? ? [].
  - cbn [agent.save_attachments].
    assert (forall fp,
              (is_preferred lower field = false ->
               forall name data, info_filename info = Some name -> name <> [] ->
                                 info_bytes info = Some data -> False) ->
              exists w fp',
                agent.save_attachments lower env items fp h
                = (h ++ w, Returned fp') /\
                forall field' info' name data,
                  In (field', info') ((field, info) :: items) ->
                  is_preferred lower field' = false ->
                  info_filename info' = Some name -> name <> [] ->
                  info_bytes info' = Some data ->
                  In (agent.Write (posixpath.join (lit ".") name) data) w)
      as Hskip.
    { intros fp Hno. destruct (IH fp h) as (w & fp' & E & Hw).
      exists w, fp'. split; [exact E|].
      intros field' info' name data [Hin|Hin] Hp Hn Hne Hb.
      - injection Hin as <- <-. destruct (Hno Hp name data Hn Hne Hb).
      - exact (Hw _ _ _ _ Hin Hp Hn Hne Hb). }
    destruct (is_preferred lower field) eqn:Hp;
      [apply Hskip; discriminate|].
    destruct (info_filename info) as [[|c name]|] eqn:Hn;
      try (apply Hskip; intros _ n d Hn' Hne' _; congruence).
    destruct (info_bytes info) as [data|] eqn:Hb;
      [|apply Hskip; intros _ n d _ _ Hb'; discriminate].
    unfold agent.seq at 1. rewrite writes_succeed. cbn [agent.answered].
    destruct (IH (assoc_set file_paths (c :: name)
                    (posixpath.join (lit ".") (c :: name)))
                 (h ++ [agent.Write (posixpath.join (lit ".") (c :: name)) data]))
      as (w & fp' & E & Hw).
    exists (agent.Write (posixpath.join (lit ".") (c :: name)) data :: w), fp'.
    rewrite E, <- app_assoc. split; [reflexivity|].
    intros field' info' name' data' [Hin|Hin] Hp' Hn' Hne' Hb'.
    + injection Hin as <- <-. rewrite Hn in Hn'. rewrite Hb in Hb'.
      injection Hn' as <-. injection Hb' as <-. now left.
    + right. exact (Hw _ _ _ _ Hin Hp' Hn' Hne' Hb').
Qed.

Lemma handle_query_extends (question : str)
    (attachments : list (str * file_info)) (h : list agent.event) :
  exists w rest out,
    agent.handle_query lower decimal env question attachments h
    = (h ++ w ++ rest, out) /\
    forall field info name data,
      In (field, info) attachments -> is_preferred lower field = false ->
      info_filename info = Some name -> name <> [] ->
      info_bytes info = Some data ->
      In (agent.Write (posixpath.join (lit ".") name) data) w.
Proof.
  rewrite handle_query_unfold.
  destruct (save_attachments_writes attachments [] h) as (w & fp & E & Hw).
  unfold agent.seq at 1. rewrite E.
  match goal with
  | |- context [agent.seq ?m ?k (h ++ w)] =>
      destruct (agent.seq m k (h ++ w)) as [h' out] eqn:Erest;
      assert (calls_only (fun _ => True) (agent.seq m k)) as Hc
  end.
  { apply calls_only_seq.
    - apply (calls_only_weaken (attempt_call question)); [trivial|].
      apply attempts_calls.
    - intros res. apply calls_only_seq.
      + apply (calls_only_weaken (fun ev => cleanup_call ev = true));
          [trivial | apply remove_files_calls].
      + intros _. destruct res; [apply calls_only_ret | apply calls_only_raise]. }
  destruct (Hc _ _ _ Erest) as (rest & -> & _).
  exists w, rest, out. rewrite <- app_assoc. now split.
Qed.

End SaveFacts.



Lemma assoc_set_same {V : Type} (d : list (str * V)) (k : str) (v : V) :
  In (k, v) (assoc_set d k v).
Proof.
  induction d as [|[k' v'] d IH]; cbn [assoc_set]; [now left|].
  destruct (str_eqb k' k) eqn:E; [|now right].
  apply str_eqb_eq in E. subst k'. now left.
Qed.

Lemma assoc_set_other {V : Type} (d : list (str * V)) (k0 : str) (v0 : V)
    (k : str) (v : V) :
  k <> k0 -> In (k, v) d -> In (k, v) (assoc_set d k0 v0).
Proof.
  intros Hne. induction d as [|[k' v'] d IH]; cbn [assoc_set]; [intros []|].
  destruct (str_eqb k' k0) eqn:E.
  - apply str_eqb_eq in E. subst k'.
    intros [H|H]; [injection H as -> _; contradiction | now right].
  - intros [H|H]; [now left | right; now apply IH].
Qed.

Lemma recorded_keeps (items : list (str * form_value)) :
  forall files k info,
    In (k, info) files -> ~ In k (map fst items) ->
    In (k, info) (recorded items files).
Proof.
  induction items as [|[k0 v] items IH]; intros files k info Hin Hk;
    [exact Hin|].
  cbn [recorded fold_left fst snd]. cbn [map fst] in Hk.
  assert (~ In k (map fst items)) as Hk'
    by (intros Hx; apply Hk; now right).
  destruct v as [g|t]; apply IH; try assumption.
  apply assoc_set_other; [|exact Hin].
  intros ->. apply Hk. now left.
Qed.

Lemma recorded_in (items : list (str * form_value)) :
  NoDup (map fst items) ->
  forall files field f,
    In (field, File f) items -> In (field, info_of f) (recorded items files).
Proof.
  induction items as [|[k0 v] items IH]; intros Hnd files field f Hin;
    [destruct Hin|].
  cbn [map fst] in Hnd. inversion Hnd as [|? ? Hk Hnd']. subst.
  cbn [recorded fold_left fst snd]. destruct Hin as [Hin|Hin].
  - injection Hin as -> ->.
    apply recorded_keeps; [apply assoc_set_same | exact Hk].
  - destruct v; now apply IH.
Qed.

(** X26: on a form without a preferred field, the question is read
    from one of the files by its name or type, all the files are returned,
    and [handle_query] writes every named one of them: the file the
    question was read from is saved like any other attachment. *)
Theorem question_file_is_saved_too :
  forall (lower : str -> str) (decimal : char -> option N)
         (env : agent.environment) (form : list (str * form_value))
         (question : str) (files : list (str * file_info))
         (h : list agent.event),
    (forall h1 path bytes, agent.write_file env h1 path bytes = None) ->
    NoDup (map fst form) ->
    Forall (harmless lower) form ->
    _extract_question_and_files lower form = Return (question, files) ->
    (exists field f text,
        In (field, File f) form /\ utf8.decode (read f) = Some text /\
        question = strip text) /\
    forall field f name,
      In (field, File f) form -> filename f = Some name -> name <> [] ->
      exists new out,
        agent.handle_query lower decimal env question files h = (h ++ new, out)
        /\ In (agent.Write (posixpath.join (lit ".") name) (read f)) new.
Proof.
  intros lower decimal env form question files h Hw Hnd Hform H.
  destruct (extract_Return lower form question files H) as [E _].
  split.
  - destruct (read_form_question lower _ _ _ _ _ E)
      as [?|(field & f & text & Hin & _ & Hd & Hq & _)]; [discriminate|].
    injection Hq as ->. now exists field, f, text.
  - intros field f name Hin Hn Hne.
    destruct (read_form_harmless lower form [] Hform None []) as [qt E'].
    rewrite app_nil_r in E'. rewrite E' in E. cbn [read_form] in E.
    injection E as _ <-.
    rewrite Forall_forall in Hform. specialize (Hform _ Hin).
    destruct Hform as [Hp _]. cbn [fst snd] in Hp.
    destruct (handle_query_extends lower decimal env Hw question
                (recorded form []) h) as (w & rest & out & Eq & Hsaved).
    exists (w ++ rest), out. split; [exact Eq|].
    apply in_or_app. left.
    apply (Hsaved field (info_of f) name (read f)); try assumption;
      try reflexivity.
    now apply recorded_in.
Qed.

Lemma question_file_is_saved_too_witness :
  exists new out,
    agent.handle_query ascii_lower ascii_decimal (quiet (inr AGENT_RESULT))
      (lit "What is 2+2?")
      [ (lit "upload", {| info_filename := Some (lit "ask.txt");
                          info_content_type := None;
                          info_bytes := Some (list_byte_of_string "What is 2+2?") |}) ]
      []
    = ([] ++ new, out) /\
    In (agent.Write (posixpath.join (lit ".") (lit "ask.txt"))
                    (list_byte_of_string "What is 2+2?")) new.
Proof.
  apply (proj2 (question_file_is_saved_too ascii_lower ascii_decimal
                  (quiet (inr AGENT_RESULT))
                  [ (lit "upload",
                     File {| filename := Some (lit "ask.txt");
                             content_type := None;
                             read := list_byte_of_string "What is 2+2?" |}) ]
                  (lit "What is 2+2?")
                  [ (lit "upload",
                     {| info_filename := Some (lit "ask.txt");
                        info_content_type := None;
                        info_bytes := Some (list_byte_of_string "What is 2+2?") |}) ]
                  []
                  ltac:(reflexivity)
                  ltac:(repeat constructor; intros [])
                  ltac:(repeat constructor; discriminate)
                  ltac:(reflexivity))
               (lit "upload")
               {| filename := Some (lit "ask.txt");
                  content_type := None;
                  read := list_byte_of_string "What is 2+2?" |}
               (lit "ask.txt")).
  - now left.
  - reflexivity.
  - discriminate.
Defined.
